(** * CIRIS GUI (Android shell): reasoning-stream aggregator, stream reader,
      native-auth redirect guard, proxy client and role check

    A shallow embedding of the TypeScript sources
      - [apps/agui/app/billing/page.tsx]   (interact page: [processBatchedEvents],
        [queueEvent], [connectStream], [processSSEEvent]),
      - [apps/agui/app/page.tsx]           (minimal interact page: [connectStream]),
      - [apps/agui/contexts/AuthContext.tsx] ([doSetupRedirect],
        [checkSetupStatusFromAPI], [checkNativeAuth], [hasRole]),
      - [apps/agui/lib/ciris-proxy.ts]     ([generateInteractionId], [chat],
        [chatStream]).

    Conventions.  A JavaScript string is represented by the [string] holding
    its UTF-8 encoding.  An absent result ([undefined], and the [null] of a
    storage read) is [None]; inside parsed JSON [null] is [JNull].  The
    fields of a stream event are kept as they were parsed, whatever their
    declared types.
    Objects that the code shares and mutates in place (the [TrackedTask]
    objects stored in the task [Map]) live in an explicit heap and are
    named by their address; values that have a single owner (a task's
    [thoughts] array, a thought's [stages] map) are stored inside their
    owner.  [console.log]/[console.error] calls have no effect on any state
    modelled here and are left out. *)

From Stdlib Require Import ZArith NArith Ascii String List Lia Permutation.
From Stdlib Require Import DecimalString DecimalN.
From stdpp Require Import base option list gmap strings fin_maps.
Import ListNotations.
Local Open Scope string_scope.
Local Open Scope list_scope.
Local Set Warnings "-register-all".
Local Set Warnings "-clear-no-such-hyp".

(** ** JavaScript string primitives *)

Module JS.

(** [s.startsWith(p)] *)
Fixpoint startsWith (p s : string) : bool :=
  match p, s with
  | EmptyString, _ => true
  | String a p', String b s' => if Ascii.eqb a b then startsWith p' s' else false
  | String _ _, EmptyString => false
  end.

(** [s.includes(sub)] *)
Fixpoint includes (sub s : string) : bool :=
  startsWith sub s ||
  match s with
  | EmptyString => false
  | String _ s' => includes sub s'
  end.

(** [s.slice(n)] for a non-negative [n]. *)
Fixpoint slice (n : nat) (s : string) : string :=
  match n, s with
  | O, _ => s
  | S n', String _ s' => slice n' s'
  | S _, EmptyString => EmptyString
  end.

(** Truthiness of a string value: only the empty string is falsy. *)
Definition truthy (s : string) : bool :=
  match s with EmptyString => false | String _ _ => true end.

(** Truthiness of a possibly-[null] string (a storage read, an optional
    field). *)
Definition truthy_opt (o : option string) : bool :=
  match o with Some s => truthy s | None => false end.

(** [a || b] on possibly-[null] strings. *)
Definition or_else (a b : option string) : option string :=
  if truthy_opt a then a else b.

(** [a || "lit"] *)
Definition or_lit (a : option string) (b : string) : string :=
  match a with
  | Some s => if truthy s then s else b
  | None => b
  end.

End JS.

(** ** JSON values, as produced by [JSON.parse] *)

Inductive json : Type :=
| JNull
| JBool (b : bool)
| JNum (lexeme : string)
| JStr (s : string)
| JArr (xs : list json)
| JObj (members : list (string * json)).

Module Json.

(** Own-property lookup in a parsed object.  When a key is duplicated in
    the source text the last member wins. *)
Fixpoint member (k : string) (kvs : list (string * json)) : option json :=
  match kvs with
  | [] => None
  | (k', v) :: rest =>
      match member k rest with
      | Some v' => Some v'
      | None => if String.eqb k k' then Some v else None
      end
  end.

(** [v.k] for a non-null [v]: [None] is [undefined].  Primitives and
    arrays have none of the field names read by this code. *)
Definition get (k : string) (v : json) : option json :=
  match v with
  | JObj kvs => member k kvs
  | _ => None
  end.

(** A field that holds a string; [None] when it is missing or holds
    something else. *)
Definition get_string (k : string) (v : json) : option string :=
  match get k v with
  | Some (JStr s) => Some s
  | _ => None
  end.

End Json.

(** ** JavaScript numbers, as [JSON.parse] makes them *)

Module Number.

(** A double, up to the sign of zero (which [===], [Map] keys and
    truthiness do not see): zero, a non-zero finite value
    [± mantissa * 2^exponent] with an odd mantissa, or an infinity.
    [JSON.parse] makes no [NaN]. *)
Inductive t : Type :=
| Zero
| Finite (negative : bool) (mantissa : Z) (exponent : Z)
| Infinite (negative : bool).

Definition eqb (a b : t) : bool :=
  match a, b with
  | Zero, Zero => true
  | Finite s m k, Finite s' m' k' => Bool.eqb s s' && (m =? m')%Z && (k =? k')%Z
  | Infinite s, Infinite s' => Bool.eqb s s'
  | _, _ => false
  end.

Definition is_zero (a : t) : bool :=
  match a with Zero => true | _ => false end.

(** The double nearest to [p / q] for positive [p] and [q], ties to the
    even mantissa: 53 bits of precision, exponents from -1074, overflow to
    infinity. *)
Definition of_ratio (negative : bool) (p q : Z) : t :=
  let e0 := (Z.log2 p - Z.log2 q)%Z in
  let above := if (0 <=? e0)%Z then (q * 2 ^ e0 <=? p)%Z else (q <=? p * 2 ^ (- e0))%Z in
  let e := if above then e0 else (e0 - 1)%Z in
  let k := Z.max (e - 52) (-1074) in
  let '(num, den) := if (0 <=? k)%Z then (p, q * 2 ^ k)%Z else (p * 2 ^ (- k), q)%Z in
  let n := (num / den)%Z in
  let r := (num mod den)%Z in
  let n' :=
    if (2 * r <? den)%Z then n
    else if (den <? 2 * r)%Z then (n + 1)%Z
    else if Z.even n then n else (n + 1)%Z in
  if (n' =? 0)%Z then Zero
  else if (1024 <=? Z.log2 n' + k)%Z then Infinite negative
  else
    let z := Z.log2 (Z.land n' (- n')) in
    Finite negative (n' / 2 ^ z) (k + z).

Definition digit (c : ascii) : option Z :=
  let n := Z.of_N (N_of_ascii c) in
  if (48 <=? n)%Z && (n <=? 57)%Z then Some (n - 48)%Z else None.

(** The leading digits of [s] continue the numeral [acc]; also the number
    of digits read and the rest of the text. *)
Fixpoint digits (s : string) (acc : Z) (count : Z) : Z * Z * string :=
  match s with
  | String c r =>
      match digit c with
      | Some d => digits r (10 * acc + d)%Z (count + 1)%Z
      | None => (acc, count, s)
      end
  | EmptyString => (acc, count, s)
  end.

(** The value of a JSON number literal
    [-? digits (. digits)? ((e|E) (+|-)? digits)?]. *)
Definition of_lexeme (s : string) : t :=
  let '(negative, s1) :=
    match s with String "-" r => (true, r) | _ => (false, s) end in
  let '(whole, _, s2) := digits s1 0 0 in
  let '(mantissa, places, s3) :=
    match s2 with String "." r => digits r whole 0 | _ => (whole, 0%Z, s2) end in
  let power :=
    match s3 with
    | String c r =>
        if Ascii.eqb c "e" || Ascii.eqb c "E" then
          match r with
          | String "-" r' => (- (digits r' 0 0).1.1)%Z
          | String "+" r' => (digits r' 0 0).1.1
          | _ => (digits r 0 0).1.1
          end
        else 0%Z
    | EmptyString => 0%Z
    end in
  let scale := (power - places)%Z in
  if (mantissa =? 0)%Z then Zero
  else if (0 <=? scale)%Z then of_ratio negative (mantissa * 10 ^ scale) 1
  else of_ratio negative mantissa (10 ^ (- scale)).

End Number.

(** ** Values of parsed JSON under the JavaScript operators *)

Module Value.

(** Truthiness; [None] is [undefined]. *)
Definition truthy (v : option json) : bool :=
  match v with
  | None | Some JNull => false
  | Some (JBool b) => b
  | Some (JNum lexeme) => negb (Number.is_zero (Number.of_lexeme lexeme))
  | Some (JStr s) => JS.truthy s
  | Some (JArr _) | Some (JObj _) => true
  end.

(** [a === b] for two values that come from different places of parsed
    JSON texts: primitives are compared by value, numbers as doubles; an
    array or an object is only equal to itself, and every array or object
    that reaches a comparison in this code is a fresh one. *)
Definition strict_eq (a b : json) : bool :=
  match a, b with
  | JNull, JNull => true
  | JBool x, JBool y => Bool.eqb x y
  | JNum x, JNum y => Number.eqb (Number.of_lexeme x) (Number.of_lexeme y)
  | JStr x, JStr y => String.eqb x y
  | _, _ => false
  end.

(** [v === "text"] *)
Definition is_string (text : string) (v : option json) : bool :=
  match v with Some (JStr s) => String.eqb s text | _ => false end.

(** [v || alt] *)
Definition or_else (v : option json) (alt : json) : json :=
  match v with
  | Some x => if truthy v then x else alt
  | None => alt
  end.

(** [x?.includes(needle)] for a string [needle]: [undefined] on
    [undefined] and [null], the substring test on a string, the element
    test on an array; a number, a boolean or an object has no callable
    [includes], and the call throws a [TypeError] ([None]). *)
Definition includes (needle : string) (x : option json) : option bool :=
  match x with
  | None | Some JNull => Some false
  | Some (JStr s) => Some (JS.includes needle s)
  | Some (JArr xs) => Some (existsb (strict_eq (JStr needle)) xs)
  | Some (JNum _) | Some (JBool _) | Some (JObj _) => None
  end.

(** [x.slice(-8)] is evaluated without an exception: strings and arrays
    have [slice]. *)
Definition has_slice (x : json) : bool :=
  match x with JStr _ | JArr _ => true | _ => false end.

End Value.

(** ** Task / thought aggregator  ([billing/page.tsx], interact page) *)

Definition STAGE_NAMES : list string :=
  [ "thought_start"; "snapshot_and_context"; "dma_results";
    "aspdma_result"; "conscience_result"; "action_result" ].

(** The element type of [pendingEventsRef].  The fields hold what the
    stream delivered: the declared types ([string] for the first three and
    the last) are not checked anywhere, [None] is [undefined]. *)
Record StageEvent : Type := mkEvent {
  ev_event_type : option json;
  ev_thought_id : option json;
  ev_task_id : option json;
  ev_data : json;
  ev_timestamp : json }.

(** A stage is stored under its name only, so its [event_type] is that
    name. *)
Record ThoughtStage : Type := mkStage {
  stage_event_type : string;
  stage_completed : bool;
  stage_data : json;
  stage_timestamp : json }.

Record TrackedThought : Type := mkThought {
  thoughtId : json;
  stages : gmap string ThoughtStage }.

Record TrackedTask : Type := mkTask {
  taskId : json;
  description : json;
  completed : bool;
  firstTimestamp : json;
  thoughts : list TrackedThought }.

(** The keys of the task [Map]: a string, or an array, which is a key by
    reference and is named here by the address of the task stored under
    it.  (No other value becomes a key: see [step].) *)
Definition key : Type := string + nat.

(** The store of [TrackedTask] objects and one task [Map] (a snapshot):
    the map holds references into the store. *)
Record Aggregator : Type := mkAgg {
  heap : list TrackedTask;
  tasks : gmap key nat }.

(** [STAGE_NAMES.includes(stageName)]: the name, when it is one. *)
Definition known_stage (event_type : option json) : option string :=
  match event_type with
  | Some (JStr name) => if bool_decide (name ∈ STAGE_NAMES) then Some name else None
  | _ => None
  end.

(** [event_type === "action_result" &&
     (data.action_executed?.includes("task_complete") ||
      data.action_executed?.includes("task_reject"))]; [None] when the
    evaluation throws a [TypeError]: [data] is [null], or
    [action_executed] has no [includes]. *)
Definition terminal_action (e : StageEvent) : option bool :=
  if Value.is_string "action_result" (ev_event_type e) then
    match ev_data e with
    | JNull => None
    | data =>
        match Value.includes "task_complete" (Json.get "action_executed" data) with
        | Some true => Some true
        | Some false => Value.includes "task_reject" (Json.get "action_executed" data)
        | None => None
        end
    end
  else Some false.

(** The object literal built when [newTasks.get(task_id)] is [undefined];
    [data] is not [null]. *)
Definition new_task (e : StageEvent) (task_id : json) : TrackedTask :=
  {| taskId := task_id;
     description := Value.or_else (Json.get "task_description" (ev_data e)) (JStr "");
     completed := false;
     firstTimestamp := ev_timestamp e;
     thoughts := [] |}.

Definition new_thought (thought_id : json) : TrackedThought :=
  {| thoughtId := thought_id; stages := ∅ |}.

Definition stage_of (name : string) (e : StageEvent) : ThoughtStage :=
  {| stage_event_type := name;
     stage_completed := true;
     stage_data := ev_data e;
     stage_timestamp := ev_timestamp e |}.

(** [thought.stages.set(stageName, ...)] *)
Definition set_stage (name : string) (e : StageEvent) (t : TrackedThought)
  : TrackedThought :=
  {| thoughtId := thoughtId t;
     stages := <[ name := stage_of name e ]> (stages t) |}.

(** [task.thoughts.find(t => t.thoughtId === thought_id)], as the index of
    the first match. *)
Definition find_thought (thought_id : json) (ts : list TrackedThought) : option nat :=
  fst <$> list_find (λ t, Value.strict_eq (thoughtId t) thought_id = true) ts.

(** What one event does to the task object it names: find or create the
    thought, store the stage when its name is known, raise [completed]
    when the completion test answers [true] (when the test throws, the
    writes before it have been made). *)
Definition touch (e : StageEvent) (thought_id : json) (t : TrackedTask) : TrackedTask :=
  let '(ths, i) :=
    match find_thought thought_id (thoughts t) with
    | Some i => (thoughts t, i)
    | None => (thoughts t ++ [new_thought thought_id], length (thoughts t))
    end in
  let ths' :=
    match known_stage (ev_event_type e) with
    | Some name => alter (set_stage name e) i ths
    | None => ths
    end in
  {| taskId := taskId t;
     description := description t;
     completed := if terminal_action e is Some true then true else completed t;
     firstTimestamp := firstTimestamp t;
     thoughts := ths' |}.

(** [None] is normal completion, [Some name] an exception of that name. *)
Definition completion : Type := option string.

(** The loop body from [task.thoughts.find] on, for the task object at
    address [l]. *)
Definition update_task (e : StageEvent) (thought_id : json) (l : nat) (a : Aggregator)
  : Aggregator * completion :=
  ({| heap := alter (touch e thought_id) l (heap a); tasks := tasks a |},
   if terminal_action e is None then Some "TypeError" else None).

(** [newTasks.get(task_id)]: only a string finds an entry; an array or an
    object is a reference that no map holds yet, and no number or boolean
    ever becomes a key. *)
Definition get_task (task_id : json) (a : Aggregator) : option nat :=
  match task_id with
  | JStr s => tasks a !! (inl s : key)
  | _ => None
  end.

(** The body of the [for (const event of events)] loop, on the store and
    on [newTasks].  A new task is built from [data.task_description],
    which throws when [data] is [null], and announced with
    [task_id.slice(-8)], which throws unless the id is a string or an
    array; the entry set just before that is lost with [newTasks]. *)
Definition step (e : StageEvent) (a : Aggregator) : Aggregator * completion :=
  match ev_thought_id e, ev_task_id e with
  | Some thought_id, Some task_id =>
      if negb (Value.truthy (Some thought_id)) || negb (Value.truthy (Some task_id))
      then (a, None)
      else
        match get_task task_id a with
        | Some l => update_task e thought_id l a
        | None =>
            match ev_data e, task_id with
            | JNull, _ => (a, Some "TypeError")
            | _, JStr s =>
                update_task e thought_id (length (heap a))
                  {| heap := heap a ++ [new_task e task_id];
                     tasks := <[ (inl s : key) := length (heap a) ]> (tasks a) |}
            | _, JArr _ =>
                update_task e thought_id (length (heap a))
                  {| heap := heap a ++ [new_task e task_id];
                     tasks := <[ (inr (length (heap a)) : key) := length (heap a) ]>
                                (tasks a) |}
            | _, _ => (a, Some "TypeError")
            end
        end
  | _, _ => (a, None)
  end.

(** [for (const x of xs) { f x }], leaving the loop at the first exception. *)
Fixpoint for_of {S X : Type} (f : X → S → S * completion) (xs : list X) (s : S)
  : S * completion :=
  match xs with
  | [] => (s, None)
  | x :: rest =>
      match f x s with
      | (s', None) => for_of f rest s'
      | (s', Some e) => (s', Some e)
      end
  end.

(** The updater passed to [setTasks], run once on the current state:
    [new Map(prev)] copies the references, the loop then runs on the copy,
    which becomes the state when the loop ends.  When the loop throws,
    the copy is lost and the state stays the prior map; what the loop has
    written into the task objects that the prior map shares is written. *)
Definition apply_batch (events : list StageEvent) (a : Aggregator) : Aggregator :=
  match for_of step events a with
  | (a', None) => a'
  | (a', Some _) => {| heap := heap a'; tasks := tasks a |}
  end.

(** The task a snapshot [m] shows under [k] when read in store [h]. *)
Definition view (h : list TrackedTask) (m : gmap key nat) (k : key)
  : option TrackedTask :=
  m !! k ≫= λ l, h !! l.

(** The task of the current snapshot for the id [tid]. *)
Definition task_of (a : Aggregator) (tid : string) : option TrackedTask :=
  view (heap a) (tasks a) (inl tid).

(** The task object at [l] is one that can be stored under [k]. *)
Definition filed (k : key) (l : nat) (t : TrackedTask) : Prop :=
  match k with
  | inl s => taskId t = JStr s
  | inr n => n = l ∧ ∃ xs, taskId t = JArr xs
  end.

(** Every reference of the snapshot points at a task object carrying the
    key it is stored under. *)
Definition wf (a : Aggregator) : Prop :=
  ∀ k l, tasks a !! k = Some l →
    ∃ t, heap a !! l = Some t ∧ filed k l t.

Definition empty_agg : Aggregator := {| heap := []; tasks := ∅ |}.

(** ** Event batcher and application state of the interact page *)

(** [pendingEventsRef], the debounce timer ([batchTimeoutRef] holds a
    timeout that has not fired), the [tasks] state with the store of task
    objects it points into, and [sseConnected]. *)
Record App : Type := mkApp {
  pending : list StageEvent;
  timer : bool;
  agg : Aggregator;
  sseConnected : bool }.

Definition init_app : App :=
  {| pending := []; timer := false; agg := empty_agg; sseConnected := false |}.

(** [queueEvent]: push, then (re)start the 100ms timer. *)
Definition queueEvent (e : StageEvent) (s : App) : App :=
  {| pending := pending s ++ [e];
     timer := true;
     agg := agg s;
     sseConnected := sseConnected s |}.

(** [processBatchedEvents], run when the timer fires. *)
Definition processBatchedEvents (s : App) : App :=
  match pending s with
  | [] => {| pending := pending s; timer := false; agg := agg s;
             sseConnected := sseConnected s |}
  | events => {| pending := []; timer := false;
                 agg := apply_batch events (agg s);
                 sseConnected := sseConnected s |}
  end.

(** ** Completions: how a block of statements ends *)

(** [try { body } catch (e) { handler }] over a state [S]. *)
Definition try_catch {S : Type} (body : S → S * completion)
    (handler : string → S → S * completion) (s : S) : S * completion :=
  match body s with
  | (s', None) => (s', None)
  | (s', Some e) => handler e s'
  end.

(** ** [JSON.parse] *)

Module JsonParse.

Local Open Scope char_scope.

Definition code (c : ascii) : N := N_of_ascii c.

Definition is_ws (c : ascii) : bool :=
  let n := code c in
  (n =? 32)%N || (n =? 9)%N || (n =? 10)%N || (n =? 13)%N.

Fixpoint skip_ws (s : string) : string :=
  match s with
  | String c r => if is_ws c then skip_ws r else s
  | EmptyString => s
  end.

Definition is_digit (c : ascii) : bool :=
  let n := code c in (48 <=? n)%N && (n <=? 57)%N.

Definition hex_val (c : ascii) : option N :=
  let n := code c in
  if (48 <=? n)%N && (n <=? 57)%N then Some (n - 48)%N
  else if (65 <=? n)%N && (n <=? 70)%N then Some (n - 55)%N
  else if (97 <=? n)%N && (n <=? 102)%N then Some (n - 87)%N
  else None.

Definition byte_of (n : N) : ascii := ascii_of_N (n mod 256).

(** UTF-8 bytes of a code point (a lone surrogate is written in the same
    three-byte shape). *)
Definition utf8 (cp : N) : list ascii :=
  if (cp <? 128)%N then [byte_of cp]
  else if (cp <? 2048)%N then
    [byte_of (192 + cp / 64); byte_of (128 + cp mod 64)]
  else if (cp <? 65536)%N then
    [byte_of (224 + cp / 4096); byte_of (128 + (cp / 64) mod 64);
     byte_of (128 + cp mod 64)]
  else
    [byte_of (240 + cp / 262144); byte_of (128 + (cp / 4096) mod 64);
     byte_of (128 + (cp / 64) mod 64); byte_of (128 + cp mod 64)].

Definition is_high (u : N) : bool := (55296 <=? u)%N && (u <=? 56319)%N.
Definition is_low (u : N) : bool := (56320 <=? u)%N && (u <=? 57343)%N.

(** Output so far, in reverse, with a high surrogate that still waits for
    its partner. *)
Definition flush (hi : option N) (acc : list ascii) : list ascii :=
  match hi with
  | Some h => rev (utf8 h) ++ acc
  | None => acc
  end.

Definition add_unit (u : N) (hi : option N) (acc : list ascii)
  : option N * list ascii :=
  match hi with
  | Some h =>
      if is_low u then
        (None, rev (utf8 (65536 + (h - 55296) * 1024 + (u - 56320))) ++ acc)
      else if is_high u then (Some u, rev (utf8 h) ++ acc)
      else (None, rev (utf8 u) ++ rev (utf8 h) ++ acc)
  | None =>
      if is_high u then (Some u, acc) else (None, rev (utf8 u) ++ acc)
  end.

(** The characters of a string literal, after the opening quote. *)
Fixpoint chars (s : string) (hi : option N) (acc : list ascii)
  : option (string * string) :=
  match s with
  | EmptyString => None
  | String c r =>
      if (code c =? 34)%N then
        Some (string_of_list_ascii (rev (flush hi acc)), r)
      else if (code c =? 92)%N then
        match r with
        | String e r1 =>
            let plain (x : N) := chars r1 None (byte_of x :: flush hi acc) in
            if (code e =? 34)%N then plain 34%N
            else if (code e =? 92)%N then plain 92%N
            else if (code e =? 47)%N then plain 47%N
            else if (code e =? 98)%N then plain 8%N
            else if (code e =? 102)%N then plain 12%N
            else if (code e =? 110)%N then plain 10%N
            else if (code e =? 114)%N then plain 13%N
            else if (code e =? 116)%N then plain 9%N
            else if (code e =? 117)%N then
              match r1 with
              | String h1 (String h2 (String h3 (String h4 r2))) =>
                  match hex_val h1, hex_val h2, hex_val h3, hex_val h4 with
                  | Some a, Some b, Some c', Some d =>
                      let '(hi', acc') :=
                        add_unit (a * 4096 + b * 256 + c' * 16 + d)%N hi acc in
                      chars r2 hi' acc'
                  | _, _, _, _ => None
                  end
              | _ => None
              end
            else None
        | EmptyString => None
        end
      else if (code c <? 32)%N then None
      else chars r None (c :: flush hi acc)
  end.

(** The longest prefix of digits. *)
Fixpoint digits (s : string) : string * string :=
  match s with
  | String c r =>
      if is_digit c then let '(d, r') := digits r in (String c d, r') else (EmptyString, s)
  | EmptyString => (EmptyString, s)
  end.

(** A number literal; its lexeme is kept. *)
Definition number (s : string) : option (string * string) :=
  let '(sign, s1) :=
    match s with
    | String c r => if (code c =? 45)%N then (String c EmptyString, r) else (EmptyString, s)
    | EmptyString => (EmptyString, s)
    end in
  let '(int, s2) := digits s1 in
  let int_ok :=
    match int with
    | EmptyString => false
    | String c EmptyString => true
    | String c _ => negb (code c =? 48)%N
    end in
  if negb int_ok then None
  else
    let frac :=
      match s2 with
      | String c r =>
          if (code c =? 46)%N then
            let '(f, r') := digits r in
            match f with
            | EmptyString => None
            | _ => Some (String c f, r')
            end
          else Some (EmptyString, s2)
      | EmptyString => Some (EmptyString, s2)
      end in
    match frac with
    | None => None
    | Some (f, s3) =>
        let exp :=
          match s3 with
          | String c r =>
              if (code c =? 101)%N || (code c =? 69)%N then
                let '(sg, r1) :=
                  match r with
                  | String g r' =>
                      if (code g =? 43)%N || (code g =? 45)%N
                      then (String g EmptyString, r') else (EmptyString, r)
                  | EmptyString => (EmptyString, r)
                  end in
                let '(d, r2) := digits r1 in
                match d with
                | EmptyString => None
                | _ => Some (String c (sg +:+ d), r2)
                end
              else Some (EmptyString, s3)
          | EmptyString => Some (EmptyString, s3)
          end in
        match exp with
        | None => None
        | Some (x, s4) => Some (sign +:+ int +:+ f +:+ x, s4)
        end
    end.

(** [keyword kw s]: [s] with the literal [kw] removed from its front. *)
Definition keyword (kw s : string) : option string :=
  if JS.startsWith kw s then Some (JS.slice (String.length kw) s) else None.

Fixpoint value (fuel : nat) (s : string) {struct fuel} : option (json * string) :=
  match fuel with
  | O => None
  | S f =>
      match skip_ws s with
      | EmptyString => None
      | String c r as s0 =>
          if (code c =? 123)%N then
            match skip_ws r with
            | String d r' =>
                if (code d =? 125)%N then Some (JObj [], r') else members f (String d r') []
            | EmptyString => None
            end
          else if (code c =? 91)%N then
            match skip_ws r with
            | String d r' =>
                if (code d =? 93)%N then Some (JArr [], r') else elements f (String d r') []
            | EmptyString => None
            end
          else if (code c =? 34)%N then
            match chars r None [] with
            | Some (str, r') => Some (JStr str, r')
            | None => None
            end
          else if (code c =? 116)%N then (λ r', (JBool true, r')) <$> keyword "true" s0
          else if (code c =? 102)%N then (λ r', (JBool false, r')) <$> keyword "false" s0
          else if (code c =? 110)%N then (λ r', (JNull, r')) <$> keyword "null" s0
          else
            match number s0 with
            | Some (lex, r') => Some (JNum lex, r')
            | None => None
            end
      end
  end
with elements (fuel : nat) (s : string) (acc : list json) {struct fuel}
  : option (json * string) :=
  match fuel with
  | O => None
  | S f =>
      match value f s with
      | Some (v, r) =>
          match skip_ws r with
          | String c r' =>
              if (code c =? 44)%N then elements f r' (v :: acc)
              else if (code c =? 93)%N then Some (JArr (rev (v :: acc)), r')
              else None
          | EmptyString => None
          end
      | None => None
      end
  end
with members (fuel : nat) (s : string) (acc : list (string * json)) {struct fuel}
  : option (json * string) :=
  match fuel with
  | O => None
  | S f =>
      match skip_ws s with
      | String q r =>
          if (code q =? 34)%N then
            match chars r None [] with
            | Some (k, r1) =>
                match skip_ws r1 with
                | String c r2 =>
                    if (code c =? 58)%N then
                      match value f r2 with
                      | Some (v, r3) =>
                          match skip_ws r3 with
                          | String d r4 =>
                              if (code d =? 44)%N then members f r4 ((k, v) :: acc)
                              else if (code d =? 125)%N
                              then Some (JObj (rev ((k, v) :: acc)), r4)
                              else None
                          | EmptyString => None
                          end
                      | None => None
                      end
                    else None
                | EmptyString => None
                end
            | None => None
            end
          else None
      | EmptyString => None
      end
  end.

(** [JSON.parse(text)]: [None] when it throws [SyntaxError].  Every call
    above consumes a character before it recurses twice, so twice the
    length of the text is fuel enough. *)
Definition parse (text : string) : option json :=
  match value (2 * String.length text + 2) text with
  | Some (v, r) =>
      match skip_ws r with
      | EmptyString => Some v
      | String _ _ => None
      end
  | None => None
  end.

End JsonParse.

(** ** [processSSEEvent]  ([billing/page.tsx]) *)

(** The object passed to [queueEvent] for one element of [update.events]:
    the fields as they were parsed.  [now] is [new Date().toISOString()]. *)
Definition event_of_json (now : string) (event : json) : StageEvent :=
  {| ev_event_type := Json.get "event_type" event;
     ev_thought_id := Json.get "thought_id" event;
     ev_task_id := Json.get "task_id" event;
     ev_data := event;
     ev_timestamp := Value.or_else (Json.get "timestamp" event) (JStr now) |}.

(** One turn of [for (const event of update.events)]: reading a field of
    [null] throws. *)
Definition queue_one (now : string) (event : json) (s : App) : App * completion :=
  match event with
  | JNull => (s, Some "TypeError")
  | _ => (queueEvent (event_of_json now event) s, None)
  end.

(** The statements inside [try { ... }]. *)
Definition step_update_body (now data : string) (s : App) : App * completion :=
  match JsonParse.parse data with
  | None => (s, Some "SyntaxError")
  | Some JNull => (s, Some "TypeError")
  | Some update =>
      match Json.get "events" update with
      | Some (JArr events) => for_of (queue_one now) events s
      | _ => (s, None)
      end
  end.

Definition processSSEEvent (now type data : string) (s : App) : App * completion :=
  if String.eqb type "step_update" then
    try_catch (step_update_body now data) (λ _ s', (s', None)) s
  else (s, None).

(** ** [TextDecoder] in streaming mode *)

Module Utf8.

(** The decoder between two [decode(value, {stream: true})] calls: the
    bytes of a character begun but not finished, how many more it needs,
    the range allowed for the next byte, and whether the first character
    has been passed (a leading byte-order mark is dropped). *)
Record state : Type := mkState {
  held : list ascii;
  needed : nat;
  lower : N;
  upper : N;
  bom_seen : bool }.

Definition init : state :=
  {| held := []; needed := 0; lower := 128; upper := 191; bom_seen := false |}.

Definition replacement : list ascii :=
  [ascii_of_N 239; ascii_of_N 191; ascii_of_N 189].

Definition bom : list ascii :=
  [ascii_of_N 239; ascii_of_N 187; ascii_of_N 191].

(** Hand one decoded character (its bytes) to the output. *)
Definition emit (bseen : bool) (ch : list ascii) : state * list ascii :=
  ({| held := []; needed := 0; lower := 128; upper := 191; bom_seen := true |},
   if negb bseen && bool_decide (ch = bom) then [] else ch).

Definition expect (bseen : bool) (b : ascii) (n : nat) (lo hi : N) : state * list ascii :=
  ({| held := [b]; needed := n; lower := lo; upper := hi; bom_seen := bseen |}, []).

(** A byte that arrives when no character is in progress. *)
Definition lead (bseen : bool) (b : ascii) : state * list ascii :=
  let n := N_of_ascii b in
  if (n <=? 127)%N then emit bseen [b]
  else if (194 <=? n)%N && (n <=? 223)%N then expect bseen b 1 128 191
  else if (224 <=? n)%N && (n <=? 239)%N then
    expect bseen b 2 (if (n =? 224)%N then 160 else 128)%N
                     (if (n =? 237)%N then 159 else 191)%N
  else if (240 <=? n)%N && (n <=? 244)%N then
    expect bseen b 3 (if (n =? 240)%N then 144 else 128)%N
                     (if (n =? 244)%N then 143 else 191)%N
  else emit bseen replacement.

Definition step (st : state) (b : ascii) : state * list ascii :=
  let n := N_of_ascii b in
  match needed st with
  | O => lead (bom_seen st) b
  | S k =>
      if (lower st <=? n)%N && (n <=? upper st)%N then
        match k with
        | O => emit (bom_seen st) (held st ++ [b])
        | S _ =>
            ({| held := held st ++ [b]; needed := k; lower := 128; upper := 191;
                bom_seen := bom_seen st |}, [])
        end
      else
        (* the unfinished character is replaced, the byte is read again *)
        let '(st1, out1) := emit (bom_seen st) replacement in
        let '(st2, out2) := lead (bom_seen st1) b in
        (st2, out1 ++ out2)
  end.

(** [decoder.decode(value, { stream: true })] *)
Fixpoint decode (st : state) (bytes : list ascii) : state * list ascii :=
  match bytes with
  | [] => (st, [])
  | b :: rest =>
      let '(st1, out1) := step st b in
      let '(st2, out2) := decode st1 rest in
      (st2, out1 ++ out2)
  end.

End Utf8.

(** ** Line handling of the stream readers *)

Module Text.

Definition newline : ascii := ascii_of_N 10.

(** [s.split("\n")] *)
Fixpoint split (s : string) : list string :=
  match s with
  | EmptyString => [EmptyString]
  | String c r =>
      if Ascii.eqb c newline then EmptyString :: split r
      else
        match split r with
        | first :: more => String c first :: more
        | [] => [String c EmptyString]
        end
  end.

(** White space and line terminators of [trim], in UTF-8: the length in
    bytes of the white-space character at the front of [s], if any. *)
Definition ws_prefix (s : string) : option nat :=
  match List.map N_of_ascii (list_ascii_of_string s) with
  | (9 | 10 | 11 | 12 | 13 | 32)%N :: _ => Some 1
  | 194%N :: 160%N :: _ => Some 2
  | 225%N :: 154%N :: 128%N :: _ => Some 3
  | 226%N :: 128%N :: c :: _ =>
      if ((128 <=? c) && (c <=? 138) || (c =? 168) || (c =? 169) || (c =? 175))%N
      then Some 3 else None
  | 226%N :: 129%N :: 159%N :: _ => Some 3
  | 227%N :: 128%N :: 128%N :: _ => Some 3
  | 239%N :: 187%N :: 191%N :: _ => Some 3
  | _ => None
  end.

(** [s.trimStart()]; the fuel is the length of [s]. *)
Fixpoint trimStart_fuel (fuel : nat) (s : string) : string :=
  match fuel with
  | O => s
  | S f =>
      match ws_prefix s with
      | Some n => trimStart_fuel f (JS.slice n s)
      | None => s
      end
  end.

Definition trimStart (s : string) : string := trimStart_fuel (String.length s) s.

(** [s.trimEnd()] *)
Fixpoint trimEnd (s : string) : string :=
  match s with
  | EmptyString => EmptyString
  | String c r =>
      match trimStart s with
      | EmptyString => EmptyString
      | _ => String c (trimEnd r)
      end
  end.

(** [s.trim()] *)
Definition trim (s : string) : string := trimEnd (trimStart s).

End Text.

(** ** [connectStream] of the interact page  ([billing/page.tsx]) *)

(** The locals of [connectStream] next to the application state.  [records]
    is a ghost list: the arguments of every [processSSEEvent] call made so
    far, oldest first. *)
Record Conn : Type := mkConn {
  decoder : Utf8.state;
  buffer : string;
  eventType : string;
  eventData : string;
  ui : App;
  records : list (string * string) }.

Definition init_conn (s : App) : Conn :=
  {| decoder := Utf8.init; buffer := ""; eventType := ""; eventData := "";
     ui := s; records := [] |}.

(** [if (eventType && eventData) { processSSEEvent(eventType, eventData); }]:
    the call, when both are non-empty, logged in [records]. *)
Definition dispatch (now : string) (c : Conn) : Conn * completion :=
  if JS.truthy (eventType c) && JS.truthy (eventData c) then
    let '(s', k) := processSSEEvent now (eventType c) (eventData c) (ui c) in
    ({| decoder := decoder c; buffer := buffer c;
        eventType := eventType c; eventData := eventData c;
        ui := s';
        records := records c ++ [(eventType c, eventData c)] |}, k)
  else (c, None).

Definition set_fields (ty da : string) (c : Conn) : Conn :=
  {| decoder := decoder c; buffer := buffer c; eventType := ty; eventData := da;
     ui := ui c; records := records c |}.

(** The body of [for (const line of lines)]. *)
Definition process_line (now : string) (line : string) (c : Conn) : Conn * completion :=
  if JS.startsWith "event:" line then
    match dispatch now c with
    | (c1, None) => (set_fields (Text.trim (JS.slice 6 line)) "" c1, None)
    | (c1, Some e) => (c1, Some e)
    end
  else if JS.startsWith "data:" line then
    let newData := Text.trim (JS.slice 5 line) in
    (set_fields (eventType c)
       (if JS.truthy (eventData c) then eventData c +:+ String Text.newline newData
        else newData) c, None)
  else if String.eqb line "" then
    if JS.truthy (eventType c) && JS.truthy (eventData c) then
      match dispatch now c with
      | (c1, None) => (set_fields "" "" c1, None)
      | (c1, Some e) => (c1, Some e)
      end
    else (c, None)
  else (c, None).

(** One turn of [while (true)] after a read that delivered [value]. *)
Definition feed (now : string) (value : list ascii) (c : Conn) : Conn * completion :=
  let '(d, text) := Utf8.decode (decoder c) value in
  let lines := Text.split (buffer c +:+ string_of_list_ascii text) in
  let c1 :=
    {| decoder := d;
       buffer := List.last lines "";
       eventType := eventType c; eventData := eventData c;
       ui := ui c; records := records c |} in
  for_of (process_line now) (removelast lines) c1.

(** How the sequence of [reader.read()] results ends: [done], or a
    rejection with an error of the given name ([AbortError] after
    [abortController.abort()]). *)
Inductive stream_end : Type :=
| Done
| ReadFails (name : string).

Definition read_loop (now : string) (chunks : list (list ascii)) (fin : stream_end)
    (c : Conn) : Conn * completion :=
  match for_of (feed now) chunks c with
  | (c1, None) =>
      match fin with
      | Done => (c1, None)
      | ReadFails name => (c1, Some name)
      end
  | (c1, Some e) => (c1, Some e)
  end.

(** What [fetch] and the response give to [connectStream]. *)
Inductive fetch_result : Type :=
| FetchFails (name : string)
| Response (ok : bool) (body : option (list (list ascii) * stream_end)).

Definition set_connected (b : bool) (s : App) : App :=
  {| pending := pending s; timer := timer s; agg := agg s; sseConnected := b |}.

Definition with_ui (f : App → App) (c : Conn) : Conn :=
  {| decoder := decoder c; buffer := buffer c; eventType := eventType c;
     eventData := eventData c; ui := f (ui c); records := records c |}.

Definition connectStream (now : string) (r : fetch_result) (s : App) : Conn * completion :=
  try_catch
    (λ c,
       match r with
       | FetchFails name => (c, Some name)
       | Response false _ => (c, None)
       | Response true None => (with_ui (set_connected true) c, None)
       | Response true (Some (chunks, fin)) =>
           read_loop now chunks fin (with_ui (set_connected true) c)
       end)
    (λ name c,
       if String.eqb name "AbortError" then (c, None)
       else (with_ui (set_connected false) c, None))
    (init_conn s).

(** ** [connectStream] of the minimal interact page  ([app/page.tsx]) *)

Module Minimal.

Record Page : Type := mkPage {
  sseEvents : list (string * json);
  connected : bool }.

Record Conn : Type := mkConn {
  decoder : Utf8.state;
  buffer : string;
  page : Page }.

(** [setSseEvents(prev => [...prev.slice(-49), { timestamp, data }])] *)
Definition push (now : string) (data : json) (p : Page) : Page :=
  {| sseEvents := drop (length (sseEvents p) - 49) (sseEvents p) ++ [(now, data)];
     connected := connected p |}.

Definition process_line (now line : string) (c : Conn) : Conn * completion :=
  if JS.startsWith "data:" line then
    try_catch
      (λ c',
         match JsonParse.parse (Text.trim (JS.slice 5 line)) with
         | None => (c', Some "SyntaxError")
         | Some data =>
             ({| decoder := decoder c'; buffer := buffer c';
                 page := push now data (page c') |}, None)
         end)
      (λ _ c', (c', None))
      c
  else (c, None).

Definition feed (now : string) (value : list ascii) (c : Conn) : Conn * completion :=
  let '(d, text) := Utf8.decode (decoder c) value in
  let lines := Text.split (buffer c +:+ string_of_list_ascii text) in
  for_of (process_line now) (removelast lines)
    {| decoder := d; buffer := List.last lines ""; page := page c |}.

End Minimal.

(** ** Decimal numerals: [n.toString()] and [parseInt(s, 10)] *)

Module Num.

(** [n.toString()] for a non-negative integer. *)
Definition toString (n : N) : string := NilEmpty.string_of_uint (N.to_uint n).

(** The value of the longest prefix of decimal digits, continuing [acc]. *)
Fixpoint digits_val (acc : N) (s : string) : N :=
  match s with
  | String c r =>
      if JsonParse.is_digit c then digits_val (10 * acc + (JsonParse.code c - 48))%N r
      else acc
  | EmptyString => acc
  end.

Definition starts_with_digit (s : string) : bool :=
  match s with
  | String c _ => JsonParse.is_digit c
  | EmptyString => false
  end.

(** [parseInt(s, 10)]; [None] is [NaN]. *)
Definition parseInt (s : string) : option Z :=
  let s1 := Text.trimStart s in
  let '(neg, s2) :=
    match s1 with
    | String c r =>
        if (JsonParse.code c =? 45)%N then (true, r)
        else if (JsonParse.code c =? 43)%N then (false, r)
        else (false, s1)
    | EmptyString => (false, s1)
    end in
  if starts_with_digit s2 then
    let v := Z.of_N (digits_val 0 s2) in
    Some (if neg then (- v)%Z else v)
  else None.

End Num.

(** ** Native-auth session restore and the setup redirect
       ([contexts/AuthContext.tsx]) *)

Module Auth.

Record User : Type := mkUser {
  user_id : string;
  username : string;
  role : string;
  api_role : string;
  permissions : list string;
  created_at : string }.

(** Browser and React state touched by the provider.  [navigations]
    lists the assignments to [window.location.href]; [sdk_config] is the
    last [sdkConfigManager.configure(agent, token?)]. *)
Record World : Type := mkWorld {
  localStorage : gmap string string;
  sessionStorage : gmap string string;
  pathname : string;
  navigations : list string;
  sdk_config : option (string * option string);
  user : option User;
  loading : bool }.

(** The answer of [fetch("/v1/setup/status")]: a rejected promise, or a
    response with its [ok] flag and the value of [response.json()]
    ([None] when that rejects). *)
Inductive setup_response : Type :=
| SetupFetchFails
| SetupResponse (ok : bool) (body : option json).

(** What the environment answers during one run of [checkNativeAuth]. *)
Record Env : Type := mkEnv {
  clock : N;                                 (* [Date.now()] at the guard *)
  redirect_clock : N;                        (* [Date.now()] in [doSetupRedirect] *)
  iso_date : string;                         (* [new Date().toISOString()] *)
  is_authenticated : bool;                   (* [cirisClient.isAuthenticated()] *)
  login_result : option (User * option string);
      (* [cirisClient.login] then [getAccessToken()]; [None]: login throws *)
  setup_status : setup_response }.

Definition set_local (k v : string) (w : World) : World :=
  {| localStorage := <[k := v]> (localStorage w);
     sessionStorage := sessionStorage w; pathname := pathname w;
     navigations := navigations w; sdk_config := sdk_config w;
     user := user w; loading := loading w |}.

Definition remove_local (k : string) (w : World) : World :=
  {| localStorage := delete k (localStorage w);
     sessionStorage := sessionStorage w; pathname := pathname w;
     navigations := navigations w; sdk_config := sdk_config w;
     user := user w; loading := loading w |}.

Definition set_session (k v : string) (w : World) : World :=
  {| localStorage := localStorage w;
     sessionStorage := <[k := v]> (sessionStorage w); pathname := pathname w;
     navigations := navigations w; sdk_config := sdk_config w;
     user := user w; loading := loading w |}.

Definition remove_session (k : string) (w : World) : World :=
  {| localStorage := localStorage w;
     sessionStorage := delete k (sessionStorage w); pathname := pathname w;
     navigations := navigations w; sdk_config := sdk_config w;
     user := user w; loading := loading w |}.

(** [window.location.href = url] *)
Definition navigate (url : string) (w : World) : World :=
  {| localStorage := localStorage w; sessionStorage := sessionStorage w;
     pathname := pathname w; navigations := navigations w ++ [url];
     sdk_config := sdk_config w; user := user w; loading := loading w |}.

Definition configure (agent : string) (token : option string) (w : World) : World :=
  {| localStorage := localStorage w; sessionStorage := sessionStorage w;
     pathname := pathname w; navigations := navigations w;
     sdk_config := Some (agent, token); user := user w; loading := loading w |}.

(** [setUser(u); setLoading(false)] *)
Definition signed_in (u : User) (w : World) : World :=
  {| localStorage := localStorage w; sessionStorage := sessionStorage w;
     pathname := pathname w; navigations := navigations w;
     sdk_config := sdk_config w; user := Some u; loading := false |}.

(** [item === "true"] on a storage read. *)
Definition is_true (o : option string) : bool :=
  bool_decide (o = Some "true").

Definition doSetupRedirect (t : N) (w : World) : World :=
  navigate "/setup"
    (set_session "ciris_last_redirect_time" (Num.toString t)
       (set_session "ciris_redirect_in_progress" "true" w)).

(** Truthiness of a parsed JSON value.  A number is falsy when all digits
    of its mantissa are zero (a literal so small that it rounds to zero is
    not told apart). *)
Fixpoint mantissa_nonzero (lexeme : string) : bool :=
  match lexeme with
  | String c r =>
      let n := JsonParse.code c in
      if (n =? 101)%N || (n =? 69)%N then false
      else ((49 <=? n)%N && (n <=? 57)%N) || mantissa_nonzero r
  | EmptyString => false
  end.

Definition truthy (v : option json) : bool :=
  match v with
  | None | Some JNull => false
  | Some (JBool b) => b
  | Some (JNum lexeme) => mantissa_nonzero lexeme
  | Some (JStr s) => JS.truthy s
  | Some (JArr _) | Some (JObj _) => true
  end.

(** [a || b || ...]: the first truthy operand, else the last one. *)
Fixpoint first_truthy (vs : list (option json)) : option json :=
  match vs with
  | [] => None
  | [v] => v
  | v :: rest => if truthy v then v else first_truthy rest
  end.

(** [v === false] and [v === true] *)
Definition is_false (v : option json) : bool :=
  match v with Some (JBool false) => true | _ => false end.

Definition is_true_value (v : option json) : bool :=
  match v with Some (JBool true) => true | _ => false end.

(** The decision taken from a parsed status body: [Some false] setup is
    complete, [Some true] setup is needed, [None] reading it threw. *)
Definition read_status (responseJson : json) : option bool :=
  match responseJson with
  | JNull => None
  | _ =>
      let data :=
        match Json.get "data" responseJson with
        | Some d => if truthy (Some d) then d else responseJson
        | None => responseJson
        end in
      let setupRequired := Json.get "setup_required" data in
      let isComplete :=
        first_truthy [Json.get "setup_complete" data; Json.get "is_complete" data;
                      Json.get "completed" data; Json.get "isComplete" data] in
      if is_false setupRequired || is_true_value isComplete
      then Some false
      else Some true
  end.

Definition checkSetupStatusFromAPI (env : Env) (w : World) : bool * World :=
  let localFlag := localStorage w !! "ciris_show_setup" in
  let fallback := (is_true localFlag, w) in
  match setup_status env with
  | SetupResponse true (Some responseJson) =>
      match read_status responseJson with
      | Some false => (false, set_local "ciris_show_setup" "false" w)
      | Some true => (true, w)
      | None => fallback
      end
  | _ => fallback
  end.

Definition llm_mode (authMethod : option string) : string :=
  if bool_decide (authMethod = Some "google") then "ciris_proxy" else "custom".

(** The block shared by the three sign-in paths:
    [if (showSetupFlag && !currentPath.startsWith("/setup")) { ... }]
    followed by [return true]; [clear_flag] is the extra
    [localStorage.setItem("ciris_show_setup", "false")] of the restore
    path. *)
Definition maybe_redirect (env : Env) (clear_flag : bool)
    (showSetupFlag : bool) (authMethod : option string) (w : World) : World :=
  if showSetupFlag && negb (JS.startsWith "/setup" (pathname w)) then
    let '(setupNeeded, w1) := checkSetupStatusFromAPI env w in
    if setupNeeded then
      doSetupRedirect (redirect_clock env)
        (set_local "ciris_native_llm_mode" (llm_mode authMethod) w1)
    else if clear_flag then set_local "ciris_show_setup" "false" w1
    else w1
  else w.

(** [JSON.parse(nativeAuthData)] followed by reads of its fields:
    [None] when the parse throws or the value is [null]. *)
Definition auth_data (nativeAuthData : string) : option json :=
  match JsonParse.parse nativeAuthData with
  | Some JNull | None => None
  | Some v => Some v
  end.

(** Is the loop guard closed?  [redirectInProgress ||
    now - lastRedirectTime < 5000]; a comparison with [NaN] is false. *)
Definition redirect_guard (now : N) (w : World) : bool :=
  let redirectInProgress := is_true (sessionStorage w !! "ciris_redirect_in_progress") in
  let lastRedirectTime :=
    Num.parseInt (JS.or_lit (sessionStorage w !! "ciris_last_redirect_time") "0") in
  redirectInProgress ||
  match lastRedirectTime with
  | Some t => (Z.of_N now - t <? 5000)%Z
  | None => false
  end.

Definition checkNativeAuth (env : Env) (w : World) : bool * World :=
  let isNativeApp := is_true (localStorage w !! "isNativeApp") in
  let nativeAuthData := localStorage w !! "ciris_native_auth" in
  let authMethod := localStorage w !! "ciris_auth_method" in
  let showSetupFlag := is_true (localStorage w !! "ciris_show_setup") in
  let injectedToken :=
    JS.or_else (localStorage w !! "ciris_access_token") (localStorage w !! "access_token") in
  let hasInjectedToken := JS.truthy_opt injectedToken in
  if redirect_guard (clock env) w then (true, w)
  else if negb isNativeApp || negb (JS.truthy_opt nativeAuthData) then (false, w)
  else
    let raw := default "" nativeAuthData in
    let nativeAuthComplete := is_true (localStorage w !! "ciris_native_auth_complete") in
    let savedToken := localStorage w !! "ciris_native_auth_token" in
    let tokenToUse := JS.or_else injectedToken savedToken in
    (* the restore branch; [inl] is its [return true], [inr] falls through *)
    let restored : World + World :=
      if (nativeAuthComplete || hasInjectedToken) && JS.truthy_opt tokenToUse then
        let w1 := configure "datum" tokenToUse (set_local "selectedAgentId" "datum" w) in
        let w2 :=
          if hasInjectedToken then
            set_local "ciris_native_auth_complete" "true"
              (set_local "ciris_native_auth_token" (default "" injectedToken) w1)
          else w1 in
        match auth_data raw with
        | Some authData =>
            let restoredUser :=
              {| user_id := JS.or_lit (Json.get_string "googleUserId" authData) "admin";
                 username :=
                   JS.or_lit
                     (JS.or_else (Json.get_string "displayName" authData)
                                 (Json.get_string "email" authData)) "admin";
                 role := "SYSTEM_ADMIN";
                 api_role := "ADMIN";
                 permissions := ["read"; "write"; "admin"];
                 created_at := iso_date env |} in
            inl (maybe_redirect env true showSetupFlag authMethod
                   (signed_in restoredUser w2))
        | None =>
            inr (remove_local "ciris_native_auth_token"
                   (remove_local "ciris_native_auth_complete" w2))
        end
      else inr w in
    match restored with
    | inl w' => (true, w')
    | inr w3 =>
        if is_authenticated env then (true, w3)
        else
          match JsonParse.parse raw with
          | None => (false, w3)
          | Some authData =>
              let w4 := configure "datum" None (set_local "selectedAgentId" "datum" w3) in
              match login_result env with
              | Some (u, token) =>
                  let w5 :=
                    if JS.truthy_opt token then
                      set_local "ciris_native_auth_complete" "true"
                        (set_local "ciris_native_auth_token" (default "" token)
                           (configure "datum" token w4))
                    else w4 in
                  (true, maybe_redirect env false showSetupFlag authMethod (signed_in u w5))
              | None =>
                  match authData with
                  | JNull => (false, w4)
                  | _ =>
                      let mockUser :=
                        {| user_id :=
                             JS.or_lit (Json.get_string "googleUserId" authData) "native_user";
                           username :=
                             JS.or_lit (Json.get_string "displayName" authData) "Native User";
                           role := "ADMIN";
                           api_role := "ADMIN";
                           permissions := ["read"; "write"; "admin"];
                           created_at := iso_date env |} in
                      (true,
                       maybe_redirect env false showSetupFlag authMethod
                         (set_local "ciris_native_auth_complete" "true"
                            (signed_in mockUser w4)))
                  end
              end
          end
    end.

(** The setup page's mount effect ([setup/page.tsx]): the redirect lock
    and the event marker are cleared once the page has been reached. *)
Definition setup_page_mounted (w : World) : World :=
  remove_session "ciris_native_auth_event_handled"
    (remove_session "ciris_redirect_in_progress" w).

(** [roleHierarchy.indexOf(r)] *)
Fixpoint indexOf (r : string) (l : list string) (i : Z) : Z :=
  match l with
  | [] => (-1)%Z
  | x :: rest => if String.eqb x r then i else indexOf r rest (i + 1)%Z
  end.

Definition roleHierarchy : list string :=
  ["OBSERVER"; "ADMIN"; "AUTHORITY"; "SYSTEM_ADMIN"].

Definition hasRole (user : option User) (required : string) : bool :=
  match user with
  | None => false
  | Some u =>
      let userRoleIndex := indexOf (role u) roleHierarchy 0 in
      let requiredRoleIndex := indexOf required roleHierarchy 0 in
      (requiredRoleIndex <=? userRoleIndex)%Z
  end.

End Auth.

(** ** Proxy client  ([lib/ciris-proxy.ts]) *)

Module Proxy.

Record ChatMessage : Type := mkMessage {
  role : string;
  content : string }.

(** [metadata?: { interaction_id: string; [key: string]: any }] *)
Record Metadata : Type := mkMetadata {
  interaction_id : string;
  others : gmap string json }.

(** [temperature] is kept as the numeral the caller wrote. *)
Record ChatRequest : Type := mkRequest {
  model : option string;
  messages : list ChatMessage;
  temperature : option string;
  max_tokens : option N;
  stream : option bool;
  metadata : option Metadata }.

(** [`int_${Date.now()}_${Math.random().toString(36).substring(2, 11)}`];
    [rand] is the text the random part evaluates to. *)
Definition generateInteractionId (now : N) (rand : string) : string :=
  "int_" +:+ Num.toString now +:+ "_" +:+ rand.

Definition set_metadata (m : Metadata) (r : ChatRequest) : ChatRequest :=
  {| model := model r; messages := messages r; temperature := temperature r;
     max_tokens := max_tokens r; stream := stream r; metadata := Some m |}.

(** [if (!request.metadata?.interaction_id) request.metadata =
      { ...request.metadata, interaction_id: generateInteractionId() }] *)
Definition ensure_interaction_id (now : N) (rand : string) (r : ChatRequest)
  : ChatRequest :=
  if negb (JS.truthy_opt (interaction_id <$> metadata r)) then
    set_metadata
      {| interaction_id := generateInteractionId now rand;
         others := match metadata r with Some m => others m | None => ∅ end |}
      r
  else r.

Record Client : Type := mkClient {
  googleUserId : string;
  baseUrl : string }.

Definition PROXY_BASE_URL : string := "https://llm.ciris.ai".

Definition createProxyClient (id : string) : Client :=
  {| googleUserId := id; baseUrl := PROXY_BASE_URL |}.

Definition getAuthHeader (c : Client) : string :=
  "Bearer google:" +:+ googleUserId c.

(** One [fetch] call; [body] is the object handed to [JSON.stringify]. *)
Record Fetch : Type := mkFetch {
  url : string;
  method : string;
  headers : list (string * string);
  body : ChatRequest }.

Definition post (c : Client) (payload : ChatRequest) : Fetch :=
  {| url := baseUrl c +:+ "/v1/chat/completions";
     method := "POST";
     headers := [("Content-Type", "application/json");
                 ("Authorization", getAuthHeader c)];
     body := payload |}.

(** The request [chat] sends. *)
Definition chat (c : Client) (now : N) (rand : string) (request : ChatRequest) : Fetch :=
  post c (ensure_interaction_id now rand request).

(** The request [chatStream] sends: [{ ...request, stream: true }]. *)
Definition chatStream (c : Client) (now : N) (rand : string) (request : ChatRequest)
  : Fetch :=
  let r := ensure_interaction_id now rand request in
  post c {| model := model r; messages := messages r; temperature := temperature r;
            max_tokens := max_tokens r; stream := Some true; metadata := metadata r |}.

End Proxy.

(** * Further parts of the sources *)

(** ** [chatStream]: the reader of the proxy's streamed answer
       ([lib/ciris-proxy.ts]) *)

Module ProxyStream.

(** The locals of the generator's read loop, the chunks yielded so far
    (oldest first), and whether the generator has returned at [[DONE]]. *)
Record Reader : Type := mkReader {
  decoder : Utf8.state;
  buffer : string;
  yielded : list json;
  finished : bool }.

Definition init : Reader :=
  {| decoder := Utf8.init; buffer := ""; yielded := []; finished := false |}.

(** The body of [for (const line of lines)]; once the generator has
    returned, no further line is looked at. *)
Definition process_line (r : Reader) (line : string) : Reader :=
  if finished r then r
  else if JS.startsWith "data: " line then
    let data := Text.trim (JS.slice 6 line) in
    if String.eqb data "[DONE]" then
      {| decoder := decoder r; buffer := buffer r; yielded := yielded r;
         finished := true |}
    else
      match JsonParse.parse data with
      | Some chunk =>
          {| decoder := decoder r; buffer := buffer r;
             yielded := yielded r ++ [chunk]; finished := false |}
      | None => r
      end
  else r.

(** One turn of [while (true)] after a read that delivered [value]. *)
Definition feed (r : Reader) (value : list ascii) : Reader :=
  if finished r then r
  else
    let '(d, text) := Utf8.decode (decoder r) value in
    let lines := Text.split (buffer r +:+ string_of_list_ascii text) in
    fold_left process_line (removelast lines)
      {| decoder := d; buffer := List.last lines ""; yielded := yielded r;
         finished := false |}.

(** The reads until [done]. *)
Definition read_loop (chunks : list (list ascii)) (r : Reader) : Reader :=
  fold_left feed chunks r.

(** The answer to the [fetch]: [response.ok], [response.status], the text
    of an error answer, and the reads of the body ([None]: no body). *)
Record Response : Type := mkResponse {
  ok : bool;
  status : N;
  error_text : string;
  body : option (list (list ascii)) }.

(** What a consumer that drains the generator sees: the chunks yielded,
    and how the generator ends. *)
Definition chatStream_run (resp : Response) : list json * completion :=
  if negb (ok resp) then
    ([], Some ("CIRIS Proxy error: " +:+ Num.toString (status resp) +:+ " - "
               +:+ error_text resp))
  else
    match body resp with
    | None => ([], Some "No response body")
    | Some chunks => (yielded (read_loop chunks init), None)
    end.

End ProxyStream.

(** ** [CreditBalance]  ([billing/page.tsx]) *)

Module Billing.

(** The credit counts are whole numbers. *)
Record CreditStatus : Type := mkCredits {
  has_credit : bool;
  credits_remaining : Z;
  free_uses_remaining : Z;
  total_uses : Z;
  plan_name : string;
  purchase_required : bool }.

(** [`${n}`] for a whole number. *)
Definition show (n : Z) : string :=
  match n with
  | Z0 => "0"
  | Zpos p => Num.toString (Npos p)
  | Zneg p => "-" +:+ Num.toString (Npos p)
  end.

(** What [CreditBalance] renders for a loaded status: the icon, the
    headline, its colour classes, the captions under it in order, whether
    the Purchase button is drawn and whether a click on the card calls
    [onPurchaseClick]. *)
Record BalanceView : Type := mkView {
  icon : string;
  colorClass : string;
  message : string;
  captions : list string;
  purchase_button : bool;
  click_purchases : bool }.

Definition isFree (c : CreditStatus) : bool := (0 <? free_uses_remaining c)%Z.

Definition isLow (c : CreditStatus) : bool :=
  (credits_remaining c <? 5)%Z && (free_uses_remaining c =? 0)%Z.

Definition isEmpty (c : CreditStatus) : bool := negb (has_credit c).

Definition CreditBalance (c : CreditStatus) : BalanceView :=
  let '(ic, color, msg) :=
    if isFree c then
      ("🎁",
       if (free_uses_remaining c =? 1)%Z
       then "text-orange-600 bg-orange-50 border-orange-200"
       else "text-green-600 bg-green-50 border-green-200",
       show (free_uses_remaining c) +:+ " free tries remaining")
    else if isEmpty c then
      ("💳", "text-red-600 bg-red-50 border-red-200", "0 credits remaining")
    else if isLow c then
      ("⚠️", "text-orange-600 bg-orange-50 border-orange-200",
       show (credits_remaining c) +:+ " credits remaining")
    else
      ("💵", "text-blue-600 bg-blue-50 border-blue-200",
       show (credits_remaining c) +:+ " credits remaining") in
  {| icon := ic;
     colorClass := color;
     message := msg;
     captions :=
       (if isFree c then ["Try CIRIS for free! No credit card required."] else []) ++
       (if isEmpty c then ["Purchase more uses to continue"] else []) ++
       (if isLow c && negb (isFree c)
        then ["Running low! Purchase more to avoid interruptions"] else []) ++
       (if negb (isEmpty c) && negb (isLow c) && negb (isFree c)
        then ["Click to purchase more"] else []);
     purchase_button := isEmpty c || isLow c;
     click_purchases := isEmpty c || isLow c |}.

End Billing.

(** ** The rest of the auth provider  ([contexts/AuthContext.tsx]) *)

Module AuthMount.

(** [hasPermission] *)
Definition hasPermission (user : option Auth.User) (permission : string) : bool :=
  match user with
  | None => false
  | Some u =>
      bool_decide (permission ∈ Auth.permissions u)
      || String.eqb (Auth.role u) "SYSTEM_ADMIN"
  end.

(** [handleNativeAuthReady]: the listener for [ciris_native_auth_ready]. *)
Definition handleNativeAuthReady (env : Auth.Env) (w : Auth.World) : Auth.World :=
  if Auth.is_true (Auth.sessionStorage w !! "ciris_native_auth_event_handled") then w
  else
    (Auth.checkNativeAuth env
       (Auth.set_session "ciris_native_auth_event_handled" "true" w)).2.

(** [checkAuth]; [authenticated] is [cirisClient.isAuthenticated()] and
    [me] the answer of [cirisClient.auth.getMe()] ([None]: it throws). *)
Definition checkAuth (authenticated : bool) (me : option Auth.User) (w : Auth.World)
  : Auth.World :=
  let w1 :=
    if authenticated then
      match me with
      | Some u =>
          {| Auth.localStorage := Auth.localStorage w;
             Auth.sessionStorage := Auth.sessionStorage w;
             Auth.pathname := Auth.pathname w;
             Auth.navigations := Auth.navigations w;
             Auth.sdk_config := Auth.sdk_config w;
             Auth.user := Some u; Auth.loading := Auth.loading w |}
      | None => w
      end
    else w in
  {| Auth.localStorage := Auth.localStorage w1;
     Auth.sessionStorage := Auth.sessionStorage w1;
     Auth.pathname := Auth.pathname w1;
     Auth.navigations := Auth.navigations w1;
     Auth.sdk_config := Auth.sdk_config w1;
     Auth.user := Auth.user w1; Auth.loading := false |}.

(** What the environment answers during the mount effect. *)
Record Env : Type := mkEnv {
  native : Auth.Env;
  authenticated : bool;
  me : option Auth.User }.

(** The mount effect of the provider, up to the registration of the
    listener: the auth check, and the manager token taken from
    [localStorage]. *)
Definition mount (env : Env) (w : Auth.World) : Auth.World * option string :=
  let w' :=
    if String.eqb (Auth.pathname w) "/login"
       || JS.startsWith "/manager" (Auth.pathname w)
    then
      {| Auth.localStorage := Auth.localStorage w;
         Auth.sessionStorage := Auth.sessionStorage w;
         Auth.pathname := Auth.pathname w;
         Auth.navigations := Auth.navigations w;
         Auth.sdk_config := Auth.sdk_config w;
         Auth.user := Auth.user w; Auth.loading := false |}
    else
      let '(hasNativeAuth, w1) := Auth.checkNativeAuth (native env) w in
      if hasNativeAuth then w1 else checkAuth (authenticated env) (me env) w1 in
  (w', if JS.truthy_opt (Auth.localStorage w !! "manager_token")
       then Auth.localStorage w !! "manager_token" else None).

End AuthMount.

(** * Notions used in the statements *)

(** ** Aggregator *)

(** Events that pass [if (!thought_id || !task_id) continue]. *)
Definition accepted (e : StageEvent) : bool :=
  Value.truthy (ev_thought_id e) && Value.truthy (ev_task_id e).

(** The key under which [newTasks.get] can find the task of an event:
    there is one when the task id is a string. *)
Definition key_of_event (e : StageEvent) : option key :=
  match ev_task_id e with
  | Some (JStr s) => Some (inl s)
  | _ => None
  end.

(** The event has the given thought id, up to [===]. *)
Definition for_thought (hid : json) (e : StageEvent) : bool :=
  match ev_thought_id e with
  | Some h => Value.strict_eq h hid
  | None => false
  end.

(** The thought [find] returns for [hid]. *)
Definition thought_at (ths : list TrackedThought) (hid : json) : option TrackedThought :=
  snd <$> list_find (λ t, Value.strict_eq (thoughtId t) hid = true) ths.

(** The stage update of one event on the thought it names. *)
Definition upd_stage (e : StageEvent) (th : TrackedThought) : TrackedThought :=
  match known_stage (ev_event_type e) with
  | Some name => set_stage name e th
  | None => th
  end.

(** The state in which the loop of the updater ends, normally or not. *)
Definition loop (events : list StageEvent) (a : Aggregator) : Aggregator :=
  (for_of step events a).1.

(** The updater returns: its loop runs to the end of the batch. *)
Definition returns (events : list StageEvent) (a : Aggregator) : Prop :=
  (for_of step events a).2 = None.


(** A value that [===] compares by value. *)
Definition primitive (v : json) : bool :=
  match v with JArr _ | JObj _ => false | _ => true end.


(** A sequence of flushes. *)
Definition apply_batches (batches : list (list StageEvent)) (a : Aggregator) : Aggregator :=
  fold_left (λ a' b, apply_batch b a') batches a.

(** The event whose arrival creates the task [tid]: the first accepted
    event of the batch that names it. *)
Definition creating_event (tid : string) (batch : list StageEvent) : option StageEvent :=
  List.find (λ e, accepted e && Value.is_string tid (ev_task_id e)) batch.

(** The description in the words of the specification: that of the
    earliest event for the task that carries a description. *)
Definition first_carried_description (tid : string) (batch : list StageEvent) : json :=
  match List.find
          (λ e, accepted e && Value.is_string tid (ev_task_id e) &&
                Value.truthy (Json.get "task_description" (ev_data e)))
          batch with
  | Some e => Value.or_else (Json.get "task_description" (ev_data e)) (JStr "")
  | None => JStr ""
  end.



(** The stage stored under [name] for thought [hid] of task [tid]. *)
Definition stage_at (a : Aggregator) (tid : string) (hid : json) (name : string)
  : option ThoughtStage :=
  task_of a tid ≫= λ t, thought_at (thoughts t) hid ≫= λ th, stages th !! name.





(** The task the current snapshot shows under a key. *)
Definition task_at (a : Aggregator) (k : key) : option TrackedTask :=
  view (heap a) (tasks a) k.

(** The ids of an event that passed the test of the loop. *)
Definition thought_id_of (e : StageEvent) : json := default JNull (ev_thought_id e).

Definition task_id_of (e : StageEvent) : json := default JNull (ev_task_id e).

(** A task object can be built for the event and announced: [data] is
    not [null] and the task id has [slice]. *)
Definition creatable (e : StageEvent) : bool :=
  match ev_data e with
  | JNull => false
  | _ => Value.has_slice (task_id_of e)
  end.

(** The turn of the loop for the event gets as far as the task object:
    the event is accepted, and its task exists or can be created. *)
Definition reaches (e : StageEvent) (a : Aggregator) : bool :=
  accepted e && (bool_decide (is_Some (get_task (task_id_of e) a)) || creatable e).

(** The key under which a new task is stored. *)
Definition new_key (task_id : json) (a : Aggregator) : key :=
  match task_id with
  | JStr s => inl s
  | _ => inr (length (heap a))
  end.

(** How the turn of the loop ends once it has reached the task object. *)
Definition outcome (e : StageEvent) : completion :=
  if terminal_action e is None then Some "TypeError" else None.

(** What the turn of the loop for [e] writes into the task object [t]. *)
Definition touched (e : StageEvent) (t : TrackedTask) : TrackedTask :=
  touch e (thought_id_of e) t.

(** The state after the turn of the loop for one event, however the turn
    ends. *)
Definition apply_event (a : Aggregator) (e : StageEvent) : Aggregator := (step e a).1.

(** The state after the turns for a list of events, were none of them to
    end the loop. *)
Definition effects (events : list StageEvent) (a : Aggregator) : Aggregator :=
  fold_left apply_event events a.

(** The events of a batch for which the loop makes a turn: all of them,
    or those up to the first one whose turn throws. *)
Fixpoint executed (events : list StageEvent) (a : Aggregator) : list StageEvent :=
  match events with
  | [] => []
  | e :: rest =>
      match step e a with
      | (a', None) => e :: executed rest a'
      | (_, Some _) => [e]
      end
  end.

(** The thought ids of a task, in the order of its [thoughts] array. *)
Definition thought_ids (t : TrackedTask) : list json := thoughtId <$> thoughts t.

(** A later state of a task object: same id, description and first time
    stamp; completed if it was; the thoughts it had, in their places, with
    the stage names they had, and possibly more. *)
Definition grows (t t' : TrackedTask) : Prop :=
  taskId t' = taskId t ∧ description t' = description t ∧
  firstTimestamp t' = firstTimestamp t ∧
  (completed t = true → completed t' = true) ∧
  thought_ids t `prefix_of` thought_ids t' ∧
  (∀ hid th, thought_at (thoughts t) hid = Some th →
     ∃ th', thought_at (thoughts t') hid = Some th' ∧
            dom (stages th) ⊆ dom (stages th')).

(** No two of the ids are equal under [===]. *)
Definition distinct (ids : list json) : Prop :=
  ∀ i j x y, ids !! i = Some x → ids !! j = Some y →
             Value.strict_eq x y = true → i = j.

(** The state is well formed, no task is stored under the empty string,
    and in every task object the thought ids are distinct and truthy. *)
Definition tidy (a : Aggregator) : Prop :=
  wf a ∧
  (∀ s l, tasks a !! (inl s : key) = Some l → s ≠ "") ∧
  Forall (λ t, distinct (thought_ids t) ∧
               Forall (λ v, Value.truthy (Some v) = true) (thought_ids t)) (heap a).

(** The last accepted event of a batch that writes the stage [name] of
    thought [hid] of task [tid]. *)
Definition last_writer (tid : string) (hid : json) (name : string)
    (batch : list StageEvent) : option StageEvent :=
  List.find
    (λ e, accepted e && Value.is_string tid (ev_task_id e) && for_thought hid e
          && bool_decide (known_stage (ev_event_type e) = Some name))
    (rev batch).

(** [queueEvent] for each event of a list, in order. *)
Definition enqueue_all (events : list StageEvent) (s : App) : App :=
  fold_left (λ s' e, queueEvent e s') events s.

(** The elements of [update.events] in front of the first [null]. *)
Fixpoint until_null (events : list json) : list json :=
  match events with
  | [] => []
  | JNull :: _ => []
  | ev :: rest => ev :: until_null rest
  end.

(** ** Stream reader *)

(** The fields of a connection that the line loop neither reads nor
    writes, replaced. *)
Definition rebuf (d : Utf8.state) (b : string) (c : Conn) : Conn :=
  {| decoder := d; buffer := b; eventType := eventType c; eventData := eventData c;
     ui := ui c; records := records c |}.

(** The line loop, without its completion (always normal). *)
Definition run_lines (now : string) (lines : list string) (c : Conn) : Conn :=
  fold_left (λ c' line, (process_line now line c').1) lines c.

(** ** Redirect guard, proxy client, numerals *)

(** A run that redirected: one more navigation, to the setup flow, with the
    lock and the time stamp written. *)
Definition redirected (t : N) (w w' : Auth.World) : Prop :=
  Auth.navigations w' = Auth.navigations w ++ ["/setup"] ∧
  Auth.sessionStorage w' !! "ciris_redirect_in_progress" = Some "true" ∧
  Auth.sessionStorage w' !! "ciris_last_redirect_time" = Some (Num.toString t).

(** What a sent request owes to the request the caller passed: a non-empty
    [interaction_id]; the caller's metadata as it was when it carried a
    non-empty id, else a generated id next to the caller's other metadata
    fields; every other field as passed ([stream] is never touched by
    [chat] and forced to [true] by [chatStream]). *)
Definition tagged_for_billing (now : N) (rand : string) (streaming : bool)
    (request sent : Proxy.ChatRequest) : Prop :=
  (∃ m, Proxy.metadata sent = Some m ∧ Proxy.interaction_id m ≠ "" ∧
        match Proxy.metadata request with
        | Some m0 =>
            Proxy.others m = Proxy.others m0 ∧
            if JS.truthy (Proxy.interaction_id m0) then m = m0
            else Proxy.interaction_id m = Proxy.generateInteractionId now rand
        | None =>
            Proxy.others m = ∅ ∧
            Proxy.interaction_id m = Proxy.generateInteractionId now rand
        end) ∧
  Proxy.model sent = Proxy.model request ∧
  Proxy.messages sent = Proxy.messages request ∧
  Proxy.temperature sent = Proxy.temperature request ∧
  Proxy.max_tokens sent = Proxy.max_tokens request ∧
  Proxy.stream sent = (if streaming then Some true else Proxy.stream request).

(** The value of a digit list read from the left, continuing [acc]. *)
Fixpoint uint_val (acc : N) (d : Decimal.uint) : N :=
  match d with
  | Decimal.Nil => acc
  | Decimal.D0 d => uint_val (10 * acc + 0) d
  | Decimal.D1 d => uint_val (10 * acc + 1) d
  | Decimal.D2 d => uint_val (10 * acc + 2) d
  | Decimal.D3 d => uint_val (10 * acc + 3) d
  | Decimal.D4 d => uint_val (10 * acc + 4) d
  | Decimal.D5 d => uint_val (10 * acc + 5) d
  | Decimal.D6 d => uint_val (10 * acc + 6) d
  | Decimal.D7 d => uint_val (10 * acc + 7) d
  | Decimal.D8 d => uint_val (10 * acc + 8) d
  | Decimal.D9 d => uint_val (10 * acc + 9) d
  end.

(** ** Further notions: stream readers *)

(** The text holds no line feed. *)
Definition no_newline (s : string) : Prop :=
  Text.newline ∉ list_ascii_of_string s.

(** The interact page's reads, without the completion (always normal). *)
Definition run_chunks (now : string) (chunks : list (list ascii)) (c : Conn) : Conn :=
  fold_left (λ c' v, (feed now v c').1) chunks c.

(** The last [k] elements of a list. *)
Definition keep_last {A : Type} (k : nat) (l : list A) : list A :=
  drop (length l - k) l.

(** The entry the minimal page adds for a line: one for a [data:] line
    whose text parses, none otherwise. *)
Definition arrival (now line : string) : option (string * json) :=
  if JS.startsWith "data:" line
  then (λ d, (now, d)) <$> JsonParse.parse (Text.trim (JS.slice 5 line))
  else None.

Definition arrivals (now : string) (lines : list string) : list (string * json) :=
  omap (arrival now) lines.

(** Two states of the proxy's reader that a consumer cannot tell apart:
    the same chunks yielded, both returned or neither; and the same state
    altogether while the generator runs. *)
Definition alike (r r' : ProxyStream.Reader) : Prop :=
  ProxyStream.yielded r = ProxyStream.yielded r' ∧
  ProxyStream.finished r = ProxyStream.finished r' ∧
  (ProxyStream.finished r = false → r = r').

(** Every character is a decimal digit. *)
Definition all_digits (s : string) : Prop :=
  Forall (λ c, JsonParse.is_digit c = true) (list_ascii_of_string s).

(** The proxy's reader with another decoder state and line buffer. *)
Definition reader_at (d : Utf8.state) (b : string) (r : ProxyStream.Reader)
  : ProxyStream.Reader :=
  {| ProxyStream.decoder := d; ProxyStream.buffer := b;
     ProxyStream.yielded := ProxyStream.yielded r;
     ProxyStream.finished := ProxyStream.finished r |}.

(** An answer of the proxy that streams the given reads. *)
Definition streaming (chunks : list (list ascii)) : ProxyStream.Response :=
  {| ProxyStream.ok := true; ProxyStream.status := 200;
     ProxyStream.error_text := ""; ProxyStream.body := Some chunks |}.

(** ** Further notions: auth provider *)

(** The status request was answered, and the answer says that setup is
    complete. *)
Definition api_says_complete (env : Auth.Env) : Prop :=
  ∃ body, Auth.setup_status env = Auth.SetupResponse true (Some body) ∧
          Auth.read_status body = Some false.

(** The token that native code injected, if any. *)
Definition injected_token (w : Auth.World) : option string :=
  JS.or_else (Auth.localStorage w !! "ciris_access_token")
             (Auth.localStorage w !! "access_token").

(** Two worlds that differ at most in the local storage entries
    [ciris_show_setup] and [ciris_native_llm_mode], in the two session
    entries of the redirect guard, and in the navigations. *)
Definition same_session (w w' : Auth.World) : Prop :=
  Auth.user w' = Auth.user w ∧ Auth.loading w' = Auth.loading w ∧
  Auth.sdk_config w' = Auth.sdk_config w ∧ Auth.pathname w' = Auth.pathname w ∧
  (∀ k, k ≠ "ciris_show_setup" → k ≠ "ciris_native_llm_mode" →
        Auth.localStorage w' !! k = Auth.localStorage w !! k) ∧
  (∀ k, k ≠ "ciris_redirect_in_progress" → k ≠ "ciris_last_redirect_time" →
        Auth.sessionStorage w' !! k = Auth.sessionStorage w !! k).

(** * Sample data *)

(** [s] between double quotes. *)
Definition quoted (s : string) : string :=
  String (ascii_of_N 34) s +:+ String (ascii_of_N 34) "".

(** The text [{"a":1}]. *)
Definition sample_payload : string := "{" +:+ quoted "a" +:+ ":1}".

(** The bytes [event: step_update\ndata: {"a":1}\n\n]. *)
Definition sample_stream : string :=
  "event: step_update" +:+ String Text.newline
    ("data: " +:+ sample_payload +:+ String Text.newline (String Text.newline "")).

(** The same bytes in five reads, cut inside [event:], inside
    [step_update], inside the JSON text and between the two final line
    feeds. *)
Definition sample_chunks : list (list ascii) :=
  list_ascii_of_string <$>
    [ "eve"; "nt: step_upd"; "ate" +:+ String Text.newline "data: {" +:+ quoted "a";
      ":1}" +:+ String Text.newline ""; String Text.newline "" ].

(** A queued event whose payload has the given members. *)
Definition sample_event (ty hid tid : string) (fields : list (string * json)) : StageEvent :=
  {| ev_event_type := Some (JStr ty); ev_thought_id := Some (JStr hid);
     ev_task_id := Some (JStr tid);
     ev_data := JObj (("event_type", JStr ty) :: ("thought_id", JStr hid)
                      :: ("task_id", JStr tid) :: fields);
     ev_timestamp := JStr "2025-01-01T00:00:00.000Z" |}.

Definition ev_start : StageEvent :=
  sample_event "thought_start" "H1" "T1" [("task_description", JStr "say hi")].

Definition ev_context : StageEvent :=
  sample_event "snapshot_and_context" "H1" "T1" [].

Definition ev_done : StageEvent :=
  sample_event "action_result" "H1" "T1"
    [("action_executed", JStr "HandlerActionType.task_complete")].


(** An [action_result] event whose [action_executed] is an array, not a
    string. *)
Definition ev_listed : StageEvent :=
  sample_event "action_result" "H1" "T1"
    [("action_executed", JArr [JStr "task_complete"])].

(** An [action_result] event whose [action_executed] is a number. *)
Definition ev_numbered : StageEvent :=
  sample_event "action_result" "H1" "T1" [("action_executed", JNum "5")].

(** The task map after the first stage of task [T1] arrived, and after its
    terminal action arrived in a later flush. *)
Definition agg_started : Aggregator := apply_batch [ev_start] empty_agg.

Definition agg_finished : Aggregator := apply_batch [ev_done] agg_started.


Definition observer : Auth.User :=
  {| Auth.user_id := "u1"; Auth.username := "guest"; Auth.role := "OBSERVER";
     Auth.api_role := "OBSERVER"; Auth.permissions := ["read"];
     Auth.created_at := "2025-01-01T00:00:00.000Z" |}.

(** A first run on the device: the session is restored from the saved
    token, the server says that setup is required. *)
Definition env_first : Auth.Env :=
  {| Auth.clock := 1700000000000;
     Auth.redirect_clock := 1700000000150;
     Auth.iso_date := "2023-11-14T22:13:20.000Z";
     Auth.is_authenticated := false;
     Auth.login_result := None;
     Auth.setup_status :=
       Auth.SetupResponse true
         (Some (JObj [("success", JBool true);
                      ("data", JObj [("setup_required", JBool true)])])) |}.

(** A second run, two seconds later. *)
Definition env_second : Auth.Env :=
  {| Auth.clock := 1700000002000;
     Auth.redirect_clock := 1700000002100;
     Auth.iso_date := "2023-11-14T22:13:22.000Z";
     Auth.is_authenticated := false;
     Auth.login_result := None;
     Auth.setup_status := Auth.SetupFetchFails |}.

Definition world_first : Auth.World :=
  {| Auth.localStorage :=
       list_to_map [("isNativeApp", "true");
                    ("ciris_native_auth",
                     "{" +:+ quoted "googleUserId" +:+ ":" +:+ quoted "g-42" +:+ "," +:+
                     quoted "displayName" +:+ ":" +:+ quoted "Ada" +:+ "}");
                    ("ciris_auth_method", "google");
                    ("ciris_show_setup", "true");
                    ("ciris_native_auth_complete", "true");
                    ("ciris_native_auth_token", "tok")];
     Auth.sessionStorage := ∅;
     Auth.pathname := "/";
     Auth.navigations := [];
     Auth.sdk_config := None;
     Auth.user := None;
     Auth.loading := true |}.

(** The world in which the second run starts: the setup page has mounted
    and cleared the lock; only the time stamp is left. *)
Definition world_second : Auth.World :=
  Auth.setup_page_mounted (Auth.checkNativeAuth env_first world_first).2.

(** ** Further sample data *)

(** The text [{"events":[{"event_type":"thought_start","thought_id":7,
    "task_id":"T1"},null,{"event_type":"action_result","thought_id":7,
    "task_id":"T1"}]}]: the thought id is a number, not a string. *)
Definition sample_update : string :=
  "{" +:+ quoted "events" +:+ ":[{" +:+
    quoted "event_type" +:+ ":" +:+ quoted "thought_start" +:+ "," +:+
    quoted "thought_id" +:+ ":7," +:+
    quoted "task_id" +:+ ":" +:+ quoted "T1" +:+ "},null,{" +:+
    quoted "event_type" +:+ ":" +:+ quoted "action_result" +:+ "," +:+
    quoted "thought_id" +:+ ":7," +:+
    quoted "task_id" +:+ ":" +:+ quoted "T1" +:+ "}]}".

(** A request that comes without metadata. *)
Definition sample_request : Proxy.ChatRequest :=
  {| Proxy.model := Some "default";
     Proxy.messages := [{| Proxy.role := "user"; Proxy.content := "hello" |}];
     Proxy.temperature := None; Proxy.max_tokens := None;
     Proxy.stream := None; Proxy.metadata := None |}.

(** A streamed answer: one chunk, the end marker, and a chunk after it. *)
Definition sample_sse : string :=
  "data: " +:+ sample_payload +:+ String Text.newline
    ("data: [DONE]" +:+ String Text.newline
       ("data: " +:+ sample_payload +:+ String Text.newline "")).

(** The same bytes, read at once and read in pieces. *)
Definition sse_whole : list (list ascii) := [list_ascii_of_string sample_sse].

Definition sse_pieces : list (list ascii) :=
  list_ascii_of_string <$>
    [ "da"; "ta: " +:+ sample_payload; String Text.newline "data: [DO";
      "NE]" +:+ String Text.newline "data: " +:+ sample_payload;
      String Text.newline "" ].

(** Storage of a native app whose token was injected by native code. *)
Definition world_injected : Auth.World :=
  {| Auth.localStorage :=
       list_to_map [("isNativeApp", "true");
                    ("ciris_native_auth",
                     "{" +:+ quoted "googleUserId" +:+ ":" +:+ quoted "g-42" +:+ "}");
                    ("ciris_access_token", "tok-injected")];
     Auth.sessionStorage := ∅;
     Auth.pathname := "/";
     Auth.navigations := [];
     Auth.sdk_config := None;
     Auth.user := None;
     Auth.loading := true |}.

(** Storage of a native app at its first start: no token anywhere. *)
Definition world_fresh : Auth.World :=
  {| Auth.localStorage :=
       list_to_map [("isNativeApp", "true");
                    ("ciris_native_auth",
                     "{" +:+ quoted "googleUserId" +:+ ":" +:+ quoted "g-42" +:+ "}")];
     Auth.sessionStorage := ∅;
     Auth.pathname := "/";
     Auth.navigations := [];
     Auth.sdk_config := None;
     Auth.user := None;
     Auth.loading := true |}.

(** A world in which a redirect is under way. *)
Definition world_locked : Auth.World :=
  Auth.set_session "ciris_redirect_in_progress" "true" world_fresh.

(** A user whose role is not one of the hierarchy. *)
Definition service_account : Auth.User :=
  {| Auth.user_id := "svc"; Auth.username := "svc"; Auth.role := "SERVICE_ACCOUNT";
     Auth.api_role := "SERVICE_ACCOUNT"; Auth.permissions := ["read"];
     Auth.created_at := "2025-01-01T00:00:00.000Z" |}.

(** A paid account with twenty credits left. *)
Definition sample_credits : Billing.CreditStatus :=
  {| Billing.has_credit := true; Billing.credits_remaining := 20;
     Billing.free_uses_remaining := 0; Billing.total_uses := 7;
     Billing.plan_name := "standard"; Billing.purchase_required := false |}.

(** * Properties *)

(** ** Role check *)

Lemma indexOf_lower_bound (r : string) (l : list string) (i : Z) :
  (0 <= i)%Z → (-1 <= Auth.indexOf r l i)%Z.
Proof.
  revert i. induction l as [|x l IH]; intros i Hi; simpl.
  - lia.
  - destruct (String.eqb x r); [lia|]. apply IH. lia.
Qed.

Lemma indexOf_absent (r : string) (l : list string) (i : Z) :
  r ∉ l → Auth.indexOf r l i = (-1)%Z.
Proof.
  revert i. induction l as [|x l IH]; intros i Hr; simpl; [done|].
  apply not_elem_of_cons in Hr as [Hne Hr].
  destruct (String.eqb_spec x r) as [->|_]; [done|]. by apply IH.
Qed.

(** C10.  Without a user [hasRole] answers false for every role; with a
    user, whatever the user's own role, it answers true for every role
    name outside the hierarchy, because the required index is -1 and no
    index is below -1. *)
Theorem hasRole_unknown_role_is_granted (u : Auth.User) (required : string) :
  required ∉ Auth.roleHierarchy →
  (∀ r, Auth.hasRole None r = false) ∧
  Auth.indexOf required Auth.roleHierarchy 0 = (-1)%Z ∧
  (-1 <= Auth.indexOf (Auth.role u) Auth.roleHierarchy 0)%Z ∧
  Auth.hasRole (Some u) required = true.
Proof.
  intros Hr. split; [done|].
  pose proof (indexOf_absent required Auth.roleHierarchy 0 Hr) as Hreq.
  pose proof (indexOf_lower_bound (Auth.role u) Auth.roleHierarchy 0 ltac:(lia)) as Hu.
  repeat split; [done|done|].
  unfold Auth.hasRole. rewrite Hreq. by apply Z.leb_le.
Qed.

Lemma hasRole_unknown_role_is_granted_witness :
  Auth.hasRole (Some observer) "ROOT" = true.
Proof.
  apply (hasRole_unknown_role_is_granted observer "ROOT").
  unfold Auth.roleHierarchy. intros H. 
  repeat (apply elem_of_cons in H as [H|H]; [discriminate H|]).
  by apply elem_of_nil in H.
Defined.

(** ** Decimal numerals round-trip *)

Lemma digits_val_string_of_uint (d : Decimal.uint) (acc : N) :
  Num.digits_val acc (NilEmpty.string_of_uint d) = uint_val acc d.
Proof.
  revert acc. induction d; intros acc; simpl; try done; apply IHd.
Qed.

Lemma uint_val_pos (d : Decimal.uint) (p : positive) :
  uint_val (Npos p) d = Npos (Pos.of_uint_acc d p).
Proof.
  revert p. induction d; intros p; simpl; try done; rewrite <- IHd; f_equal; lia.
Qed.

Lemma uint_val_zero (d : Decimal.uint) : uint_val 0 d = N.of_uint d.
Proof.
  induction d; simpl; try done; apply uint_val_pos.
Qed.

Lemma toString_starts_with_digit (n : N) :
  Num.starts_with_digit (Num.toString n) = true.
Proof.
  unfold Num.toString.
  assert (N.to_uint n ≠ Decimal.Nil) as Hnil.
  { destruct n; simpl; [discriminate|]. apply DecimalPos.Unsigned.to_uint_nonnil. }
  destruct (N.to_uint n); try done.
Qed.

Lemma toString_truthy (n : N) : JS.truthy (Num.toString n) = true.
Proof.
  pose proof (toString_starts_with_digit n) as H.
  destruct (Num.toString n); [discriminate H|done].
Qed.

Lemma trimStart_digit (s : string) :
  Num.starts_with_digit s = true → Text.trimStart s = s.
Proof.
  destruct s as [|c r]; [done|]. unfold Text.trimStart. simpl String.length.
  unfold Num.starts_with_digit, JsonParse.is_digit, JsonParse.code.
  intros H. apply andb_true_iff in H as [H1 H2].
  apply N.leb_le in H1, H2.
  cbn [Text.trimStart_fuel].
  assert (Text.ws_prefix (String c r) = None) as ->; [|done].
  unfold Text.ws_prefix. cbn [list_ascii_of_string List.map].
  remember (N_of_ascii c) as n eqn:Hn. clear Hn.
  destruct n as [|p]; [lia|].
  do 6 (destruct p as [p|p|]; try lia; try done).
Qed.

Lemma parseInt_toString (n : N) : Num.parseInt (Num.toString n) = Some (Z.of_N n).
Proof.
  pose proof (toString_starts_with_digit n) as Hd.
  unfold Num.parseInt. rewrite (trimStart_digit _ Hd).
  destruct (Num.toString n) as [|c r] eqn:E; [discriminate Hd|].
  assert (JsonParse.code c ≠ 45%N ∧ JsonParse.code c ≠ 43%N) as [H45 H43].
  { simpl in Hd. unfold JsonParse.is_digit in Hd.
    apply andb_true_iff in Hd as [H1 H2]. apply N.leb_le in H1, H2. lia. }
  apply N.eqb_neq in H45, H43. rewrite H45, H43. rewrite Hd.
  rewrite <- E. unfold Num.toString.
  by rewrite digits_val_string_of_uint, uint_val_zero, DecimalN.Unsigned.of_to.
Qed.

(** ** Setup redirect guard *)

Lemma doSetupRedirect_redirected (t : N) (w : Auth.World) :
  redirected t w (Auth.doSetupRedirect t w).
Proof.
  unfold redirected, Auth.doSetupRedirect. simpl.
  split; [done|]. split.
  - rewrite lookup_insert_ne by done. apply lookup_insert_eq.
  - apply lookup_insert_eq.
Qed.

Lemma checkSetupStatusFromAPI_frame (env : Auth.Env) (w : Auth.World) :
  Auth.navigations (Auth.checkSetupStatusFromAPI env w).2 = Auth.navigations w ∧
  Auth.sessionStorage (Auth.checkSetupStatusFromAPI env w).2 = Auth.sessionStorage w.
Proof.
  unfold Auth.checkSetupStatusFromAPI.
  repeat case_match; simpl; done.
Qed.

Lemma maybe_redirect_navigation (env : Auth.Env) (cf flag : bool)
    (am : option string) (w : Auth.World) :
  Auth.navigations (Auth.maybe_redirect env cf flag am w) = Auth.navigations w ∨
  redirected (Auth.redirect_clock env) w (Auth.maybe_redirect env cf flag am w).
Proof.
  unfold Auth.maybe_redirect.
  destruct (flag && negb (JS.startsWith "/setup" (Auth.pathname w))); [|by left].
  pose proof (checkSetupStatusFromAPI_frame env w) as [Hn Hs].
  destruct (Auth.checkSetupStatusFromAPI env w) as [needed w1]. simpl in Hn, Hs.
  destruct needed.
  - right.
    destruct (doSetupRedirect_redirected (Auth.redirect_clock env)
                (Auth.set_local "ciris_native_llm_mode" (Auth.llm_mode am) w1))
      as (H1 & H2 & H3).
    split; [|done]. rewrite H1. simpl. by rewrite Hn.
  - left. destruct cf; simpl; done.
Qed.

Lemma checkNativeAuth_navigation (env : Auth.Env) (w : Auth.World) :
  Auth.navigations (Auth.checkNativeAuth env w).2 = Auth.navigations w ∨
  redirected (Auth.redirect_clock env) w (Auth.checkNativeAuth env w).2.
Proof.
  unfold Auth.checkNativeAuth.
  repeat case_match; simplify_eq; simpl; try (by left);
    match goal with
    | |- context [Auth.maybe_redirect ?e ?c ?f ?a ?w0] =>
        destruct (maybe_redirect_navigation e c f a w0) as [->|(Hr1 & Hr2 & Hr3)];
        [by left | right; split; [rewrite Hr1; done | done]]
    end.
Qed.

Lemma guard_short_circuits (env : Auth.Env) (w : Auth.World) :
  Auth.redirect_guard (Auth.clock env) w = true →
  Auth.checkNativeAuth env w = (true, w).
Proof. intros H. unfold Auth.checkNativeAuth. by rewrite H. Qed.

Lemma guard_closed_by_lock (now : N) (w : Auth.World) :
  Auth.sessionStorage w !! "ciris_redirect_in_progress" = Some "true" →
  Auth.redirect_guard now w = true.
Proof. intros H. unfold Auth.redirect_guard. rewrite H. done. Qed.

Lemma guard_closed_by_time (now t : N) (w : Auth.World) :
  Auth.sessionStorage w !! "ciris_last_redirect_time" = Some (Num.toString t) →
  (Z.of_N now - Z.of_N t < 5000)%Z →
  Auth.redirect_guard now w = true.
Proof.
  intros H Hlt. unfold Auth.redirect_guard. rewrite H. simpl.
  rewrite toString_truthy, parseInt_toString.
  apply orb_true_iff. right. by apply Z.ltb_lt.
Qed.

(** C4.  Let a first run of [checkNativeAuth] redirect to the setup flow.
    A second run that starts while the lock it wrote is still in session
    storage, or less than 5 seconds after the time stamp it wrote while
    that stamp is still there, returns [true] and changes nothing: of the
    two runs, the first one made the only navigation. *)
Theorem second_trigger_is_suppressed
    (env1 env2 : Auth.Env) (w0 w2 : Auth.World) :
  let w1 := (Auth.checkNativeAuth env1 w0).2 in
  Auth.navigations w1 ≠ Auth.navigations w0 →
  Auth.navigations w2 = Auth.navigations w1 →
  (Auth.sessionStorage w2 !! "ciris_redirect_in_progress"
     = Auth.sessionStorage w1 !! "ciris_redirect_in_progress"
   ∨ (Auth.sessionStorage w2 !! "ciris_last_redirect_time"
        = Auth.sessionStorage w1 !! "ciris_last_redirect_time"
      ∧ (Z.of_N (Auth.clock env2) - Z.of_N (Auth.redirect_clock env1) < 5000)%Z)) →
  Auth.navigations w1 = Auth.navigations w0 ++ ["/setup"] ∧
  Auth.checkNativeAuth env2 w2 = (true, w2) ∧
  Auth.navigations (Auth.checkNativeAuth env2 w2).2 = Auth.navigations w0 ++ ["/setup"].
Proof.
  intros w1 Hnav Hsame Hguard.
  destruct (checkNativeAuth_navigation env1 w0) as [H|(H1 & H2 & H3)]; [done|].
  fold w1 in H1, H2, H3.
  assert (Auth.checkNativeAuth env2 w2 = (true, w2)) as Hrun.
  { apply guard_short_circuits.
    destruct Hguard as [Hlock|[Hstamp Hlt]].
    - apply guard_closed_by_lock. by rewrite Hlock.
    - eapply guard_closed_by_time; [by rewrite Hstamp|done]. }
  split; [done|]. split; [done|]. rewrite Hrun. simpl. by rewrite Hsame.
Qed.

Lemma second_trigger_is_suppressed_witness :
  Auth.navigations (Auth.checkNativeAuth env_first world_first).2 = [] ++ ["/setup"] ∧
  Auth.checkNativeAuth env_second world_second = (true, world_second) ∧
  Auth.navigations (Auth.checkNativeAuth env_second world_second).2 = [] ++ ["/setup"].
Proof.
  apply (second_trigger_is_suppressed env_first env_second world_first world_second).
  - vm_compute. discriminate.
  - reflexivity.
  - right. split; [reflexivity | vm_compute; reflexivity].
Defined.

(** ** Values *)

Lemma Number_eqb_eq (a b : Number.t) : Number.eqb a b = true ↔ a = b.
Proof.
  destruct a as [|s m k|s], b as [|s' m' k'|s']; simpl; try (split; done).
  - rewrite !andb_true_iff, Bool.eqb_true_iff, !Z.eqb_eq. naive_solver.
  - rewrite Bool.eqb_true_iff. naive_solver.
Qed.

Lemma strict_eq_sym (a b : json) : Value.strict_eq a b = Value.strict_eq b a.
Proof.
  destruct a, b; simpl; try done.
  - by destruct b, b0.
  - apply eq_true_iff_eq. rewrite !Number_eqb_eq. naive_solver.
  - apply String.eqb_sym.
Qed.

Lemma strict_eq_trans (a b c : json) :
  Value.strict_eq a b = true → Value.strict_eq b c = true → Value.strict_eq a c = true.
Proof.
  destruct a, b; simpl; try done; destruct c; simpl; try done.
  - rewrite !Bool.eqb_true_iff. congruence.
  - rewrite !Number_eqb_eq. congruence.
  - rewrite !String.eqb_eq. congruence.
Qed.

(** Two values that are [===] answer every comparison alike. *)
Lemma strict_eq_congr (a b c : json) :
  Value.strict_eq a b = true → Value.strict_eq a c = Value.strict_eq b c.
Proof.
  intros Hab. apply eq_true_iff_eq. split; intros H.
  - apply (strict_eq_trans b a c); [by rewrite strict_eq_sym|done].
  - by apply (strict_eq_trans a b c).
Qed.

Lemma strict_eq_refl (a : json) : primitive a = true → Value.strict_eq a a = true.
Proof.
  destruct a; simpl; try done; intros _.
  - by destruct b.
  - by apply Number_eqb_eq.
  - apply String.eqb_refl.
Qed.

Lemma strict_eq_primitive (a b : json) :
  Value.strict_eq a b = true → primitive a = true ∧ primitive b = true.
Proof. by destruct a, b. Qed.

Lemma strict_eq_JStr (x y : string) : Value.strict_eq (JStr x) (JStr y) = true ↔ x = y.
Proof. simpl. apply String.eqb_eq. Qed.

Lemma is_string_true (s : string) (v : option json) :
  Value.is_string s v = true ↔ v = Some (JStr s).
Proof.
  unfold Value.is_string. destruct v as [[]|]; try (split; done).
  rewrite String.eqb_eq. naive_solver.
Qed.

(** ** Aggregator: one event *)

Lemma upd_stage_id (e : StageEvent) (th : TrackedThought) :
  thoughtId (upd_stage e th) = thoughtId th.
Proof. unfold upd_stage. by destruct (known_stage _). Qed.

Lemma set_stage_id (name : string) (e : StageEvent) (th : TrackedThought) :
  thoughtId (set_stage name e th) = thoughtId th.
Proof. done. Qed.

Lemma list_find_alter_id (f : TrackedThought → TrackedThought) (l : list TrackedThought)
    (id hid : json) (i : nat) (x : TrackedThought) :
  (∀ t, thoughtId (f t) = thoughtId t) →
  list_find (λ t, Value.strict_eq (thoughtId t) id = true) l = Some (i, x) →
  list_find (λ t, Value.strict_eq (thoughtId t) hid = true) (alter f i l) =
    if Value.strict_eq id hid then Some (i, f x)
    else list_find (λ t, Value.strict_eq (thoughtId t) hid = true) l.
Proof.
  intros Hf. revert i.
  induction l as [|y l IH]; intros i Hfind; [done|].
  simpl in Hfind. destruct (decide (Value.strict_eq (thoughtId y) id = true)) as [Hy|Hy].
  - simplify_eq. simpl. rewrite Hf, (strict_eq_congr _ _ hid Hy).
    destruct (Value.strict_eq id hid) eqn:E.
    + by rewrite decide_True.
    + by rewrite !decide_False by done.
  - destruct (list_find (λ t, Value.strict_eq (thoughtId t) id = true) l)
      as [[j z]|] eqn:E; simpl in Hfind; simplify_eq.
    change (alter f (S j) (y :: l)) with (y :: alter f j l).
    simpl. rewrite (IH j eq_refl).
    destruct (decide (Value.strict_eq (thoughtId y) hid = true)) as [Hyh|Hyh].
    + destruct (Value.strict_eq id hid) eqn:E2; [|done].
      exfalso. apply Hy. apply (strict_eq_trans _ hid _ Hyh). by rewrite strict_eq_sym.
    + by destruct (Value.strict_eq id hid).
Qed.

Lemma thought_at_alter (f : TrackedThought → TrackedThought) (l : list TrackedThought)
    (id hid : json) (i : nat) (x : TrackedThought) :
  (∀ t, thoughtId (f t) = thoughtId t) →
  list_find (λ t, Value.strict_eq (thoughtId t) id = true) l = Some (i, x) →
  thought_at (alter f i l) hid =
    if Value.strict_eq id hid then Some (f x) else thought_at l hid.
Proof.
  intros Hf Hfind. unfold thought_at.
  rewrite (list_find_alter_id f l id hid i x Hf Hfind).
  by destruct (Value.strict_eq id hid).
Qed.

Lemma thought_at_snoc (l : list TrackedThought) (x : TrackedThought) (hid : json) :
  thought_at l (thoughtId x) = None →
  thought_at (l ++ [x]) hid =
    if Value.strict_eq (thoughtId x) hid then Some x else thought_at l hid.
Proof.
  unfold thought_at. intros Hnone.
  assert (list_find (λ t, Value.strict_eq (thoughtId t) (thoughtId x) = true) l = None)
    as Hl by (by destruct (list_find _ l)).
  destruct (Value.strict_eq (thoughtId x) hid) eqn:Hx.
  - rewrite list_find_app_r.
    + simpl. by rewrite decide_True.
    + apply list_find_None. apply list_find_None in Hl.
      eapply Forall_impl; [exact Hl|]. intros y Hy Hyh. apply Hy.
      apply (strict_eq_trans _ hid _ Hyh). by rewrite strict_eq_sym.
  - destruct (list_find (λ t, Value.strict_eq (thoughtId t) hid = true) l)
      as [[j z]|] eqn:E.
    + by rewrite (list_find_app_l _ _ _ _ _ E).
    + rewrite list_find_app_r by done. simpl. by rewrite decide_False by congruence.
Qed.

Lemma find_thought_None (l : list TrackedThought) (id : json) :
  find_thought id l = None ↔ thought_at l id = None.
Proof.
  unfold find_thought, thought_at. by destruct (list_find _ l) as [[? ?]|].
Qed.


(** The thoughts of a task after one event for the thought id [h]. *)
Lemma touch_thoughts (e : StageEvent) (h : json) (t : TrackedTask) (hid : json) :
  thought_at (thoughts (touch e h t)) hid =
    if Value.strict_eq h hid
    then Some (upd_stage e (default (new_thought h) (thought_at (thoughts t) h)))
    else thought_at (thoughts t) hid.
Proof.
  unfold touch, find_thought, upd_stage.
  destruct (list_find (λ t0, Value.strict_eq (thoughtId t0) h = true) (thoughts t))
    as [[i x]|] eqn:E; simpl.
  - assert (thought_at (thoughts t) h = Some x) as ->.
    { unfold thought_at. by rewrite E. }
    simpl. destruct (known_stage (ev_event_type e)) as [name|].
    + by apply thought_at_alter.
    + destruct (Value.strict_eq h hid) eqn:Hh; [|done].
      unfold thought_at.
      assert (list_find (λ t0, Value.strict_eq (thoughtId t0) hid = true) (thoughts t)
              = Some (i, x)) as ->; [|done].
      rewrite <- E. apply list_find_ext. intros y.
      rewrite (strict_eq_sym (thoughtId y) hid), (strict_eq_sym (thoughtId y) h).
      by rewrite (strict_eq_congr h hid (thoughtId y) Hh).
  - assert (thought_at (thoughts t) h = None) as Hnone.
    { unfold thought_at. by rewrite E. }
    rewrite Hnone. simpl.
    destruct (known_stage (ev_event_type e)) as [name|].
    + replace (alter (set_stage name e) (length (thoughts t)) (thoughts t ++ [new_thought h]))
        with (thoughts t ++ [set_stage name e (new_thought h)]).
      * by rewrite (thought_at_snoc (thoughts t) (set_stage name e (new_thought h)) hid).
      * rewrite alter_app_r_alt by lia. by rewrite Nat.sub_diag.
    + by rewrite (thought_at_snoc (thoughts t) (new_thought h) hid).
Qed.

Lemma touch_taskId (e : StageEvent) (h : json) (t : TrackedTask) :
  taskId (touch e h t) = taskId t.
Proof. unfold touch. by destruct (find_thought _ _). Qed.

Lemma touch_description (e : StageEvent) (h : json) (t : TrackedTask) :
  description (touch e h t) = description t.
Proof. unfold touch. by destruct (find_thought _ _). Qed.

Lemma touch_firstTimestamp (e : StageEvent) (h : json) (t : TrackedTask) :
  firstTimestamp (touch e h t) = firstTimestamp t.
Proof. unfold touch. by destruct (find_thought _ _). Qed.

Lemma touch_completed (e : StageEvent) (h : json) (t : TrackedTask) :
  completed (touch e h t) =
    bool_decide (terminal_action e = Some true) || completed t.
Proof.
  unfold touch. destruct (find_thought _ _); simpl;
    by destruct (terminal_action e) as [[|]|].
Qed.

Lemma accepted_ids (e : StageEvent) :
  accepted e = true →
  ev_thought_id e = Some (thought_id_of e) ∧ ev_task_id e = Some (task_id_of e) ∧
  Value.truthy (Some (thought_id_of e)) = true ∧
  Value.truthy (Some (task_id_of e)) = true.
Proof.
  unfold accepted, thought_id_of, task_id_of.
  destruct (ev_thought_id e), (ev_task_id e); simpl; try done.
  - intros H. by apply andb_true_iff in H as [-> ->].
  - by rewrite andb_false_r.
Qed.

Lemma step_skipped (a : Aggregator) (e : StageEvent) :
  accepted e = false → step e a = (a, None).
Proof.
  unfold accepted, step.
  destruct (ev_thought_id e) as [h|], (ev_task_id e) as [t|]; simpl; try done.
  intros H. apply andb_false_iff in H as [-> | ->]; simpl; [done|].
  by rewrite orb_true_r.
Qed.

Lemma step_existing (a : Aggregator) (e : StageEvent) (l : nat) :
  accepted e = true → get_task (task_id_of e) a = Some l →
  step e a = ({| heap := alter (touched e) l (heap a); tasks := tasks a |}, outcome e).
Proof.
  intros Hacc Hl. destruct (accepted_ids e Hacc) as (Hh & Ht & Hth & Htt).
  unfold step. rewrite Hh, Ht, Hth, Htt. simpl. by rewrite Hl.
Qed.

Lemma step_fresh (a : Aggregator) (e : StageEvent) :
  accepted e = true → get_task (task_id_of e) a = None → creatable e = true →
  step e a =
    ({| heap := heap a ++ [touched e (new_task e (task_id_of e))];
        tasks := <[ new_key (task_id_of e) a := length (heap a) ]> (tasks a) |},
     outcome e).
Proof.
  intros Hacc Hl Hc. destruct (accepted_ids e Hacc) as (Hh & Ht & Hth & Htt).
  unfold step. rewrite Hh, Ht, Hth, Htt. simpl. rewrite Hl.
  unfold creatable in Hc. unfold update_task, new_key, outcome, touched.
  destruct (ev_data e) eqn:Hd; try done;
    destruct (task_id_of e) eqn:Hid; try done; simpl;
    rewrite alter_app_r_alt by lia; by rewrite Nat.sub_diag.
Qed.

Lemma step_refused (a : Aggregator) (e : StageEvent) :
  accepted e = true → get_task (task_id_of e) a = None → creatable e = false →
  step e a = (a, Some "TypeError").
Proof.
  intros Hacc Hl Hc. destruct (accepted_ids e Hacc) as (Hh & Ht & Hth & Htt).
  unfold step. rewrite Hh, Ht, Hth, Htt. simpl. rewrite Hl.
  unfold creatable in Hc.
  destruct (ev_data e) eqn:Hd; try done;
    destruct (task_id_of e) eqn:Hid; try done.
Qed.

Lemma step_unreached (a : Aggregator) (e : StageEvent) :
  reaches e a = false → apply_event a e = a.
Proof.
  unfold reaches, apply_event. intros H.
  destruct (accepted e) eqn:Hacc; [|by rewrite step_skipped].
  simpl in H. apply orb_false_iff in H as [Hg Hc].
  apply bool_decide_eq_false in Hg.
  destruct (get_task (task_id_of e) a) eqn:Hl; [by destruct Hg|].
  by rewrite step_refused.
Qed.

Lemma apply_event_skipped (a : Aggregator) (e : StageEvent) :
  accepted e = false → apply_event a e = a.
Proof. intros H. unfold apply_event. by rewrite step_skipped. Qed.

Lemma apply_event_existing (a : Aggregator) (e : StageEvent) (l : nat) :
  accepted e = true → get_task (task_id_of e) a = Some l →
  apply_event a e = {| heap := alter (touched e) l (heap a); tasks := tasks a |}.
Proof. intros H Hl. unfold apply_event. by rewrite (step_existing a e l). Qed.

Lemma apply_event_fresh (a : Aggregator) (e : StageEvent) :
  accepted e = true → get_task (task_id_of e) a = None → creatable e = true →
  apply_event a e =
    {| heap := heap a ++ [touched e (new_task e (task_id_of e))];
       tasks := <[ new_key (task_id_of e) a := length (heap a) ]> (tasks a) |}.
Proof. intros H Hl Hc. unfold apply_event. by rewrite step_fresh. Qed.

(** A turn that gets as far as the task ends as the completion test
    ends; one that does not get there ends normally when the event is
    skipped and throws otherwise. *)
Lemma step_completion (a : Aggregator) (e : StageEvent) :
  (step e a).2 =
    if reaches e a then outcome e
    else if accepted e then Some "TypeError" else None.
Proof.
  unfold reaches. destruct (accepted e) eqn:Hacc; [|by rewrite step_skipped].
  simpl. destruct (get_task (task_id_of e) a) as [l|] eqn:Hl.
  - by rewrite (step_existing a e l) by done.
  - destruct (creatable e) eqn:Hc; [by rewrite step_fresh|by rewrite step_refused].
Qed.

Lemma get_task_Some (t : json) (a : Aggregator) (l : nat) :
  get_task t a = Some l → ∃ s, t = JStr s ∧ tasks a !! (inl s : key) = Some l.
Proof. unfold get_task. destruct t; try done. eauto. Qed.

Lemma wf_empty : wf empty_agg.
Proof. intros k l H. simpl in H. by rewrite lookup_empty in H. Qed.

Lemma wf_lookup_lt (a : Aggregator) (k : key) (l : nat) :
  wf a → tasks a !! k = Some l → (l < length (heap a))%nat.
Proof.
  intros Hwf Hl. destruct (Hwf k l Hl) as (t & Ht & _). by eapply lookup_lt_Some.
Qed.

(** The key of a new task is not one of the map. *)
Lemma new_key_fresh (a : Aggregator) (t : json) :
  wf a → get_task t a = None → tasks a !! new_key t a = None.
Proof.
  intros Hwf Hg. unfold new_key, get_task in *.
  destruct t; try done;
    (destruct (tasks a !! (inr (length (heap a)) : key)) as [l|] eqn:E; [|done];
     destruct (Hwf _ _ E) as (t' & Ht' & Hf); simpl in Hf; destruct Hf as [<- _];
     apply lookup_lt_Some in Ht'; lia).
Qed.

Lemma filed_touched (k : key) (l : nat) (e : StageEvent) (t : TrackedTask) :
  filed k l t → filed k l (touched e t).
Proof. unfold filed, touched. rewrite touch_taskId. done. Qed.

Lemma filed_new_task (e : StageEvent) (a : Aggregator) :
  creatable e = true →
  filed (new_key (task_id_of e) a) (length (heap a)) (new_task e (task_id_of e)).
Proof.
  unfold creatable, filed, new_key. intros Hc.
  destruct (ev_data e); try done; destruct (task_id_of e); try done; simpl; eauto.
Qed.

Lemma wf_apply_event (a : Aggregator) (e : StageEvent) : wf a → wf (apply_event a e).
Proof.
  intros Hwf. destruct (reaches e a) eqn:Hr; [|by rewrite step_unreached].
  unfold reaches in Hr. apply andb_true_iff in Hr as [Hacc Hr].
  destruct (get_task (task_id_of e) a) as [l|] eqn:Hl.
  - rewrite (apply_event_existing a e l) by done.
    intros k l' Hl'. simpl in *.
    destruct (Hwf k l' Hl') as (t & Ht & Hid).
    rewrite list_lookup_alter. destruct (decide (l = l')) as [->|]; [|eauto].
    rewrite Ht. simpl. eexists; split; [done|]. by apply filed_touched.
  - rewrite bool_decide_false in Hr by (by intros [? ?]). simpl in Hr.
    rewrite apply_event_fresh by done.
    intros k l' Hl'. simpl in *.
    apply lookup_insert_Some in Hl' as [[<- <-]|[Hne Hl']].
    + rewrite lookup_app_r by lia. rewrite Nat.sub_diag. simpl.
      eexists; split; [done|]. by apply filed_touched, filed_new_task.
    + destruct (Hwf k l' Hl') as (t & Ht & Hid).
      rewrite lookup_app_l by (by eapply lookup_lt_Some). eauto.
Qed.

Lemma wf_effects (events : list StageEvent) (a : Aggregator) :
  wf a → wf (effects events a).
Proof.
  unfold effects. revert a.
  induction events as [|e events IH]; intros a Hwf; simpl; [done|].
  apply IH. by apply wf_apply_event.
Qed.

(** What the prior snapshot shows after one event: its references stay
    in the new map, and the object behind a reference is updated in place
    exactly when the event names its task. *)
Lemma prior_snapshot_apply_event (a : Aggregator) (e : StageEvent)
    (k : key) (l : nat) :
  wf a → tasks a !! k = Some l →
  tasks (apply_event a e) !! k = Some l ∧
  heap (apply_event a e) !! l =
    if accepted e && bool_decide (key_of_event e = Some k)
    then touched e <$> heap a !! l
    else heap a !! l.
Proof.
  intros Hwf Hl. destruct (Hwf _ _ Hl) as (t & Ht & Hid).
  destruct (accepted e) eqn:Hacc; [|by rewrite apply_event_skipped].
  destruct (accepted_ids e Hacc) as (_ & Htid & _). simpl.
  destruct (get_task (task_id_of e) a) as [l'|] eqn:Hl'.
  - rewrite (apply_event_existing a e l') by done. simpl. split; [done|].
    destruct (get_task_Some _ _ _ Hl') as (s & Hs & Hl'').
    unfold key_of_event. rewrite Htid, Hs.
    case_bool_decide as Heq.
    + simplify_eq. apply list_lookup_alter_eq.
    + apply list_lookup_alter_ne. intros ->.
      destruct (Hwf _ _ Hl'') as (t' & Ht' & Hid'). simpl in Hid'.
      apply Heq. f_equal. destruct k as [s'|n]; simpl in Hid.
      * congruence.
      * destruct Hid as (_ & xs & Hxs). congruence.
  - assert (heap a !! l = Some t) as Hkeep by done.
    destruct (creatable e) eqn:Hc.
    + rewrite apply_event_fresh by done. simpl.
      pose proof (new_key_fresh a _ Hwf Hl') as Hfresh.
      rewrite lookup_insert_ne by congruence. split; [done|].
      rewrite lookup_app_l by (by eapply lookup_lt_Some).
      rewrite bool_decide_false; [done|].
      unfold key_of_event. rewrite Htid. unfold get_task in Hl'.
      destruct (task_id_of e); try done. congruence.
    + unfold apply_event. rewrite step_refused by done. simpl. split; [done|].
      rewrite bool_decide_false; [done|].
      unfold key_of_event. rewrite Htid. unfold get_task in Hl'.
      destruct (task_id_of e); try done. congruence.
Qed.

Lemma task_of_Some (a : Aggregator) (tid : string) (t : TrackedTask) :
  task_of a tid = Some t → ∃ l, tasks a !! (inl tid : key) = Some l ∧ heap a !! l = Some t.
Proof.
  unfold task_of, view. destruct (tasks a !! (inl tid : key)) as [l|]; [|done]. eauto.
Qed.

(** What the new snapshot shows under a string after a turn that reached
    its task. *)
Lemma task_of_apply_event (a : Aggregator) (e : StageEvent) (tid : string) :
  wf a → reaches e a = true →
  task_of (apply_event a e) tid =
    if Value.is_string tid (ev_task_id e)
    then Some (touched e (default (new_task e (JStr tid)) (task_of a tid)))
    else task_of a tid.
Proof.
  intros Hwf Hr. unfold reaches in Hr. apply andb_true_iff in Hr as [Hacc Hr].
  destruct (accepted_ids e Hacc) as (_ & Htid & _).
  unfold task_of, view.
  destruct (get_task (task_id_of e) a) as [l|] eqn:Hl.
  - rewrite (apply_event_existing a e l) by done. simpl.
    destruct (get_task_Some _ _ _ Hl) as (s & Hs & Hl').
    rewrite Htid, Hs. simpl.
    destruct (Hwf _ _ Hl') as (t & Ht & Hid).
    destruct (String.eqb_spec s tid) as [->|Hne].
    + rewrite Hl'. simpl. rewrite list_lookup_alter_eq, Ht. done.
    + destruct (tasks a !! (inl tid : key)) as [l2|] eqn:Hl2; [|done]. simpl.
      destruct (Hwf _ _ Hl2) as (t2 & Ht2 & Hid2). simpl in Hid, Hid2.
      rewrite list_lookup_alter_ne; [done|]. intros ->. congruence.
  - rewrite bool_decide_false in Hr by (by intros [? ?]). simpl in Hr.
    rewrite apply_event_fresh by done. simpl. rewrite Htid.
    pose proof (new_key_fresh a _ Hwf Hl) as Hfresh.
    unfold Value.is_string.
    destruct (task_id_of e) as [| | |s| |] eqn:Hid; simpl in *;
      try (rewrite lookup_insert_ne by done;
           destruct (tasks a !! (inl tid : key)) as [l2|] eqn:Hl2; [|done]; simpl;
           by rewrite lookup_app_l by (by eapply wf_lookup_lt)).
    destruct (String.eqb_spec s tid) as [->|Hne].
    + rewrite lookup_insert_eq. simpl. rewrite Hfresh. simpl.
      rewrite lookup_app_r by lia. by rewrite Nat.sub_diag.
    + rewrite lookup_insert_ne by congruence.
      destruct (tasks a !! (inl tid : key)) as [l2|] eqn:Hl2; [|done]. simpl.
      by rewrite lookup_app_l by (by eapply wf_lookup_lt).
Qed.

(** ** Aggregator: batches *)

Lemma for_of_step_cons (e : StageEvent) (batch : list StageEvent) (a : Aggregator) :
  for_of step (e :: batch) a =
    if (step e a).2 is None then for_of step batch (apply_event a e) else step e a.
Proof. unfold apply_event. simpl. by destruct (step e a) as [a' [x|]]. Qed.

Lemma loop_executed (batch : list StageEvent) (a : Aggregator) :
  loop batch a = effects (executed batch a) a.
Proof.
  unfold loop, effects. revert a.
  induction batch as [|e batch IH]; intros a; [done|].
  rewrite for_of_step_cons. cbn [executed]. unfold apply_event.
  destruct (step e a) as [a' [x|]] eqn:E; simpl; rewrite E; simpl; [done|]. apply IH.
Qed.

Lemma executed_prefix (batch : list StageEvent) (a : Aggregator) :
  executed batch a `prefix_of` batch.
Proof.
  revert a. induction batch as [|e batch IH]; intros a; [done|].
  cbn [executed]. destruct (step e a) as [a' [x|]].
  - apply (prefix_cons e []). apply prefix_nil.
  - apply prefix_cons, IH.
Qed.

Lemma elem_of_executed (batch : list StageEvent) (a : Aggregator) (e : StageEvent) :
  e ∈ executed batch a → e ∈ batch.
Proof.
  intros Hin. destruct (executed_prefix batch a) as [rest ->].
  apply elem_of_app. by left.
Qed.

Lemma returns_cons (e : StageEvent) (batch : list StageEvent) (a : Aggregator) :
  returns (e :: batch) a ↔ (step e a).2 = None ∧ returns batch (apply_event a e).
Proof.
  unfold returns. rewrite for_of_step_cons.
  destruct (step e a) as [a' [x|]] eqn:E; simpl; naive_solver.
Qed.

Lemma returns_executed (batch : list StageEvent) (a : Aggregator) :
  returns batch a → executed batch a = batch.
Proof.
  revert a. induction batch as [|e batch IH]; intros a Hret; [done|].
  apply returns_cons in Hret as [He Hret]. cbn [executed].
  specialize (IH _ Hret). unfold apply_event in IH.
  destruct (step e a) as [a' [x|]]; simpl in *; [done|]. by rewrite IH.
Qed.

Lemma returns_app (b1 b2 : list StageEvent) (a : Aggregator) :
  returns (b1 ++ b2) a ↔ returns b1 a ∧ returns b2 (effects b1 a).
Proof.
  revert a. induction b1 as [|e b1 IH]; intros a.
  - simpl. unfold returns at 2. simpl. naive_solver.
  - rewrite <- app_comm_cons, !returns_cons, IH. simpl. naive_solver.
Qed.

(** A batch on which the updater returns is applied as a whole. *)
Lemma apply_batch_returns (batch : list StageEvent) (a : Aggregator) :
  returns batch a → apply_batch batch a = effects batch a.
Proof.
  intros Hret. pose proof (loop_executed batch a) as Hloop.
  rewrite (returns_executed batch a Hret) in Hloop.
  unfold apply_batch, returns, loop in *.
  destruct (for_of step batch a) as [a' [x|]]; simpl in *; done.
Qed.

Lemma apply_batch_heap (batch : list StageEvent) (a : Aggregator) :
  heap (apply_batch batch a) = heap (effects (executed batch a) a).
Proof.
  rewrite <- loop_executed. unfold apply_batch, loop.
  by destruct (for_of step batch a) as [a' [x|]].
Qed.

Lemma apply_batch_tasks (batch : list StageEvent) (a : Aggregator) :
  tasks (apply_batch batch a) = tasks (effects (executed batch a) a) ∨
  tasks (apply_batch batch a) = tasks a.
Proof.
  rewrite <- loop_executed. unfold apply_batch, loop.
  destruct (for_of step batch a) as [a' [x|]]; simpl; auto.
Qed.

Lemma effects_app (b1 b2 : list StageEvent) (a : Aggregator) :
  effects (b1 ++ b2) a = effects b2 (effects b1 a).
Proof. unfold effects. apply fold_left_app. Qed.

Lemma heap_length_apply_event (a : Aggregator) (e : StageEvent) :
  (length (heap a) <= length (heap (apply_event a e)))%nat.
Proof.
  destruct (reaches e a) eqn:Hr; [|by rewrite step_unreached].
  unfold reaches in Hr. apply andb_true_iff in Hr as [Hacc Hr].
  destruct (get_task (task_id_of e) a) as [l|] eqn:Hl.
  - rewrite (apply_event_existing a e l) by done. simpl. by rewrite length_alter.
  - simpl in Hr. rewrite apply_event_fresh by done. simpl. rewrite length_app. lia.
Qed.

(** A reference of the new map is one of the prior map, or points at an
    object made since. *)
Lemma tasks_apply_event (a : Aggregator) (e : StageEvent) (k : key) (l : nat) :
  tasks (apply_event a e) !! k = Some l →
  tasks a !! k = Some l ∨ (length (heap a) <= l)%nat.
Proof.
  destruct (reaches e a) eqn:Hr; [|rewrite step_unreached by done; auto].
  unfold reaches in Hr. apply andb_true_iff in Hr as [Hacc Hr].
  destruct (get_task (task_id_of e) a) as [l'|] eqn:Hl.
  - rewrite (apply_event_existing a e l') by done. simpl. auto.
  - simpl in Hr. rewrite apply_event_fresh by done. simpl.
    intros H. apply lookup_insert_Some in H as [[_ <-]|[_ H]]; auto.
Qed.

Lemma tasks_effects (batch : list StageEvent) (a : Aggregator) (k : key) (l : nat) :
  tasks (effects batch a) !! k = Some l →
  tasks a !! k = Some l ∨ (length (heap a) <= l)%nat.
Proof.
  unfold effects. revert a.
  induction batch as [|e batch IH]; intros a H; simpl in *; [auto|].
  destruct (IH _ H) as [H1|H1].
  - by apply (tasks_apply_event a e).
  - right. pose proof (heap_length_apply_event a e). lia.
Qed.

Lemma prior_snapshot_effects (batch : list StageEvent) (a : Aggregator)
    (k : key) (l : nat) :
  wf a → tasks a !! k = Some l →
  tasks (effects batch a) !! k = Some l ∧
  ((∀ e, e ∈ batch → accepted e = true → key_of_event e ≠ Some k) →
   heap (effects batch a) !! l = heap a !! l).
Proof.
  unfold effects. revert a.
  induction batch as [|e batch IH]; intros a Hwf Hl; simpl; [done|].
  destruct (prior_snapshot_apply_event a e k l Hwf Hl) as [Hl1 Hh1].
  destruct (IH (apply_event a e) (wf_apply_event a e Hwf) Hl1) as [Hl2 Hh2].
  split; [done|]. intros Hno.
  rewrite Hh2 by (intros e' Hin; apply Hno, elem_of_cons; by right).
  rewrite Hh1. destruct (accepted e) eqn:Hacc; [|done]. simpl.
  rewrite bool_decide_false; [done|].
  apply Hno; [apply elem_of_cons; by left|done].
Qed.

Lemma prior_snapshot_apply_batch (batch : list StageEvent) (a : Aggregator)
    (k : key) (l : nat) :
  wf a → tasks a !! k = Some l →
  tasks (apply_batch batch a) !! k = Some l ∧
  ((∀ e, e ∈ batch → accepted e = true → key_of_event e ≠ Some k) →
   heap (apply_batch batch a) !! l = heap a !! l).
Proof.
  intros Hwf Hl.
  destruct (prior_snapshot_effects (executed batch a) a k l Hwf Hl) as [Hl1 Hh1].
  split.
  - by destruct (apply_batch_tasks batch a) as [-> | ->].
  - intros Hno. rewrite apply_batch_heap. apply Hh1.
    intros e Hin. apply Hno. by eapply elem_of_executed.
Qed.

Lemma wf_apply_batch (batch : list StageEvent) (a : Aggregator) :
  wf a → wf (apply_batch batch a).
Proof.
  intros Hwf k l Hl. rewrite apply_batch_heap.
  pose proof (wf_effects (executed batch a) a Hwf) as Hwf'.
  destruct (apply_batch_tasks batch a) as [H|H]; rewrite H in Hl.
  - by apply Hwf'.
  - apply Hwf'. by apply prior_snapshot_effects.
Qed.

Lemma wf_apply_batches (batches : list (list StageEvent)) (a : Aggregator) :
  wf a → wf (apply_batches batches a).
Proof.
  unfold apply_batches. revert a.
  induction batches as [|b bs IH]; intros a Hwf; simpl; [done|].
  apply IH. by apply wf_apply_batch.
Qed.

(** A reference of the map after a batch is one of the prior map, or
    points at an object made by the batch. *)
Lemma tasks_apply_batch (batch : list StageEvent) (a : Aggregator) (k : key) (l : nat) :
  tasks (apply_batch batch a) !! k = Some l →
  tasks a !! k = Some l ∨ (length (heap a) <= l)%nat.
Proof.
  destruct (apply_batch_tasks batch a) as [-> | ->]; [|auto]. apply tasks_effects.
Qed.

(** A flush runs the updater on the queued events. *)
Lemma processBatchedEvents_agg (s : App) :
  agg (processBatchedEvents s) = apply_batch (pending s) (agg s) ∧
  pending (processBatchedEvents s) = [].
Proof. unfold processBatchedEvents. by destruct (pending s) eqn:E. Qed.

(** C2, as the code has it.  The new map keeps every entry of the prior
    map, pointing at the same task object, so both snapshots show the same
    task under each key of the prior one; a task of the prior snapshot that
    no accepted event of the batch names is unchanged.  This holds whether
    the updater returns or throws. *)
Theorem prior_snapshot_shares_tasks (a : Aggregator) (batch : list StageEvent) :
  wf a →
  (∀ k l, tasks a !! k = Some l → tasks (apply_batch batch a) !! k = Some l) ∧
  (∀ k, is_Some (tasks a !! k) →
        view (heap (apply_batch batch a)) (tasks a) k
          = task_at (apply_batch batch a) k) ∧
  (∀ k, (∀ e, e ∈ batch → accepted e = true → key_of_event e ≠ Some k) →
        view (heap (apply_batch batch a)) (tasks a) k
          = view (heap a) (tasks a) k).
Proof.
  intros Hwf. split; [|split].
  - intros k l Hl. by apply prior_snapshot_apply_batch.
  - intros k [l Hl]. unfold task_at, view.
    destruct (prior_snapshot_apply_batch batch a k l Hwf Hl) as [-> _].
    by rewrite Hl.
  - intros k Hno. unfold view.
    destruct (tasks a !! k) as [l|] eqn:Hl; [|done]. simpl.
    by apply (prior_snapshot_apply_batch batch a k l Hwf Hl).
Qed.

Lemma prior_snapshot_shares_tasks_witness :
  (∀ k l, tasks (apply_batch [ev_start] empty_agg) !! k = Some l →
          tasks (apply_batch [ev_done] (apply_batch [ev_start] empty_agg)) !! k
            = Some l) ∧
  (∀ k, is_Some (tasks (apply_batch [ev_start] empty_agg) !! k) →
        view (heap (apply_batch [ev_done] (apply_batch [ev_start] empty_agg)))
             (tasks (apply_batch [ev_start] empty_agg)) k
          = task_at (apply_batch [ev_done] (apply_batch [ev_start] empty_agg)) k) ∧
  (∀ k, (∀ e, e ∈ [ev_done] → accepted e = true → key_of_event e ≠ Some k) →
        view (heap (apply_batch [ev_done] (apply_batch [ev_start] empty_agg)))
             (tasks (apply_batch [ev_start] empty_agg)) k
          = view (heap (apply_batch [ev_start] empty_agg))
                 (tasks (apply_batch [ev_start] empty_agg)) k).
Proof.
  apply (prior_snapshot_shares_tasks (apply_batch [ev_start] empty_agg) [ev_done]).
  apply wf_apply_batch, wf_empty.
Defined.

(** C2, as stated, fails: the task object that the prior snapshot holds
    for ["T1"] is not completed before the batch and is completed after it,
    and it has gained a stage. *)
Lemma prior_snapshot_is_mutated :
  completed <$> view (heap agg_started) (tasks agg_started) (inl "T1") = Some false ∧
  completed <$> view (heap agg_finished) (tasks agg_started) (inl "T1") = Some true ∧
  view (heap agg_finished) (tasks agg_started) (inl "T1")
    ≠ view (heap agg_started) (tasks agg_started) (inl "T1").
Proof.
  split; [by vm_compute|]. split; [by vm_compute|].
  intros H. apply (f_equal (fmap completed)) in H. vm_compute in H. discriminate H.
Qed.

(** ** Task objects only grow *)

Lemma fmap_alter_same {A B : Type} (g : A → B) (f : A → A) (l : list A) (i : nat) (x : A) :
  l !! i = Some x → g (f x) = g x → g <$> alter f i l = g <$> l.
Proof.
  revert i. induction l as [|y l IH]; intros [|i] Hi Hg; simpl in *; simplify_eq.
  - change (alter f 0 (x :: l)) with (f x :: l). simpl. by rewrite Hg.
  - change (alter f (S i) (y :: l)) with (y :: alter f i l). simpl.
    f_equal. by apply IH.
Qed.

Lemma find_thought_Some_elem (id : json) (l : list TrackedThought) (i : nat) :
  find_thought id l = Some i →
  ∃ x, l !! i = Some x ∧ Value.strict_eq (thoughtId x) id = true.
Proof.
  unfold find_thought. destruct (list_find _ l) as [[j x]|] eqn:E; [|done].
  simpl. intros [= ->]. apply list_find_Some in E as (Hl & Hid & _). eauto.
Qed.

Lemma find_thought_None_notin (id : json) (l : list TrackedThought) :
  find_thought id l = None →
  Forall (λ x, Value.strict_eq (thoughtId x) id = false) l.
Proof.
  unfold find_thought. destruct (list_find _ l) as [[j x]|] eqn:E; [done|].
  intros _. apply list_find_None in E.
  eapply Forall_impl; [exact E|]. intros x Hx. simpl in Hx.
  by destruct (Value.strict_eq (thoughtId x) id).
Qed.

(** The thought ids after one event: unchanged when the thought exists,
    else extended by the event's thought id. *)
Lemma touch_thought_ids (e : StageEvent) (h : json) (t : TrackedTask) :
  thought_ids (touch e h t) =
    match find_thought h (thoughts t) with
    | Some _ => thought_ids t
    | None => thought_ids t ++ [h]
    end.
Proof.
  unfold thought_ids, touch.
  destruct (find_thought h (thoughts t)) as [i|] eqn:E; simpl.
  - destruct (find_thought_Some_elem _ _ _ E) as (x & Hx & Hid).
    destruct (known_stage (ev_event_type e)) as [name|]; [|done].
    by apply (fmap_alter_same thoughtId (set_stage name e) (thoughts t) i x).
  - destruct (known_stage (ev_event_type e)).
    + rewrite alter_app_r_alt by lia. rewrite Nat.sub_diag. by rewrite fmap_app.
    + by rewrite fmap_app.
Qed.

Lemma grows_refl (t : TrackedTask) : grows t t.
Proof. unfold grows. split_and!; try done. eauto. Qed.

Lemma grows_trans (t1 t2 t3 : TrackedTask) : grows t1 t2 → grows t2 t3 → grows t1 t3.
Proof.
  intros (Hi & Hd & Hf & Hc & Hp & Hs) (Hi' & Hd' & Hf' & Hc' & Hp' & Hs').
  unfold grows. split_and!; try congruence; [auto|by etrans|].
  intros hid th Hth. destruct (Hs hid th Hth) as (th2 & Hth2 & Hsub).
  destruct (Hs' hid th2 Hth2) as (th3 & Hth3 & Hsub'). exists th3.
  split; [done|]. set_solver.
Qed.

Lemma touch_grows (e : StageEvent) (h : json) (t : TrackedTask) : grows t (touch e h t).
Proof.
  unfold grows. split; [apply touch_taskId|]. split; [apply touch_description|].
  split; [apply touch_firstTimestamp|]. split; [|split].
  - intros Hc. rewrite touch_completed, Hc. apply orb_true_r.
  - rewrite touch_thought_ids. destruct (find_thought h (thoughts t)); [done|].
    by apply prefix_app_r.
  - intros hid th Hth. rewrite touch_thoughts.
    destruct (Value.strict_eq h hid) eqn:Hh; [|eauto].
    assert (thought_at (thoughts t) h = Some th) as ->.
    { rewrite <- Hth. unfold thought_at. f_equal. apply list_find_ext. intros y.
      rewrite (strict_eq_sym (thoughtId y) hid), (strict_eq_sym (thoughtId y) h).
      by rewrite (strict_eq_congr h hid (thoughtId y) Hh). }
    simpl. eexists. split; [done|].
    unfold upd_stage. destruct (known_stage (ev_event_type e)); simpl; [|done].
    rewrite dom_insert_L. set_solver.
Qed.

(** Every task object of the store is still there after a turn of the
    loop, at its address, and has only grown. *)
Lemma heap_apply_event (a : Aggregator) (e : StageEvent) (l : nat) (t : TrackedTask) :
  heap a !! l = Some t →
  ∃ t', heap (apply_event a e) !! l = Some t' ∧ grows t t'.
Proof.
  intros Ht. destruct (reaches e a) eqn:Hr;
    [|rewrite step_unreached by done; eauto using grows_refl].
  unfold reaches in Hr. apply andb_true_iff in Hr as [Hacc Hr].
  destruct (get_task (task_id_of e) a) as [l'|] eqn:Hl.
  - rewrite (apply_event_existing a e l') by done. simpl.
    rewrite list_lookup_alter. destruct (decide (l' = l)) as [->|];
      [|eauto using grows_refl].
    rewrite Ht. simpl. eexists. split; [done|]. apply touch_grows.
  - simpl in Hr. rewrite apply_event_fresh by done. simpl.
    rewrite lookup_app_l by (by eapply lookup_lt_Some). eauto using grows_refl.
Qed.

Lemma heap_effects (batch : list StageEvent) (a : Aggregator) (l : nat) (t : TrackedTask) :
  heap a !! l = Some t →
  ∃ t', heap (effects batch a) !! l = Some t' ∧ grows t t'.
Proof.
  unfold effects. revert a t.
  induction batch as [|e batch IH]; intros a t Ht; simpl; [eauto using grows_refl|].
  destruct (heap_apply_event a e l t Ht) as (t1 & Ht1 & Hg1).
  destruct (IH _ _ Ht1) as (t' & Ht' & Hg'). eauto using grows_trans.
Qed.

Lemma heap_apply_batch (batch : list StageEvent) (a : Aggregator) (l : nat)
    (t : TrackedTask) :
  heap a !! l = Some t →
  ∃ t', heap (apply_batch batch a) !! l = Some t' ∧ grows t t'.
Proof. rewrite apply_batch_heap. apply heap_effects. Qed.

(** What the snapshot shows under a key, it shows after a batch, grown. *)
Lemma task_at_apply_batch (batch : list StageEvent) (a : Aggregator) (k : key)
    (t : TrackedTask) :
  wf a → task_at a k = Some t →
  ∃ t', task_at (apply_batch batch a) k = Some t' ∧ grows t t'.
Proof.
  intros Hwf. unfold task_at, view. intros Ht.
  destruct (tasks a !! k) as [l|] eqn:Hl; [|done]. simpl in Ht.
  destruct (prior_snapshot_apply_batch batch a k l Hwf Hl) as [-> _]. simpl.
  by apply heap_apply_batch.
Qed.

(** ** Completion of a task *)

Lemma includes_true (needle : string) (x : option json) :
  Value.includes needle x = Some true →
  (∃ action, x = Some (JStr action) ∧ JS.includes needle action = true) ∨
  (∃ xs, x = Some (JArr xs) ∧ JStr needle ∈ xs).
Proof.
  unfold Value.includes. destruct x as [[| | |s|xs|]|]; try done.
  - intros [= H]. left. eauto.
  - intros [= H]. right. exists xs. split; [done|].
    apply existsb_exists in H as (y & Hin & Hy).
    destruct y; try done. apply String.eqb_eq in Hy as ->.
    by apply list_elem_of_In.
Qed.

Lemma terminal_action_inv (e : StageEvent) :
  terminal_action e = Some true →
  ev_event_type e = Some (JStr "action_result") ∧
  ((∃ action, Json.get "action_executed" (ev_data e) = Some (JStr action) ∧
              (JS.includes "task_complete" action = true ∨
               JS.includes "task_reject" action = true)) ∨
   (∃ xs, Json.get "action_executed" (ev_data e) = Some (JArr xs) ∧
          (JStr "task_complete" ∈ xs ∨ JStr "task_reject" ∈ xs))).
Proof.
  unfold terminal_action.
  destruct (Value.is_string "action_result" (ev_event_type e)) eqn:Hty; [|done].
  apply is_string_true in Hty. intros H. split; [done|].
  assert (Value.includes "task_complete" (Json.get "action_executed" (ev_data e)) = Some true
          ∨ Value.includes "task_reject" (Json.get "action_executed" (ev_data e)) = Some true)
    as [Hi|Hi].
  { destruct (ev_data e); try done;
      destruct (Value.includes "task_complete" _) as [[|]|]; auto; done. }
  - destruct (includes_true _ _ Hi) as [(action & Hx & Hin)|(xs & Hx & Hin)];
      [left|right]; eauto.
  - destruct (includes_true _ _ Hi) as [(action & Hx & Hin)|(xs & Hx & Hin)];
      [left|right]; eauto.
Qed.

(** A task object that a turn of the loop leaves completed was completed,
    or the turn was for a terminal event with its task id. *)
Lemma completed_by_event (a : Aggregator) (e : StageEvent) (l : nat) (t' : TrackedTask) :
  wf a → heap (apply_event a e) !! l = Some t' → completed t' = true →
  (∃ t, heap a !! l = Some t ∧ completed t = true) ∨
  (accepted e = true ∧ ev_task_id e = Some (taskId t') ∧
   terminal_action e = Some true).
Proof.
  intros Hwf Ht' Hc.
  destruct (reaches e a) eqn:Hr; [|rewrite step_unreached in Ht' by done; eauto].
  unfold reaches in Hr. apply andb_true_iff in Hr as [Hacc Hr].
  destruct (accepted_ids e Hacc) as (_ & Htid & _).
  destruct (get_task (task_id_of e) a) as [l'|] eqn:Hl.
  - rewrite (apply_event_existing a e l') in Ht' by done. simpl in Ht'.
    rewrite list_lookup_alter in Ht'.
    destruct (decide (l' = l)) as [->|]; [|eauto].
    destruct (heap a !! l) as [t|] eqn:Ht; [|done]. simpl in Ht'. simplify_eq.
    unfold touched in Hc. rewrite touch_completed in Hc.
    apply orb_true_iff in Hc as [Hterm|Hc]; [|eauto].
    apply bool_decide_eq_true in Hterm. right. split; [done|]. split; [|done].
    unfold touched. rewrite touch_taskId.
    destruct (get_task_Some _ _ _ Hl) as (s & Hs & Hl').
    destruct (Hwf _ _ Hl') as (t0 & Ht0 & Hid). simpl in Hid. simplify_eq.
    by rewrite Htid, Hs, Hid.
  - simpl in Hr. rewrite apply_event_fresh in Ht' by done. simpl in Ht'.
    destruct (decide (l < length (heap a))%nat) as [Hlt|Hge].
    + rewrite lookup_app_l in Ht' by done. eauto.
    + rewrite lookup_app_r in Ht' by lia.
      destruct (l - length (heap a))%nat; [|done]. simpl in Ht'. simplify_eq.
      unfold touched in Hc. rewrite touch_completed in Hc. simpl in Hc.
      rewrite orb_false_r in Hc. apply bool_decide_eq_true in Hc.
      right. split; [done|]. split; [|done].
      unfold touched. by rewrite touch_taskId.
Qed.

Lemma completed_by_effects (batch : list StageEvent) (a : Aggregator) (l : nat)
    (t' : TrackedTask) :
  wf a → heap (effects batch a) !! l = Some t' → completed t' = true →
  (∃ t, heap a !! l = Some t ∧ completed t = true) ∨
  (∃ e, e ∈ batch ∧ accepted e = true ∧ ev_task_id e = Some (taskId t') ∧
        terminal_action e = Some true).
Proof.
  unfold effects. revert a.
  induction batch as [|e batch IH]; intros a Hwf Ht' Hc; simpl in *; [eauto|].
  destruct (IH _ (wf_apply_event a e Hwf) Ht' Hc) as [(t1 & Ht1 & Hc1)|(e' & Hin & Hrest)].
  - destruct (completed_by_event a e l t1 Hwf Ht1 Hc1) as [?|(Hacc & Hid & Hterm)];
      [by left|].
    right. exists e. split; [apply elem_of_cons; by left|]. split; [done|].
    split; [|done]. rewrite Hid. f_equal.
    destruct (heap_effects batch (apply_event a e) l t1 Ht1) as (t2 & Ht2 & Hg).
    fold (effects batch (apply_event a e)) in Ht'. rewrite Ht' in Ht2.
    injection Ht2 as <-. symmetry. apply Hg.
  - right. exists e'. split; [apply elem_of_cons; by right|done].
Qed.

(** C1, as the code has it.  Once a task of the map is completed it is
    completed after every later batch, whether the updater returns or
    throws; and a task that is completed after a batch was completed
    before it, or the batch holds an accepted [action_result] event with
    the task's id whose [action_executed] is a string that contains
    [task_complete] or [task_reject], or an array that has one of these
    two strings as an element. *)
Theorem completed_is_monotone (a : Aggregator) (batch : list StageEvent) (k : key) :
  wf a →
  (∀ t, task_at a k = Some t → completed t = true →
        ∃ t', task_at (apply_batch batch a) k = Some t' ∧ completed t' = true) ∧
  (∀ t', task_at (apply_batch batch a) k = Some t' → completed t' = true →
        (∃ t, task_at a k = Some t ∧ completed t = true) ∨
        (∃ e, e ∈ batch ∧ accepted e = true ∧ ev_task_id e = Some (taskId t') ∧
              ev_event_type e = Some (JStr "action_result") ∧
              ((∃ action, Json.get "action_executed" (ev_data e) = Some (JStr action) ∧
                          (JS.includes "task_complete" action = true ∨
                           JS.includes "task_reject" action = true)) ∨
               (∃ xs, Json.get "action_executed" (ev_data e) = Some (JArr xs) ∧
                      (JStr "task_complete" ∈ xs ∨ JStr "task_reject" ∈ xs))))).
Proof.
  intros Hwf. unfold task_at, view. split.
  - intros t Ht Hc. destruct (tasks a !! k) as [l|] eqn:Hl; [|done]. simpl in Ht.
    destruct (prior_snapshot_apply_batch batch a k l Hwf Hl) as [-> _]. simpl.
    destruct (heap_apply_batch batch a l t Ht) as (t' & Ht' & Hg).
    exists t'. split; [done|]. by apply Hg.
  - intros t' Ht' Hc.
    destruct (tasks (apply_batch batch a) !! k) as [l|] eqn:Hl; [|done]. simpl in Ht'.
    rewrite apply_batch_heap in Ht'.
    destruct (completed_by_effects _ a l t' Hwf Ht' Hc)
      as [(t & Ht & Hct)|(e & Hin & Hacc & Hid & Hterm)].
    + left. exists t.
      destruct (tasks_apply_batch batch a k l Hl) as [-> |Hge]; [done|].
      apply lookup_lt_Some in Ht. lia.
    + right. exists e. split; [by eapply elem_of_executed|].
      destruct (terminal_action_inv e Hterm) as [Hty Hpay]. done.
Qed.

Lemma completed_is_monotone_witness :
  ∃ t', task_at (apply_batch [ev_context; ev_numbered]
                   (apply_batch [ev_start; ev_done] empty_agg)) (inl "T1") = Some t' ∧
        completed t' = true.
Proof.
  destruct (completed_is_monotone (apply_batch [ev_start; ev_done] empty_agg)
              [ev_context; ev_numbered] (inl "T1")) as [Hkeep _].
  - apply wf_apply_batch, wf_empty.
  - eapply Hkeep; reflexivity.
Defined.

(** C1, as stated, fails in its second half: the task ["T1"] is completed
    by an event whose payload holds no action string at all, its
    [action_executed] being the array [["task_complete"]]. *)
Lemma completed_without_action_string :
  completed <$> task_of agg_started "T1" = Some false ∧
  completed <$> task_of (apply_batch [ev_listed] agg_started) "T1" = Some true ∧
  Json.get_string "action_executed" (ev_data ev_listed) = None ∧
  Json.get "action_executed" (ev_data ev_listed) = Some (JArr [JStr "task_complete"]).
Proof. by vm_compute. Qed.

(** ** Description of a task *)

(** A turn of the loop for an event that does not name [tid] leaves what
    the snapshot shows under [tid] as it is. *)
Lemma task_of_unnamed (a : Aggregator) (e : StageEvent) (tid : string) :
  wf a → accepted e && Value.is_string tid (ev_task_id e) = false →
  task_of (apply_event a e) tid = task_of a tid.
Proof.
  intros Hwf Hno. destruct (reaches e a) eqn:Hr; [|by rewrite step_unreached].
  rewrite task_of_apply_event by done.
  unfold reaches in Hr. apply andb_true_iff in Hr as [Hacc _].
  rewrite Hacc in Hno. simpl in Hno. by rewrite Hno.
Qed.

Lemma task_of_effects_unnamed (batch : list StageEvent) (a : Aggregator) (tid : string) :
  wf a →
  (∀ e, e ∈ batch → accepted e && Value.is_string tid (ev_task_id e) = false) →
  task_of (effects batch a) tid = task_of a tid.
Proof.
  unfold effects. revert a.
  induction batch as [|e batch IH]; intros a Hwf Hno; simpl; [done|].
  rewrite IH.
  - apply task_of_unnamed; [done|]. apply Hno, elem_of_cons. by left.
  - by apply wf_apply_event.
  - intros e' Hin. apply Hno, elem_of_cons. by right.
Qed.

Lemma task_of_None (a : Aggregator) (tid : string) :
  wf a → task_of a tid = None → tasks a !! (inl tid : key) = None.
Proof.
  intros Hwf. unfold task_of, view.
  destruct (tasks a !! (inl tid : key)) as [l|] eqn:Hl; [|done]. simpl.
  destruct (Hwf _ _ Hl) as (t & -> & _). done.
Qed.

Lemma task_of_apply_batch_unnamed (batch : list StageEvent) (a : Aggregator)
    (tid : string) :
  wf a →
  (∀ e, e ∈ batch → accepted e && Value.is_string tid (ev_task_id e) = false) →
  task_of (apply_batch batch a) tid = task_of a tid.
Proof.
  intros Hwf Hno.
  assert (task_of (effects (executed batch a) a) tid = task_of a tid) as Heff.
  { apply task_of_effects_unnamed; [done|].
    intros e Hin. apply Hno. by eapply elem_of_executed. }
  unfold task_of, view in *. rewrite apply_batch_heap.
  destruct (apply_batch_tasks batch a) as [-> | ->]; [done|].
  destruct (tasks a !! (inl tid : key)) as [l|] eqn:Hl; [|done]. simpl.
  destruct (prior_snapshot_effects (executed batch a) a _ l Hwf Hl) as [Hl' _].
  by rewrite Hl' in Heff.
Qed.

Lemma find_none_forall {A : Type} (f : A → bool) (l : list A) :
  List.find f l = None → ∀ x, x ∈ l → f x = false.
Proof.
  intros H x Hin. apply list_elem_of_In in Hin.
  by apply (find_none f l H x).
Qed.

(** C7, as the code has it.  A task's description never changes once the
    task exists, whether the updater returns or throws; a task created by
    a batch on which the updater returns takes the [task_description] of
    the event that creates it, the first accepted event naming the task,
    whatever value that is when it is truthy, and the empty string
    otherwise; without such an event there is no task. *)
Theorem description_is_fixed_at_creation
    (a : Aggregator) (batch : list StageEvent) (tid : string) :
  wf a →
  (∀ k t, task_at a k = Some t →
          ∃ t', task_at (apply_batch batch a) k = Some t' ∧
                description t' = description t) ∧
  (task_of a tid = None →
   match creating_event tid batch with
   | Some e =>
       returns batch a →
       ∃ t', task_of (apply_batch batch a) tid = Some t' ∧
             description t' =
               Value.or_else (Json.get "task_description" (ev_data e)) (JStr "")
   | None => task_of (apply_batch batch a) tid = None
   end).
Proof.
  intros Hwf. split.
  { intros k t Ht. destruct (task_at_apply_batch batch a k t Hwf Ht) as (t' & Ht' & Hg).
    exists t'. split; [done|]. apply Hg. }
  intros Hnone. destruct (creating_event tid batch) as [e|] eqn:Hce.
  - intros Hret. rewrite apply_batch_returns by done.
    unfold creating_event in Hce. clear -Hwf Hnone Hce Hret.
    revert a Hwf Hnone Hret.
    induction batch as [|e0 batch IH]; intros a Hwf Hnone Hret; simpl in Hce; [done|].
    apply returns_cons in Hret as [Hok Hret].
    change (effects (e0 :: batch) a) with (effects batch (apply_event a e0)).
    destruct (accepted e0 && Value.is_string tid (ev_task_id e0)) eqn:Hname.
    + simplify_eq. apply andb_true_iff in Hname as [Hacc Hname].
      assert (reaches e a = true) as Hr.
      { rewrite step_completion in Hok. destruct (reaches e a); [done|].
        by rewrite Hacc in Hok. }
      assert (task_of (apply_event a e) tid
              = Some (touched e (new_task e (JStr tid)))) as Ht1.
      { rewrite task_of_apply_event by done. by rewrite Hname, Hnone. }
      destruct (task_of_Some _ _ _ Ht1) as (l & Hl & Hh).
      destruct (heap_effects batch _ l _ Hh) as (t' & Ht' & Hg).
      exists t'. split.
      * unfold task_of, view.
        destruct (prior_snapshot_effects batch _ _ l (wf_apply_event a e Hwf) Hl)
          as [-> _]. done.
      * destruct Hg as (_ & -> & _). unfold touched. by rewrite touch_description.
    + apply IH; [done|by apply wf_apply_event| |done].
      by rewrite task_of_unnamed.
  - rewrite task_of_apply_batch_unnamed; [done..|].
    unfold creating_event in Hce. by apply find_none_forall.
Qed.

Lemma description_is_fixed_at_creation_witness :
  ∃ t', task_of (apply_batch [ev_context; ev_start] empty_agg) "T1" = Some t' ∧
        description t' =
          Value.or_else (Json.get "task_description" (ev_data ev_context)) (JStr "").
Proof.
  destruct (description_is_fixed_at_creation empty_agg [ev_context; ev_start] "T1")
    as [_ Hnew].
  - apply wf_empty.
  - apply (Hnew eq_refl). reflexivity.
Defined.

(** C7, as stated, fails: the first event for ["T1"] carries no
    description, the second one does; the task keeps the empty description
    of its creation. *)
Lemma description_ignores_later_carrier :
  description <$> task_of (apply_batch [ev_context; ev_start] empty_agg) "T1"
    = Some (JStr "") ∧
  first_carried_description "T1" [ev_context; ev_start] = JStr "say hi" ∧
  description <$> task_of (apply_batch [ev_context; ev_start] empty_agg) "T1"
    ≠ Some (first_carried_description "T1" [ev_context; ev_start]).
Proof.
  split; [by vm_compute|]. split; [by vm_compute|].
  intros H. vm_compute in H. discriminate H.
Qed.

(** ** Stage keys *)




(** A turn of the loop that ends normally for an accepted event has
    reached the task. *)
Lemma returned_reaches (a : Aggregator) (e : StageEvent) :
  (step e a).2 = None → accepted e = true → reaches e a = true.
Proof.
  rewrite step_completion. intros H Hacc. destruct (reaches e a); [done|].
  by rewrite Hacc in H.
Qed.









(** ** Re-applying events that were already applied *)

Lemma thought_at_congr (l : list TrackedThought) (h hid : json) :
  Value.strict_eq h hid = true → thought_at l h = thought_at l hid.
Proof.
  intros Hh. unfold thought_at. f_equal. apply list_find_ext. intros y.
  rewrite (strict_eq_sym (thoughtId y) hid), (strict_eq_sym (thoughtId y) h).
  by rewrite (strict_eq_congr h hid (thoughtId y) Hh).
Qed.









(** The stage a turn of the loop stores, and the stages it leaves. *)
Lemma stage_at_apply_event (a : Aggregator) (e : StageEvent) (tid : string) (hid : json)
    (name : string) :
  wf a → reaches e a = true →
  stage_at (apply_event a e) tid hid name =
    if Value.is_string tid (ev_task_id e) && for_thought hid e
       && bool_decide (known_stage (ev_event_type e) = Some name)
    then Some (stage_of name e)
    else stage_at a tid hid name.
Proof.
  intros Hwf Hr. unfold stage_at. rewrite task_of_apply_event by done.
  pose proof Hr as Hacc. unfold reaches in Hacc. apply andb_true_iff in Hacc as [Hacc _].
  destruct (accepted_ids e Hacc) as (Hh & _).
  destruct (Value.is_string tid (ev_task_id e)) eqn:Htid; [|done].
  simpl. unfold touched, for_thought. rewrite touch_thoughts, Hh.
  destruct (Value.strict_eq (thought_id_of e) hid) eqn:Hhid; simpl.
  - assert (stages (default (new_thought (thought_id_of e))
              (thought_at (thoughts (default (new_task e (JStr tid)) (task_of a tid)))
                 (thought_id_of e))) !! name
            = task_of a tid ≫= λ t,
                thought_at (thoughts t) hid ≫= λ th, stages th !! name)
      as Hold.
    { destruct (task_of a tid) as [t|]; simpl.
      - rewrite (thought_at_congr _ _ _ Hhid).
        by destruct (thought_at (thoughts t) hid).
      - done. }
    unfold upd_stage. destruct (known_stage (ev_event_type e)) as [n|] eqn:Hk; simpl.
    + destruct (decide (n = name)) as [->|Hne].
      * rewrite bool_decide_true by done. apply lookup_insert_eq.
      * rewrite bool_decide_false by congruence.
        rewrite lookup_insert_ne by done. exact Hold.
    + exact Hold.
  - destruct (task_of a tid) as [t|]; simpl; [done|].
    unfold thought_at. done.
Qed.




(** ** Stream reader: nothing is raised *)

Lemma for_of_normal {S X : Type} (f : X → S → S * completion) (xs : list X) (s : S) :
  (∀ x s', (f x s').2 = None) →
  for_of f xs s = (fold_left (λ s' x, (f x s').1) xs s, None).
Proof.
  intros Hf. revert s. induction xs as [|x xs IH]; intros s; simpl; [done|].
  specialize (Hf x s). destruct (f x s) as [s1 k]. simpl in *. subst k. apply IH.
Qed.

Lemma processSSEEvent_normal (now type data : string) (s : App) :
  (processSSEEvent now type data s).2 = None.
Proof.
  unfold processSSEEvent, try_catch.
  destruct (String.eqb type "step_update"); [|done].
  by destruct (step_update_body now data s) as [s' [e|]].
Qed.

Lemma dispatch_normal (now : string) (c : Conn) : (dispatch now c).2 = None.
Proof.
  unfold dispatch. destruct (JS.truthy (eventType c) && JS.truthy (eventData c)); [|done].
  pose proof (processSSEEvent_normal now (eventType c) (eventData c) (ui c)) as H.
  by destruct (processSSEEvent now (eventType c) (eventData c) (ui c)).
Qed.

Lemma process_line_normal (now line : string) (c : Conn) :
  (process_line now line c).2 = None.
Proof.
  unfold process_line. pose proof (dispatch_normal now c) as H.
  destruct (dispatch now c) as [c1 k]. simpl in H. subst k.
  repeat case_match; done.
Qed.

Lemma feed_normal (now : string) (value : list ascii) (c : Conn) :
  (feed now value c).2 = None.
Proof.
  unfold feed. destruct (Utf8.decode (decoder c) value) as [d text].
  rewrite for_of_normal by apply process_line_normal. done.
Qed.

Lemma read_loop_completion (now : string) (chunks : list (list ascii)) (fin : stream_end)
    (c : Conn) :
  (read_loop now chunks fin c).2 =
    match fin with Done => None | ReadFails name => Some name end.
Proof.
  unfold read_loop. rewrite for_of_normal by apply feed_normal. by destruct fin.
Qed.

Lemma connectStream_normal (now : string) (r : fetch_result) (s : App) :
  (connectStream now r s).2 = None.
Proof.
  unfold connectStream, try_catch.
  destruct r as [name|[|] [[chunks fin]|]]; simpl; try done.
  - by destruct (String.eqb name "AbortError").
  - pose proof (read_loop_completion now chunks fin
                  (with_ui (set_connected true) (init_conn s))) as H.
    destruct (read_loop now chunks fin _) as [c1 k]. simpl in H. subst k.
    destruct fin as [|name]; [done|]. by destruct (String.eqb name "AbortError").
Qed.

Lemma minimal_process_line_normal (now line : string) (c : Minimal.Conn) :
  (Minimal.process_line now line c).2 = None.
Proof.
  unfold Minimal.process_line, try_catch.
  destruct (JS.startsWith "data:" line); [|done].
  by destruct (JsonParse.parse _).
Qed.

Lemma process_line_blank (now : string) (c : Conn) :
  process_line now "" c =
    if JS.truthy (eventType c) && JS.truthy (eventData c) then
      match dispatch now c with
      | (c1, None) => (set_fields "" "" c1, None)
      | (c1, Some e) => (c1, Some e)
      end
    else (c, None).
Proof. reflexivity. Qed.

(** C8.  A record whose data does not parse as JSON is dropped: handling
    it leaves the application state (queue, timer, tasks) as it was and
    completes normally; at the blank line that ends such a record the line
    loop goes on with the remaining lines, the application state untouched;
    [connectStream] itself never ends with an exception, whatever arrives.
    The minimal page ignores such a data line in the same way. *)
Theorem malformed_json_is_dropped (now type data : string) :
  JsonParse.parse data = None →
  (∀ s, processSSEEvent now type data s = (s, None)) ∧
  (∀ c rest, eventType c = type → eventData c = data →
     ∃ c', for_of (process_line now) ("" :: rest) c = for_of (process_line now) rest c' ∧
           ui c' = ui c ∧ buffer c' = buffer c ∧ decoder c' = decoder c) ∧
  (∀ r s, (connectStream now r s).2 = None) ∧
  (∀ line c, JS.startsWith "data:" line = true → Text.trim (JS.slice 5 line) = data →
     Minimal.process_line now line c = (c, None)) ∧
  (∀ line c, (Minimal.process_line now line c).2 = None).
Proof.
  intros Hbad.
  assert (∀ s, processSSEEvent now type data s = (s, None)) as Hdrop.
  { intros s. unfold processSSEEvent, try_catch, step_update_body. rewrite Hbad.
    by destruct (String.eqb type "step_update"). }
  split; [done|]. split; [|split; [|split]].
  - intros c rest Hty Hda. cbn [for_of]. rewrite process_line_blank.
    unfold dispatch. rewrite Hty, Hda.
    destruct (JS.truthy type && JS.truthy data) eqn:Hboth.
    + rewrite Hdrop. eexists. split; [done|]. done.
    + exists c. done.
  - intros r s. apply connectStream_normal.
  - intros line c Hstart Htrim. unfold Minimal.process_line, try_catch.
    by rewrite Hstart, Htrim, Hbad.
  - intros line c. apply minimal_process_line_normal.
Qed.

Lemma malformed_json_is_dropped_witness :
  processSSEEvent "2025-01-01T00:00:00.000Z" "step_update" "{events: [" init_app
    = (init_app, None).
Proof.
  apply (malformed_json_is_dropped "2025-01-01T00:00:00.000Z" "step_update" "{events: [").
  vm_compute. reflexivity.
Defined.

(** ** Stream reader: framing does not depend on chunk boundaries *)

Lemma decode_app (st : Utf8.state) (a b : list ascii) :
  Utf8.decode st (a ++ b) =
    let '(st1, out1) := Utf8.decode st a in
    let '(st2, out2) := Utf8.decode st1 b in
    (st2, out1 ++ out2).
Proof.
  revert st. induction a as [|x a IH]; intros st; simpl.
  - by destruct (Utf8.decode st b).
  - destruct (Utf8.step st x) as [st1 out1]. rewrite IH.
    destruct (Utf8.decode st1 a) as [st2 out2].
    destruct (Utf8.decode st2 b) as [st3 out3].
    by rewrite (assoc_L (++)).
Qed.

Lemma string_app_cons (c : ascii) (a b : string) :
  String c a +:+ b = String c (a +:+ b).
Proof. reflexivity. Qed.

Lemma string_of_list_ascii_app (a b : list ascii) :
  string_of_list_ascii (a ++ b) = string_of_list_ascii a +:+ string_of_list_ascii b.
Proof.
  induction a as [|x a IH]; [done|].
  cbn [app string_of_list_ascii]. by rewrite string_app_cons, IH.
Qed.

Lemma string_app_assoc (a b c : string) : (a +:+ b) +:+ c = a +:+ (b +:+ c).
Proof.
  induction a as [|x a IH]; [done|]. by rewrite !string_app_cons, IH.
Qed.

Lemma split_nonempty (s : string) : Text.split s ≠ [].
Proof.
  destruct s as [|c r]; simpl; [done|].
  destruct (Ascii.eqb c Text.newline); [done|]. by destruct (Text.split r).
Qed.

(** Splitting a text that is continued later: the finished lines stay, the
    unfinished last one is continued. *)
Lemma split_app (u v : string) :
  Text.split (u +:+ v) =
    removelast (Text.split u) ++ Text.split (List.last (Text.split u) "" +:+ v).
Proof.
  induction u as [|c r IH]; [done|].
  pose proof (split_nonempty r) as Hne.
  rewrite string_app_cons. cbn [Text.split]. rewrite IH.
  destruct (Ascii.eqb c Text.newline) eqn:E.
  - by destruct (Text.split r) as [|f m].
  - destruct (Text.split r) as [|f [|x m]]; [done| |done].
    cbn [removelast List.last app]. rewrite string_app_cons.
    cbn [Text.split]. by rewrite E.
Qed.

Lemma dispatch_rebuf (now : string) (d : Utf8.state) (b : string) (c : Conn) :
  dispatch now (rebuf d b c) = ((rebuf d b (dispatch now c).1), (dispatch now c).2).
Proof.
  unfold dispatch, rebuf. cbn [eventType eventData ui records decoder buffer].
  destruct (JS.truthy (eventType c) && JS.truthy (eventData c)); [|done].
  by destruct (processSSEEvent now (eventType c) (eventData c) (ui c)) as [s' k].
Qed.

Lemma process_line_rebuf (now line : string) (d : Utf8.state) (b : string) (c : Conn) :
  (process_line now line (rebuf d b c)).1 = rebuf d b (process_line now line c).1.
Proof.
  unfold process_line. rewrite dispatch_rebuf.
  destruct (dispatch now c) as [c1 [e|]];
    destruct (JS.startsWith "event:" line); try done;
    destruct (JS.startsWith "data:" line); try done;
    destruct (String.eqb line ""); try done;
    cbn [rebuf eventType eventData];
    destruct (JS.truthy (eventType c) && JS.truthy (eventData c)); done.
Qed.

Lemma run_lines_rebuf (now : string) (lines : list string) (d : Utf8.state) (b : string)
    (c : Conn) :
  run_lines now lines (rebuf d b c) = rebuf d b (run_lines now lines c).
Proof.
  unfold run_lines. revert c.
  induction lines as [|line lines IH]; intros c; simpl; [done|].
  by rewrite process_line_rebuf, IH.
Qed.

Lemma feed_unfold (now : string) (value : list ascii) (c : Conn) :
  (feed now value c).1 =
    rebuf (Utf8.decode (decoder c) value).1
      (List.last (Text.split (buffer c +:+ string_of_list_ascii
                                (Utf8.decode (decoder c) value).2)) "")
      (run_lines now
         (removelast (Text.split (buffer c +:+ string_of_list_ascii
                                    (Utf8.decode (decoder c) value).2))) c).
Proof.
  unfold feed. destruct (Utf8.decode (decoder c) value) as [d text]. simpl.
  rewrite for_of_normal by apply process_line_normal. simpl.
  apply (run_lines_rebuf now _ d _ c).
Qed.

Lemma last_app_nonempty {A : Type} (l1 l2 : list A) (d : A) :
  l2 ≠ [] → List.last (l1 ++ l2) d = List.last l2 d.
Proof.
  intros Hne. induction l1 as [|x l1 IH]; [done|].
  simpl. rewrite IH. destruct (l1 ++ l2) eqn:E; [|done].
  apply app_eq_nil in E as [_ ?]. done.
Qed.

(** Two reads deliver what one read of the joined bytes delivers. *)
Lemma feed_app (now : string) (a b : list ascii) (c : Conn) :
  (feed now b (feed now a c).1).1 = (feed now (a ++ b) c).1.
Proof.
  rewrite (feed_unfold now (a ++ b) c), (feed_unfold now b), (feed_unfold now a c).
  rewrite decode_app.
  destruct (Utf8.decode (decoder c) a) as [d1 t1]. simpl.
  destruct (Utf8.decode d1 b) as [d2 t2]. simpl.
  rewrite string_of_list_ascii_app, <- string_app_assoc.
  rewrite (split_app (buffer c +:+ string_of_list_ascii t1) (string_of_list_ascii t2)).
  set (lines1 := Text.split (buffer c +:+ string_of_list_ascii t1)).
  set (lines2 := Text.split (List.last lines1 "" +:+ string_of_list_ascii t2)).
  assert (lines2 ≠ []) as Hne by apply split_nonempty.
  rewrite last_app_nonempty by done.
  rewrite removelast_app by done.
  rewrite run_lines_rebuf. unfold run_lines at 3. rewrite fold_left_app. done.
Qed.

Lemma feed_chunks (now : string) (first : list ascii) (rest : list (list ascii)) (c : Conn) :
  fold_left (λ c' v, (feed now v c').1) rest (feed now first c).1
    = (feed now (first ++ concat rest) c).1.
Proof.
  revert first. induction rest as [|v rest IH]; intros first; simpl.
  - by rewrite app_nil_r.
  - rewrite feed_app, IH. by rewrite (assoc_L (++)).
Qed.

(** Any splitting of a non-empty byte sequence into reads leaves the
    reader where a single read of the whole sequence leaves it. *)
Lemma read_loop_chunking (now : string) (chunks : list (list ascii)) (c : Conn) :
  concat chunks ≠ [] →
  read_loop now chunks Done c = ((feed now (concat chunks) c).1, None).
Proof.
  intros Hne. unfold read_loop. rewrite for_of_normal by apply feed_normal.
  f_equal. destruct chunks as [|v rest]; [done|]. simpl. apply feed_chunks.
Qed.

(** C3.  However the bytes [event: step_update\ndata: {"a":1}\n\n] are
    split into successive reads, the read loop ends normally having handed
    over exactly one record, of type [step_update] and with data
    [{"a":1}], which parses to the object with the one member [a = 1]; no
    partial line and no half-read character is left behind. *)
Theorem framing_is_chunking_invariant
    (now : string) (chunks : list (list ascii)) (s : App) :
  concat chunks = list_ascii_of_string sample_stream →
  ∃ c, read_loop now chunks Done (init_conn s) = (c, None) ∧
       records c = [("step_update", sample_payload)] ∧
       JsonParse.parse sample_payload = Some (JObj [("a", JNum "1")]) ∧
       buffer c = "" ∧ Utf8.held (decoder c) = [] ∧
       eventType c = "" ∧ eventData c = "" ∧ ui c = s ∧
       (∀ (bytes : list ascii) (parts : list (list ascii)) (c0 : Conn),
          concat parts = bytes → bytes ≠ [] →
          read_loop now parts Done c0 = read_loop now [bytes] Done c0).
Proof.
  intros Hbytes. eexists. split_and!.
  - apply read_loop_chunking. rewrite Hbytes. by vm_compute.
  - rewrite Hbytes. by vm_compute.
  - by vm_compute.
  - rewrite Hbytes. by vm_compute.
  - rewrite Hbytes. by vm_compute.
  - rewrite Hbytes. by vm_compute.
  - rewrite Hbytes. by vm_compute.
  - rewrite Hbytes. by vm_compute.
  - intros bytes parts c0 <- Hne.
    assert (concat [concat parts] = concat parts) as Hone
      by (cbn [concat]; apply app_nil_r).
    rewrite (read_loop_chunking now parts c0 Hne).
    rewrite (read_loop_chunking now [concat parts] c0) by (by rewrite Hone).
    by rewrite Hone.
Qed.

Lemma framing_is_chunking_invariant_witness :
  ∃ c, read_loop "2025-01-01T00:00:00.000Z" sample_chunks Done (init_conn init_app)
         = (c, None) ∧
       records c = [("step_update", sample_payload)].
Proof.
  destruct (framing_is_chunking_invariant "2025-01-01T00:00:00.000Z" sample_chunks init_app)
    as (c & Hrun & Hrec & _).
  - vm_compute. reflexivity.
  - exists c. split; [exact Hrun | exact Hrec].
Defined.

(** ** Proxy client *)

Lemma generated_id_nonempty (now : N) (rand : string) :
  Proxy.generateInteractionId now rand ≠ "".
Proof. unfold Proxy.generateInteractionId. simpl. discriminate. Qed.

Lemma ensure_interaction_id_spec (now : N) (rand : string) (r : Proxy.ChatRequest) :
  tagged_for_billing now rand false r (Proxy.ensure_interaction_id now rand r).
Proof.
  unfold tagged_for_billing, Proxy.ensure_interaction_id.
  destruct r as [mo ms te mt st [[iid ot]|]]; simpl.
  - destruct iid as [|ch iid]; simpl.
    + split; [|done]. eexists; split; [done|]. simpl.
      split; [apply generated_id_nonempty|done].
    + split; [|done]. eexists; split; [done|]. simpl. done.
  - split; [|done]. eexists; split; [done|]. simpl.
    split; [apply generated_id_nonempty|done].
Qed.

Lemma string_of_uint_digits (d : Decimal.uint) :
  all_digits (NilEmpty.string_of_uint d).
Proof.
  unfold all_digits. induction d; simpl; constructor; done.
Qed.

Lemma digits_then_underscore (d1 d2 r1 r2 : string) :
  all_digits d1 → all_digits d2 →
  d1 +:+ String "_" r1 = d2 +:+ String "_" r2 → d1 = d2 ∧ r1 = r2.
Proof.
  unfold all_digits. revert d2.
  induction d1 as [|a d1 IH]; intros [|b d2] H1 H2 Heq.
  - by injection Heq as ->.
  - exfalso. rewrite string_app_cons in Heq. injection Heq as <- _.
    simpl in H2. by apply Forall_cons in H2 as [H2 _].
  - exfalso. rewrite string_app_cons in Heq. injection Heq as -> _.
    simpl in H1. by apply Forall_cons in H1 as [H1 _].
  - rewrite !string_app_cons in Heq. injection Heq as -> Heq.
    simpl in H1, H2. apply Forall_cons in H1 as [_ H1]. apply Forall_cons in H2 as [_ H2].
    destruct (IH d2 H1 H2 Heq) as [-> ->]. done.
Qed.

Lemma toString_inj (n m : N) : Num.toString n = Num.toString m → n = m.
Proof.
  intros H. pose proof (parseInt_toString n) as Hn. rewrite H, parseInt_toString in Hn.
  injection Hn. lia.
Qed.

(** The generated id tells the time and the random part it was made
    from. *)
Lemma generateInteractionId_inj (now now' : N) (rand rand' : string) :
  Proxy.generateInteractionId now rand = Proxy.generateInteractionId now' rand' →
  now = now' ∧ rand = rand'.
Proof.
  intros Heq. unfold Proxy.generateInteractionId in Heq.
  rewrite !string_app_cons in Heq. injection Heq as Heq.
  change ("" +:+ ?x) with x in Heq.
  change ("_" +:+ ?x) with (String "_" x) in Heq.
  apply digits_then_underscore in Heq as [Hn Hr];
    [|apply string_of_uint_digits..].
  apply toString_inj in Hn. done.
Qed.

Lemma generated_id_is_sent (c : Proxy.Client) (now : N) (rand : string)
    (request : Proxy.ChatRequest) :
  JS.truthy_opt (Proxy.interaction_id <$> Proxy.metadata request) = false →
  Proxy.interaction_id <$> Proxy.metadata (Proxy.body (Proxy.chat c now rand request))
    = Some (Proxy.generateInteractionId now rand) ∧
  Proxy.interaction_id <$> Proxy.metadata (Proxy.body (Proxy.chatStream c now rand request))
    = Some (Proxy.generateInteractionId now rand).
Proof.
  intros Hnone. unfold Proxy.chat, Proxy.chatStream, Proxy.ensure_interaction_id.
  rewrite Hnone. done.
Qed.

(** C9.  The body of every request sent by [chat] and by [chatStream]
    carries a non-empty [metadata.interaction_id]: the caller's own id and
    metadata unchanged when the caller supplied a non-empty id, a generated
    id otherwise, with all other metadata fields kept.  The generated id
    is fresh: it is the text [int_], the time in decimal, [_] and the
    random part, so two requests that come without an id and are sent at
    different times, or with different random parts, are sent with
    different ids. *)
Theorem chat_requests_carry_interaction_id
    (c : Proxy.Client) (now : N) (rand : string) (request : Proxy.ChatRequest) :
  tagged_for_billing now rand false request (Proxy.body (Proxy.chat c now rand request)) ∧
  tagged_for_billing now rand true request (Proxy.body (Proxy.chatStream c now rand request)) ∧
  (JS.truthy_opt (Proxy.interaction_id <$> Proxy.metadata request) = false →
   Proxy.interaction_id <$> Proxy.metadata (Proxy.body (Proxy.chat c now rand request))
     = Some ("int_" +:+ Num.toString now +:+ "_" +:+ rand) ∧
   Proxy.interaction_id <$> Proxy.metadata (Proxy.body (Proxy.chatStream c now rand request))
     = Some ("int_" +:+ Num.toString now +:+ "_" +:+ rand) ∧
   ∀ (c' : Proxy.Client) (now' : N) (rand' : string) (request' : Proxy.ChatRequest),
     JS.truthy_opt (Proxy.interaction_id <$> Proxy.metadata request') = false →
     now ≠ now' ∨ rand ≠ rand' →
     Proxy.interaction_id <$> Proxy.metadata (Proxy.body (Proxy.chat c now rand request))
       ≠ Proxy.interaction_id <$>
           Proxy.metadata (Proxy.body (Proxy.chat c' now' rand' request')) ∧
     Proxy.interaction_id <$>
         Proxy.metadata (Proxy.body (Proxy.chatStream c now rand request))
       ≠ Proxy.interaction_id <$>
           Proxy.metadata (Proxy.body (Proxy.chatStream c' now' rand' request'))).
Proof.
  split; [apply ensure_interaction_id_spec|]. split.
  - pose proof (ensure_interaction_id_spec now rand request) as (Hm & H1 & H2 & H3 & H4 & _).
    unfold Proxy.chatStream; simpl. repeat split; try done.
  - intros Hnone. destruct (generated_id_is_sent c now rand request Hnone) as [Hc Hs].
    split; [exact Hc|]. split; [exact Hs|].
    intros c' now' rand' request' Hnone' Hdiff.
    destruct (generated_id_is_sent c' now' rand' request' Hnone') as [Hc' Hs'].
    rewrite Hc, Hs, Hc', Hs'.
    split; intros Heq; apply (inj Some) in Heq;
      apply generateInteractionId_inj in Heq as [-> ->];
      by destruct Hdiff.
Qed.

Lemma chat_requests_carry_interaction_id_witness :
  Proxy.interaction_id <$>
    Proxy.metadata (Proxy.body (Proxy.chat (Proxy.createProxyClient "g-42")
                                  1700000000000%N "k3j9x0a1b" sample_request))
    = Some "int_1700000000000_k3j9x0a1b" ∧
  Proxy.interaction_id <$>
    Proxy.metadata (Proxy.body (Proxy.chat (Proxy.createProxyClient "g-42")
                                  1700000000000%N "k3j9x0a1b" sample_request))
    ≠ Proxy.interaction_id <$>
        Proxy.metadata (Proxy.body (Proxy.chat (Proxy.createProxyClient "g-42")
                                      1700000000001%N "k3j9x0a1b" sample_request)).
Proof.
  destruct (chat_requests_carry_interaction_id (Proxy.createProxyClient "g-42")
              1700000000000%N "k3j9x0a1b" sample_request) as (_ & _ & Hfresh).
  destruct (Hfresh eq_refl) as (Hid & _ & Hother).
  split; [exact Hid|].
  apply (Hother (Proxy.createProxyClient "g-42") 1700000000001%N "k3j9x0a1b" sample_request).
  - reflexivity.
  - left. discriminate.
Defined.

(** * Further properties *)

(** ** Aggregator: invariants of the task map *)

Lemma tidy_empty : tidy empty_agg.
Proof.
  split; [apply wf_empty|]. split; [|by constructor].
  intros tid l H. simpl in H. by rewrite lookup_empty in H.
Qed.

Lemma distinct_snoc (ids : list json) (h : json) :
  distinct ids → Forall (λ x, Value.strict_eq x h = false) ids →
  distinct (ids ++ [h]).
Proof.
  intros Hd Hnew i j x y Hi Hj Heq.
  destruct (decide (i < length ids)%nat) as [Hil|Hil],
           (decide (j < length ids)%nat) as [Hjl|Hjl].
  - rewrite lookup_app_l in Hi, Hj by done. by eapply Hd.
  - rewrite lookup_app_l in Hi by done. rewrite lookup_app_r in Hj by lia.
    destruct (j - length ids)%nat; [|done]. simpl in Hj. simplify_eq.
    apply list_elem_of_lookup_2 in Hi.
    pose proof (proj1 (Forall_forall _ _) Hnew x Hi) as Hx. simpl in Hx. congruence.
  - rewrite lookup_app_l in Hj by done. rewrite lookup_app_r in Hi by lia.
    destruct (i - length ids)%nat; [|done]. simpl in Hi. simplify_eq.
    apply list_elem_of_lookup_2 in Hj.
    pose proof (proj1 (Forall_forall _ _) Hnew y Hj) as Hy. simpl in Hy.
    rewrite strict_eq_sym in Heq. congruence.
  - apply lookup_lt_Some in Hi, Hj. rewrite length_app in Hi, Hj. simpl in *. lia.
Qed.

Lemma touch_keeps_ids_tidy (e : StageEvent) (h : json) (t : TrackedTask) :
  Value.truthy (Some h) = true →
  distinct (thought_ids t) ∧ Forall (λ v, Value.truthy (Some v) = true) (thought_ids t) →
  distinct (thought_ids (touch e h t)) ∧
  Forall (λ v, Value.truthy (Some v) = true) (thought_ids (touch e h t)).
Proof.
  intros Hne [Hnd Hall]. rewrite touch_thought_ids.
  destruct (find_thought h (thoughts t)) as [i|] eqn:E; [done|].
  split.
  - apply distinct_snoc; [done|].
    pose proof (find_thought_None_notin _ _ E) as Hnot.
    unfold thought_ids. by apply Forall_fmap.
  - apply Forall_app. split; [done|]. by repeat constructor.
Qed.

Lemma tidy_apply_event (a : Aggregator) (e : StageEvent) :
  tidy a → tidy (apply_event a e).
Proof.
  intros (Hwf & Hkeys & Hheap).
  destruct (reaches e a) eqn:Hr; [|by rewrite step_unreached].
  split; [by apply wf_apply_event|].
  unfold reaches in Hr. apply andb_true_iff in Hr as [Hacc Hr].
  destruct (accepted_ids e Hacc) as (_ & _ & Hth & Hta).
  destruct (get_task (task_id_of e) a) as [l|] eqn:Hl.
  - rewrite (apply_event_existing a e l) by done. simpl. split; [done|].
    apply Forall_alter; [done|]. intros t _ Ht. by apply touch_keeps_ids_tidy.
  - simpl in Hr. rewrite apply_event_fresh by done. simpl. split.
    + intros s l Hin. apply lookup_insert_Some in Hin as [[Hk _]|[_ Hin]]; [|eauto].
      unfold new_key in Hk. destruct (task_id_of e); try done. intros ->. by simplify_eq.
    + apply Forall_app. split; [done|]. constructor; [|constructor].
      apply touch_keeps_ids_tidy; [done|]. split; [|constructor].
      intros i j x y Hi. done.
Qed.

Lemma tidy_effects (batch : list StageEvent) (a : Aggregator) :
  tidy a → tidy (effects batch a).
Proof.
  unfold effects. revert a.
  induction batch as [|e batch IH]; intros a Ht; simpl; [done|].
  apply IH. by apply tidy_apply_event.
Qed.

Lemma tidy_apply_batch (batch : list StageEvent) (a : Aggregator) :
  tidy a → tidy (apply_batch batch a).
Proof.
  intros Ht. pose proof (tidy_effects (executed batch a) a Ht) as (Hwf' & Hkeys' & Hheap').
  destruct Ht as (Hwf & Hkeys & Hheap).
  split; [by apply wf_apply_batch|]. rewrite apply_batch_heap. split; [|done].
  destruct (apply_batch_tasks batch a) as [-> | ->]; done.
Qed.

Lemma tidy_apply_batches (batches : list (list StageEvent)) (a : Aggregator) :
  tidy a → tidy (apply_batches batches a).
Proof.
  unfold apply_batches. revert a.
  induction batches as [|b bs IH]; intros a Ht; simpl; [done|].
  apply IH. by apply tidy_apply_batch.
Qed.

Lemma task_at_Some (a : Aggregator) (k : key) (t : TrackedTask) :
  task_at a k = Some t → ∃ l, tasks a !! k = Some l ∧ heap a !! l = Some t.
Proof.
  unfold task_at, view. destruct (tasks a !! k) as [l|]; [|done]. eauto.
Qed.

(** X1.  In every state built from the empty map by flushes, whether
    their updaters returned or threw, the task stored under a string
    carries that string as its [taskId], and the string is not empty; the
    task stored under an array reference carries an array. *)
Theorem task_map_keys_are_task_ids
    (batches : list (list StageEvent)) (k : key) (t : TrackedTask) :
  task_at (apply_batches batches empty_agg) k = Some t →
  match k with
  | inl tid => taskId t = JStr tid ∧ tid ≠ ""
  | inr _ => ∃ xs, taskId t = JArr xs
  end.
Proof.
  intros Ht.
  destruct (tidy_apply_batches batches empty_agg tidy_empty) as (Hwf & Hkeys & _).
  destruct (task_at_Some _ _ _ Ht) as (l & Hl & Hh).
  destruct (Hwf k l Hl) as (t' & Ht' & Hid). simplify_eq.
  destruct k as [tid|n]; simpl in Hid.
  - split; [done|by eapply Hkeys].
  - by destruct Hid.
Qed.

Lemma task_map_keys_are_task_ids_witness :
  ∃ t, task_of (apply_batches [[ev_start; ev_context]; [ev_done]] empty_agg) "T1" = Some t ∧
       taskId t = JStr "T1" ∧ "T1" ≠ "".
Proof.
  eexists. split; [by vm_compute|].
  eapply (task_map_keys_are_task_ids [[ev_start; ev_context]; [ev_done]] (inl "T1")).
  by vm_compute.
Defined.

(** X2.  In every state built from the empty map by flushes, the
    thoughts of a task have ids that are truthy and pairwise different
    under [===]: [find] can never be ambiguous, and no id that is compared
    by value (a string, a number) is stored twice. *)
Theorem thought_ids_are_distinct
    (batches : list (list StageEvent)) (k : key) (t : TrackedTask) :
  task_at (apply_batches batches empty_agg) k = Some t →
  distinct (thought_ids t) ∧
  Forall (λ v, Value.truthy (Some v) = true) (thought_ids t) ∧
  (∀ i j v, thought_ids t !! i = Some v → thought_ids t !! j = Some v →
            primitive v = true → i = j) ∧
  JStr "" ∉ thought_ids t.
Proof.
  intros Ht.
  destruct (tidy_apply_batches batches empty_agg tidy_empty) as (_ & _ & Hheap).
  destruct (task_at_Some _ _ _ Ht) as (l & Hl & Hh).
  apply list_elem_of_lookup_2 in Hh.
  destruct (proj1 (Forall_forall _ _) Hheap t Hh) as [Hnd Hne].
  split; [done|]. split; [done|]. split.
  - intros i j v Hi Hj Hp. apply (Hnd i j v v Hi Hj). by apply strict_eq_refl.
  - intros Hin. pose proof (proj1 (Forall_forall _ _) Hne _ Hin) as Hx. done.
Qed.

Lemma thought_ids_are_distinct_witness :
  ∃ t, task_of (apply_batches [[ev_start; ev_context]; [ev_done]] empty_agg) "T1" = Some t ∧
       distinct (thought_ids t).
Proof.
  eexists. split; [by vm_compute|].
  eapply (thought_ids_are_distinct [[ev_start; ev_context]; [ev_done]] (inl "T1")).
  by vm_compute.
Defined.

(** X3.  Events without a thought id or without a task id are ignored:
    a batch has the effect of its accepted events alone. *)
Theorem events_without_ids_are_ignored (batch : list StageEvent) (a : Aggregator) :
  apply_batch batch a = apply_batch (List.filter accepted batch) a.
Proof.
  unfold apply_batch.
  assert (∀ a0, for_of step batch a0 = for_of step (List.filter accepted batch) a0)
    as ->; [|done].
  induction batch as [|e batch IH]; intros a0; [done|].
  cbn [List.filter]. destruct (accepted e) eqn:Hacc.
  - rewrite !for_of_step_cons. destruct (step e a0).2; [done|apply IH].
  - rewrite for_of_step_cons. unfold apply_event. rewrite step_skipped by done.
    simpl. apply IH.
Qed.

(** ** Aggregator: what is stored *)

(** X4.  Last write wins: after a batch on which the updater returns,
    the stage stored under a name is the one built from the last accepted
    event of the batch that has that task id, that thought id and that
    name as a known stage name; without such an event the entry is what it
    was before. *)
Theorem last_write_wins
    (a : Aggregator) (batch : list StageEvent) (tid : string) (hid : json)
    (name : string) :
  wf a → returns batch a →
  stage_at (apply_batch batch a) tid hid name =
    match last_writer tid hid name batch with
    | Some e => Some (stage_of name e)
    | None => stage_at a tid hid name
    end.
Proof.
  intros Hwf Hret. rewrite apply_batch_returns by done. unfold last_writer.
  induction batch as [|e batch IH] using rev_ind; [done|].
  apply returns_app in Hret as [Hret He]. apply returns_cons in He as [He _].
  specialize (IH Hret).
  rewrite effects_app, rev_app_distr. simpl.
  change (effects [e] ?x) with (apply_event x e).
  pose proof (wf_effects batch a Hwf) as Hwf1.
  destruct (accepted e) eqn:Hacc; simpl.
  - rewrite stage_at_apply_event by (by try apply returned_reaches).
    by destruct (Value.is_string tid (ev_task_id e) && for_thought hid e
                 && bool_decide (known_stage (ev_event_type e) = Some name)).
  - rewrite apply_event_skipped by done. apply IH.
Qed.

Lemma last_write_wins_witness :
  stage_at (apply_batch [ev_start; ev_done; ev_start] agg_started)
           "T1" (JStr "H1") "thought_start"
    = match last_writer "T1" (JStr "H1") "thought_start" [ev_start; ev_done; ev_start] with
      | Some e => Some (stage_of "thought_start" e)
      | None => stage_at agg_started "T1" (JStr "H1") "thought_start"
      end.
Proof.
  apply (last_write_wins agg_started [ev_start; ev_done; ev_start]
           "T1" (JStr "H1") "thought_start").
  - apply wf_apply_batch, wf_empty.
  - reflexivity.
Defined.

(** X5.  Nothing is ever removed, whether the updater returns or throws:
    a task that the map shows before a batch is shown after it under the
    same key, with the same [taskId], description and [firstTimestamp],
    completed if it was; its list of thought ids has only grown at the
    end, and every thought it had still has every stage name it had. *)
Theorem tasks_only_grow
    (a : Aggregator) (batch : list StageEvent) (k : key) (t : TrackedTask) :
  wf a → task_at a k = Some t →
  ∃ t', task_at (apply_batch batch a) k = Some t' ∧
        taskId t' = taskId t ∧
        description t' = description t ∧
        firstTimestamp t' = firstTimestamp t ∧
        (completed t = true → completed t' = true) ∧
        thought_ids t `prefix_of` thought_ids t' ∧
        (∀ hid th, thought_at (thoughts t) hid = Some th →
           ∃ th', thought_at (thoughts t') hid = Some th' ∧
                  dom (stages th) ⊆ dom (stages th')).
Proof.
  intros Hwf Ht. destruct (task_at_apply_batch batch a k t Hwf Ht) as (t' & Ht' & Hg).
  exists t'. split; [done|]. exact Hg.
Qed.

Lemma tasks_only_grow_witness :
  ∃ t', task_at (apply_batch [ev_context; ev_numbered; ev_done] agg_started) (inl "T1")
          = Some t' ∧
        taskId t' = JStr "T1".
Proof.
  destruct (tasks_only_grow agg_started [ev_context; ev_numbered; ev_done] (inl "T1")
              (touched ev_start (new_task ev_start (JStr "T1"))))
    as (t' & Ht' & Hid & _).
  - apply wf_apply_batch, wf_empty.
  - by vm_compute.
  - exists t'. split; [exact Ht'|exact Hid].
Defined.

(** ** Event batcher *)

Lemma pending_enqueue_all (events : list StageEvent) (s : App) :
  pending (enqueue_all events s) = pending s ++ events ∧
  agg (enqueue_all events s) = agg s ∧
  sseConnected (enqueue_all events s) = sseConnected s.
Proof.
  unfold enqueue_all. revert s.
  induction events as [|e events IH]; intros s; simpl.
  - by rewrite app_nil_r.
  - destruct (IH (queueEvent e s)) as (-> & -> & ->). simpl.
    by rewrite <- (assoc_L (++)).
Qed.

(** X6.  While the updater returns, the batcher neither loses nor
    reorders events: one flush after any number of [queueEvent] calls
    applies everything queued, in the order queued, and empties the queue;
    flushing in between changes nothing in the tasks obtained; a flush of
    an empty queue changes nothing. *)
Theorem batcher_keeps_every_event (first second : list StageEvent) (s : App) :
  returns (pending s ++ first ++ second) (agg s) →
  agg (processBatchedEvents (enqueue_all first s))
    = effects (pending s ++ first) (agg s) ∧
  pending (processBatchedEvents (enqueue_all first s)) = [] ∧
  agg (processBatchedEvents
         (enqueue_all second (processBatchedEvents (enqueue_all first s))))
    = agg (processBatchedEvents (enqueue_all (first ++ second) s)) ∧
  agg (processBatchedEvents (enqueue_all (first ++ second) s))
    = effects (pending s ++ first ++ second) (agg s) ∧
  processBatchedEvents (processBatchedEvents s) = processBatchedEvents s.
Proof.
  intros Hret.
  assert (∀ s', agg (processBatchedEvents s') = apply_batch (pending s') (agg s') ∧
                pending (processBatchedEvents s') = []) as Hflush
    by apply processBatchedEvents_agg.
  pose proof Hret as Hret2. rewrite (assoc_L (++)) in Hret2.
  apply returns_app in Hret2 as [Hret1 Hret2].
  assert (agg (processBatchedEvents (enqueue_all first s))
          = effects (pending s ++ first) (agg s)) as Hfirst.
  { destruct (Hflush (enqueue_all first s)) as [-> _].
    destruct (pending_enqueue_all first s) as (-> & -> & _).
    by apply apply_batch_returns. }
  assert (agg (processBatchedEvents (enqueue_all (first ++ second) s))
          = effects (pending s ++ first ++ second) (agg s)) as Hall.
  { destruct (Hflush (enqueue_all (first ++ second) s)) as [-> _].
    destruct (pending_enqueue_all (first ++ second) s) as (-> & -> & _).
    by apply apply_batch_returns. }
  split_and!; [done|apply Hflush| |done|].
  - rewrite Hall.
    set (s1 := processBatchedEvents (enqueue_all first s)).
    destruct (Hflush (enqueue_all second s1)) as [-> _].
    destruct (pending_enqueue_all second s1) as (-> & -> & _).
    unfold s1. destruct (Hflush (enqueue_all first s)) as [_ ->]. rewrite Hfirst.
    rewrite app_nil_l, apply_batch_returns by done.
    by rewrite (assoc_L (++) (pending s)), (effects_app (pending s ++ first) second).
  - unfold processBatchedEvents. by destruct (pending s).
Qed.

Lemma batcher_keeps_every_event_witness :
  agg (processBatchedEvents
         (enqueue_all [ev_done] (processBatchedEvents (enqueue_all [ev_start] init_app))))
    = agg (processBatchedEvents (enqueue_all ([ev_start] ++ [ev_done]) init_app)).
Proof.
  apply (batcher_keeps_every_event [ev_start] [ev_done] init_app).
  reflexivity.
Defined.




(** ** [processSSEEvent] *)

Lemma for_of_queue_one (now : string) (events : list json) (s : App) :
  (for_of (queue_one now) events s).1 =
    enqueue_all (event_of_json now <$> until_null events) s.
Proof.
  revert s. induction events as [|ev events IH]; intros s; [done|].
  destruct ev; simpl; try done; apply IH.
Qed.

(** X7.  A [step_update] record only appends to the queue: the events of
    [update.events] are queued in order up to the first [null] element,
    which ends the loop silently (the elements after it are dropped), each
    with its fields as they were parsed, whatever their types; tasks and
    connection flag are untouched, and so is everything for a record of
    any other type. *)
Theorem step_update_queues_events_up_to_null
    (now type data : string) (update : json) (events : list json) (s : App) :
  JsonParse.parse data = Some update →
  Json.get "events" update = Some (JArr events) →
  processSSEEvent now "step_update" data s
    = (enqueue_all (event_of_json now <$> until_null events) s, None) ∧
  pending (processSSEEvent now "step_update" data s).1
    = pending s ++ (event_of_json now <$> until_null events) ∧
  Forall2 (λ ev e, ev_event_type e = Json.get "event_type" ev ∧
                   ev_thought_id e = Json.get "thought_id" ev ∧
                   ev_task_id e = Json.get "task_id" ev ∧
                   ev_data e = ev)
    (until_null events) (event_of_json now <$> until_null events) ∧
  agg (processSSEEvent now "step_update" data s).1 = agg s ∧
  sseConnected (processSSEEvent now "step_update" data s).1 = sseConnected s ∧
  (type ≠ "step_update" → processSSEEvent now type data s = (s, None)).
Proof.
  intros Hparse Hev.
  assert (processSSEEvent now "step_update" data s
          = (enqueue_all (event_of_json now <$> until_null events) s, None)) as Hrun.
  { unfold processSSEEvent, try_catch, step_update_body. simpl. rewrite Hparse.
    destruct update; try (simpl in Hev; done). rewrite Hev.
    pose proof (for_of_queue_one now events s) as H.
    destruct (for_of (queue_one now) events s) as [s' [k|]]; simpl in H; by subst. }
  rewrite Hrun. simpl.
  destruct (pending_enqueue_all (event_of_json now <$> until_null events) s)
    as (Hp & Ha & Hc).
  split_and!; try done.
  - apply Forall2_fmap_r, Forall_Forall2_diag, Forall_forall. done.
  - intros Hne. unfold processSSEEvent.
    by destruct (String.eqb_spec type "step_update").
Qed.

Lemma step_update_queues_events_up_to_null_witness :
  ev_thought_id <$> pending (processSSEEvent "2025-01-01T00:00:00.000Z" "step_update"
                               sample_update init_app).1 = [Some (JNum "7")] ∧
  processSSEEvent "2025-01-01T00:00:00.000Z" "keepalive" sample_update init_app
    = (init_app, None).
Proof.
  destruct (step_update_queues_events_up_to_null
              "2025-01-01T00:00:00.000Z" "keepalive" sample_update
              (JObj [("events",
                      JArr [JObj [("event_type", JStr "thought_start");
                                  ("thought_id", JNum "7"); ("task_id", JStr "T1")];
                            JNull;
                            JObj [("event_type", JStr "action_result");
                                  ("thought_id", JNum "7"); ("task_id", JStr "T1")]])])
              [JObj [("event_type", JStr "thought_start");
                     ("thought_id", JNum "7"); ("task_id", JStr "T1")];
               JNull;
               JObj [("event_type", JStr "action_result");
                     ("thought_id", JNum "7"); ("task_id", JStr "T1")]]
              init_app)
    as (_ & Hp & _ & _ & _ & Hother).
  - vm_compute. reflexivity.
  - reflexivity.
  - split; [rewrite Hp; reflexivity | apply Hother; discriminate].
Defined.

(** ** Stream reader of the interact page *)

Lemma split_lines_no_newline (s line : string) :
  line ∈ Text.split s → no_newline line.
Proof.
  unfold no_newline. revert line.
  induction s as [|c r IH]; intros line Hin.
  - apply list_elem_of_singleton in Hin as ->. simpl. apply not_elem_of_nil.
  - pose proof (split_nonempty r) as Hne. cbn [Text.split] in Hin.
    destruct (Ascii.eqb c Text.newline) eqn:E.
    + apply elem_of_cons in Hin as [->|Hin]; [simpl; apply not_elem_of_nil|by apply IH].
    + destruct (Text.split r) as [|first more]; [done|].
      apply elem_of_cons in Hin as [->|Hin].
      * simpl. apply not_elem_of_cons. split.
        -- intros <-. by rewrite Ascii.eqb_refl in E.
        -- apply IH. apply elem_of_cons. by left.
      * apply IH. apply elem_of_cons. by right.
Qed.

Lemma last_elem_of {A : Type} (l : list A) (d : A) : l ≠ [] → List.last l d ∈ l.
Proof.
  induction l as [|x [|y l] IH]; intros Hne; [done| |].
  - simpl. apply elem_of_cons. by left.
  - apply elem_of_cons. right. by apply IH.
Qed.

(** X8.  After every read the carried-over [buffer] holds no line feed:
    the reader keeps only the unfinished last line, whatever the state it
    started from and whatever bytes arrived. *)
Theorem buffer_holds_no_newline (now : string) (value : list ascii) (c : Conn) :
  no_newline (buffer (feed now value c).1).
Proof.
  rewrite feed_unfold. cbn [buffer rebuf].
  eapply split_lines_no_newline, last_elem_of, split_nonempty.
Qed.

Lemma dispatch_records (now : string) (c : Conn) :
  Forall (λ r, r.1 ≠ "" ∧ r.2 ≠ "") (records c) →
  Forall (λ r, r.1 ≠ "" ∧ r.2 ≠ "") (records (dispatch now c).1) ∧
  sseConnected (ui (dispatch now c).1) = sseConnected (ui c) ∧
  agg (ui (dispatch now c).1) = agg (ui c).
Proof.
  intros Hrec. unfold dispatch.
  destruct (JS.truthy (eventType c)) eqn:Ht; [|done].
  destruct (JS.truthy (eventData c)) eqn:Hd; [|done]. simpl.
  assert (sseConnected (processSSEEvent now (eventType c) (eventData c) (ui c)).1
            = sseConnected (ui c) ∧
          agg (processSSEEvent now (eventType c) (eventData c) (ui c)).1 = agg (ui c))
    as Hui.
  { unfold processSSEEvent, try_catch, step_update_body.
    destruct (String.eqb (eventType c) "step_update"); [|done].
    destruct (JsonParse.parse (eventData c)) as [[]|]; try done.
    destruct (Json.get "events" _) as [[]|]; try done.
    pose proof (for_of_queue_one now xs (ui c)) as H.
    destruct (pending_enqueue_all (event_of_json now <$> until_null xs) (ui c))
      as (_ & Ha & Hs).
    destruct (for_of (queue_one now) xs (ui c)) as [s' [k|]]; simpl in *; by subst. }
  destruct (processSSEEvent now (eventType c) (eventData c) (ui c)) as [s' k].
  simpl in *. split; [|done].
  apply Forall_app. split; [done|]. constructor; [|constructor]. simpl.
  by destruct (eventType c), (eventData c).
Qed.

Lemma process_line_records (now line : string) (c : Conn) :
  Forall (λ r, r.1 ≠ "" ∧ r.2 ≠ "") (records c) →
  Forall (λ r, r.1 ≠ "" ∧ r.2 ≠ "") (records (process_line now line c).1) ∧
  sseConnected (ui (process_line now line c).1) = sseConnected (ui c) ∧
  agg (ui (process_line now line c).1) = agg (ui c).
Proof.
  intros Hrec. pose proof (dispatch_records now c Hrec) as Hd.
  pose proof (dispatch_normal now c) as Hn.
  unfold process_line. destruct (dispatch now c) as [c1 k]. simpl in Hd, Hn. subst k.
  destruct (JS.startsWith "event:" line); [done|].
  destruct (JS.startsWith "data:" line); [done|].
  destruct (String.eqb line ""); [|done].
  by destruct (JS.truthy (eventType c) && JS.truthy (eventData c)).
Qed.

Lemma run_lines_records (now : string) (lines : list string) (c : Conn) :
  Forall (λ r, r.1 ≠ "" ∧ r.2 ≠ "") (records c) →
  Forall (λ r, r.1 ≠ "" ∧ r.2 ≠ "") (records (run_lines now lines c)) ∧
  sseConnected (ui (run_lines now lines c)) = sseConnected (ui c) ∧
  agg (ui (run_lines now lines c)) = agg (ui c).
Proof.
  unfold run_lines. revert c.
  induction lines as [|line lines IH]; intros c Hrec; simpl; [done|].
  destruct (process_line_records now line c Hrec) as (H1 & H2 & H3).
  destruct (IH _ H1) as (H4 & H5 & H6). split; [done|]. split; congruence.
Qed.

Lemma run_chunks_records (now : string) (chunks : list (list ascii)) (c : Conn) :
  Forall (λ r, r.1 ≠ "" ∧ r.2 ≠ "") (records c) →
  Forall (λ r, r.1 ≠ "" ∧ r.2 ≠ "") (records (run_chunks now chunks c)) ∧
  sseConnected (ui (run_chunks now chunks c)) = sseConnected (ui c) ∧
  agg (ui (run_chunks now chunks c)) = agg (ui c).
Proof.
  unfold run_chunks. revert c.
  induction chunks as [|v chunks IH]; intros c Hrec; simpl; [done|].
  assert (Forall (λ r, r.1 ≠ "" ∧ r.2 ≠ "") (records (feed now v c).1) ∧
          sseConnected (ui (feed now v c).1) = sseConnected (ui c) ∧
          agg (ui (feed now v c).1) = agg (ui c)) as (H1 & H2 & H3).
  { rewrite feed_unfold. cbn [records ui rebuf]. by apply run_lines_records. }
  destruct (IH _ H1) as (H4 & H5 & H6). split; [done|]. split; congruence.
Qed.

Lemma read_loop_run_chunks (now : string) (chunks : list (list ascii)) (fin : stream_end)
    (c : Conn) :
  (read_loop now chunks fin c).1 = run_chunks now chunks c.
Proof.
  unfold read_loop. rewrite for_of_normal by apply feed_normal. by destruct fin.
Qed.

(** X9.  Every record handed to [processSSEEvent] during a connection
    has a non-empty type and non-empty data, and handing records over
    never changes the tasks: the stream only fills the queue. *)
Theorem dispatched_records_are_complete (now : string) (r : fetch_result) (s : App) :
  Forall (λ rec, rec.1 ≠ "" ∧ rec.2 ≠ "") (records (connectStream now r s).1) ∧
  agg (ui (connectStream now r s).1) = agg s.
Proof.
  unfold connectStream, try_catch.
  destruct r as [name|[|] [[chunks fin]|]]; simpl; try (split; [constructor|done]).
  - destruct (String.eqb name "AbortError"); simpl; split; (constructor || done).
  - pose proof (read_loop_run_chunks now chunks fin
                  (with_ui (set_connected true) (init_conn s))) as Hrun.
    pose proof (read_loop_completion now chunks fin
                  (with_ui (set_connected true) (init_conn s))) as Hk.
    destruct (run_chunks_records now chunks (with_ui (set_connected true) (init_conn s)))
      as (H1 & _ & H3); [constructor|].
    destruct (read_loop now chunks fin _) as [c1 k]. simpl in *. subst c1 k.
    destruct fin as [|name]; [done|].
    by destruct (String.eqb name "AbortError").
Qed.

(** X10.  The connection flag after [connectStream]: a failed [fetch] or
    a failed read clears it unless the error is an [AbortError]; a
    response that is not [ok] leaves it as it was; an [ok] response sets
    it, and it stays set when the stream ends normally. *)
Theorem connection_flag_after_connectStream (now : string) (r : fetch_result) (s : App) :
  sseConnected (ui (connectStream now r s).1) =
    match r with
    | FetchFails name => if String.eqb name "AbortError" then sseConnected s else false
    | Response false _ => sseConnected s
    | Response true None => true
    | Response true (Some (_, Done)) => true
    | Response true (Some (_, ReadFails name)) => String.eqb name "AbortError"
    end.
Proof.
  unfold connectStream, try_catch.
  destruct r as [name|[|] [[chunks fin]|]]; simpl; try done.
  - by destruct (String.eqb name "AbortError").
  - pose proof (read_loop_run_chunks now chunks fin
                  (with_ui (set_connected true) (init_conn s))) as Hrun.
    pose proof (read_loop_completion now chunks fin
                  (with_ui (set_connected true) (init_conn s))) as Hk.
    destruct (run_chunks_records now chunks (with_ui (set_connected true) (init_conn s)))
      as (_ & H2 & _); [constructor|].
    destruct (read_loop now chunks fin _) as [c1 k]. simpl in *. subst c1 k.
    destruct fin as [|name]; [done|].
    by destruct (String.eqb name "AbortError").
Qed.

Lemma startsWith_app (p s : string) : JS.startsWith p (p +:+ s) = true.
Proof.
  induction p as [|a p IH]; [done|].
  rewrite string_app_cons. simpl. by rewrite Ascii.eqb_refl.
Qed.

Lemma slice_app (p s : string) : JS.slice (String.length p) (p +:+ s) = s.
Proof. induction p as [|a p IH]; [done|]. by rewrite string_app_cons. Qed.

(** What the line loop carries from line to line: the event type, the
    data gathered, the records handed over. *)
Lemma dispatch_frame (now : string) (c : Conn) :
  eventType (dispatch now c).1 = eventType c ∧
  eventData (dispatch now c).1 = eventData c ∧
  records (dispatch now c).1 =
    records c ++ (if JS.truthy (eventType c) && JS.truthy (eventData c)
                  then [(eventType c, eventData c)] else []).
Proof.
  unfold dispatch.
  destruct (JS.truthy (eventType c) && JS.truthy (eventData c)).
  - by destruct (processSSEEvent now (eventType c) (eventData c) (ui c)).
  - by rewrite app_nil_r.
Qed.

Lemma frame_event_line (now T : string) (c : Conn) :
  eventType (process_line now ("event:" +:+ T) c).1 = Text.trim T ∧
  eventData (process_line now ("event:" +:+ T) c).1 = "" ∧
  records (process_line now ("event:" +:+ T) c).1 =
    records c ++ (if JS.truthy (eventType c) && JS.truthy (eventData c)
                  then [(eventType c, eventData c)] else []).
Proof.
  unfold process_line. rewrite (startsWith_app "event:" T).
  change 6 with (String.length "event:"). rewrite slice_app.
  pose proof (dispatch_normal now c) as Hn.
  destruct (dispatch_frame now c) as (_ & _ & Hr).
  destruct (dispatch now c) as [c1 k]. simpl in Hn, Hr. by subst k.
Qed.

Lemma frame_data_line (now A : string) (c : Conn) :
  eventType (process_line now ("data:" +:+ A) c).1 = eventType c ∧
  eventData (process_line now ("data:" +:+ A) c).1 =
    (if JS.truthy (eventData c)
     then eventData c +:+ String Text.newline (Text.trim A) else Text.trim A) ∧
  records (process_line now ("data:" +:+ A) c).1 = records c.
Proof.
  unfold process_line.
  change (JS.startsWith "event:" ("data:" +:+ A)) with false. cbv iota.
  rewrite (startsWith_app "data:" A).
  change 5 with (String.length "data:"). by rewrite slice_app.
Qed.

Lemma frame_blank_line (now : string) (c : Conn) :
  JS.truthy (eventType c) = true → JS.truthy (eventData c) = true →
  eventType (process_line now "" c).1 = "" ∧
  eventData (process_line now "" c).1 = "" ∧
  records (process_line now "" c).1 = records c ++ [(eventType c, eventData c)].
Proof.
  intros Ht Hd. rewrite process_line_blank, Ht, Hd. cbn [andb].
  pose proof (dispatch_normal now c) as Hn.
  destruct (dispatch_frame now c) as (_ & _ & Hr). rewrite Ht, Hd in Hr.
  destruct (dispatch now c) as [c1 k]. simpl in Hn, Hr. by subst k.
Qed.

Lemma truthy_nonempty (s : string) : s ≠ "" → JS.truthy s = true.
Proof. by destruct s. Qed.

Lemma truthy_app_cons (a b : string) (ch : ascii) :
  JS.truthy (a +:+ String ch b) = true.
Proof. by destruct a. Qed.

(** X11.  Framing of one record: several [data:] lines are joined with
    a line feed and handed over at the blank line; and a record that is
    not closed by a blank line is handed over when the next [event:] line
    arrives. *)
Theorem record_framing (now T A B : string) (c : Conn) :
  eventType c = "" → Text.trim T ≠ "" → Text.trim A ≠ "" →
  let closed := run_lines now ["event:" +:+ T; "data:" +:+ A; "data:" +:+ B; ""] c in
  let cut := run_lines now ["event:" +:+ T; "data:" +:+ A; "event:" +:+ B] c in
  records closed
    = records c ++ [(Text.trim T, Text.trim A +:+ String Text.newline (Text.trim B))] ∧
  eventType closed = "" ∧ eventData closed = "" ∧
  records cut = records c ++ [(Text.trim T, Text.trim A)] ∧
  eventType cut = Text.trim B ∧ eventData cut = "".
Proof.
  intros Hfresh HT HA closed cut.
  apply truthy_nonempty in HT, HA.
  set (c1 := (process_line now ("event:" +:+ T) c).1).
  destruct (frame_event_line now T c) as (Ht1 & Hd1 & Hr1). fold c1 in Ht1, Hd1, Hr1.
  rewrite Hfresh in Hr1. cbn [JS.truthy andb] in Hr1. rewrite app_nil_r in Hr1.
  set (c2 := (process_line now ("data:" +:+ A) c1).1).
  destruct (frame_data_line now A c1) as (Ht2 & Hd2 & Hr2). fold c2 in Ht2, Hd2, Hr2.
  rewrite Hd1 in Hd2. cbn [JS.truthy] in Hd2. rewrite Ht1 in Ht2. rewrite Hr1 in Hr2.
  set (c3 := (process_line now ("data:" +:+ B) c2).1).
  destruct (frame_data_line now B c2) as (Ht3 & Hd3 & Hr3). fold c3 in Ht3, Hd3, Hr3.
  rewrite Hd2, HA in Hd3. rewrite Ht2 in Ht3. rewrite Hr2 in Hr3.
  destruct (frame_blank_line now c3) as (Ht4 & Hd4 & Hr4).
  { by rewrite Ht3. }
  { rewrite Hd3. apply truthy_app_cons. }
  destruct (frame_event_line now B c2) as (Ht5 & Hd5 & Hr5).
  rewrite Ht2, Hd2, HT, HA in Hr5. cbn [andb] in Hr5.
  change closed with (process_line now "" c3).1.
  change cut with (process_line now ("event:" +:+ B) c2).1.
  rewrite Hr4, Hr3, Ht3, Hd3, Hr5, Hr2. done.
Qed.

Lemma record_framing_witness :
  records (run_lines "2025-01-01T00:00:00.000Z"
             ["event:" +:+ " tick"; "data:" +:+ " a"; "data:" +:+ " b"; ""]
             (init_conn init_app))
    = [("tick", "a" +:+ String Text.newline "b")].
Proof.
  destruct (record_framing "2025-01-01T00:00:00.000Z" " tick" " a" " b" (init_conn init_app))
    as (H & _); [reflexivity|by vm_compute|by vm_compute|].
  exact H.
Defined.

(** ** Minimal interact page: the window of recent events *)

Lemma keep_last_app {A : Type} (k : nat) (l m : list A) :
  keep_last k (keep_last k l ++ m) = keep_last k (l ++ m).
Proof.
  unfold keep_last. rewrite !length_app, !length_drop, !drop_app, !length_drop, drop_drop.
  f_equal; f_equal; lia.
Qed.

Lemma push_keep_last (now : string) (d : json) (p : Minimal.Page) :
  Minimal.sseEvents (Minimal.push now d p)
    = keep_last 50 (Minimal.sseEvents p ++ [(now, d)]).
Proof.
  unfold Minimal.push, keep_last. simpl.
  rewrite length_app, drop_app. simpl.
  replace (length (Minimal.sseEvents p) + 1 - 50) with (length (Minimal.sseEvents p) - 49)
    by lia.
  replace (length (Minimal.sseEvents p) - 49 - length (Minimal.sseEvents p)) with 0 by lia.
  done.
Qed.

Lemma minimal_line_window (now line : string) (c : Minimal.Conn) :
  Minimal.sseEvents (Minimal.page (Minimal.process_line now line c).1) =
    match arrival now line with
    | Some e => keep_last 50 (Minimal.sseEvents (Minimal.page c) ++ [e])
    | None => Minimal.sseEvents (Minimal.page c)
    end.
Proof.
  unfold Minimal.process_line, arrival, try_catch.
  destruct (JS.startsWith "data:" line); [|done].
  destruct (JsonParse.parse (Text.trim (JS.slice 5 line))) as [d|]; [|done].
  apply push_keep_last.
Qed.

Lemma arrivals_cons (now line : string) (lines : list string) :
  arrivals now (line :: lines) =
    match arrival now line with
    | Some e => e :: arrivals now lines
    | None => arrivals now lines
    end.
Proof. reflexivity. Qed.

(** X12.  The minimal page keeps a window of the 50 most recent events:
    after any lines, its list is the last 50 of the old list followed by
    the newly parsed [data:] entries, in arrival order; lines that bring
    nothing leave it untouched. *)
Theorem minimal_page_keeps_last_50 (now : string) (lines : list string) (c : Minimal.Conn) :
  Minimal.sseEvents (Minimal.page (for_of (Minimal.process_line now) lines c).1) =
    match arrivals now lines with
    | [] => Minimal.sseEvents (Minimal.page c)
    | news => keep_last 50 (Minimal.sseEvents (Minimal.page c) ++ news)
    end.
Proof.
  rewrite for_of_normal by apply minimal_process_line_normal. cbn [fst].
  revert c. induction lines as [|line lines IH]; intros c; [done|].
  cbn [fold_left]. rewrite IH, minimal_line_window, arrivals_cons.
  destruct (arrival now line) as [e|]; [|done].
  destruct (arrivals now lines) as [|n news]; [done|].
  rewrite keep_last_app. by rewrite <- (assoc_L (++)).
Qed.

(** ** Proxy client: interaction ids *)

(** X13.  A request object that went through [chat] or [chatStream]
    keeps its interaction id: sending it again, at any later time, sends
    the same metadata, so a retry is billed as the same interaction. *)
Theorem resend_keeps_interaction_id
    (c : Proxy.Client) (now now' : N) (rand rand' : string) (request : Proxy.ChatRequest) :
  Proxy.ensure_interaction_id now' rand' (Proxy.ensure_interaction_id now rand request)
    = Proxy.ensure_interaction_id now rand request ∧
  Proxy.metadata (Proxy.body (Proxy.chat c now' rand'
                                (Proxy.ensure_interaction_id now rand request)))
    = Proxy.metadata (Proxy.body (Proxy.chat c now rand request)) ∧
  Proxy.metadata (Proxy.body (Proxy.chatStream c now' rand'
                                (Proxy.ensure_interaction_id now rand request)))
    = Proxy.metadata (Proxy.body (Proxy.chatStream c now rand request)).
Proof.
  assert (Proxy.ensure_interaction_id now' rand'
            (Proxy.ensure_interaction_id now rand request)
          = Proxy.ensure_interaction_id now rand request) as Hsame.
  { unfold Proxy.ensure_interaction_id at 2.
    destruct request as [mo ms te mt st [[iid ot]|]]; simpl.
    - destruct iid as [|ch iid]; simpl; [|done].
      unfold Proxy.ensure_interaction_id. simpl.
      pose proof (generated_id_nonempty now rand) as Hne.
      by destruct (Proxy.generateInteractionId now rand).
    - unfold Proxy.ensure_interaction_id. simpl.
      pose proof (generated_id_nonempty now rand) as Hne.
      by destruct (Proxy.generateInteractionId now rand). }
  split; [done|]. unfold Proxy.chat, Proxy.chatStream. simpl. by rewrite Hsame.
Qed.

(** X14.  Interaction ids generated at different times, or with different
    random parts, are different. *)
Theorem generated_ids_are_distinct (now now' : N) (rand rand' : string) :
  now ≠ now' ∨ rand ≠ rand' →
  Proxy.generateInteractionId now rand ≠ Proxy.generateInteractionId now' rand'.
Proof.
  intros Hdiff Heq. apply generateInteractionId_inj in Heq as [-> ->].
  by destruct Hdiff.
Qed.

Lemma generated_ids_are_distinct_witness :
  Proxy.generateInteractionId 1700000000000 "k3j9x0a1b"
    ≠ Proxy.generateInteractionId 1700000000001 "k3j9x0a1b".
Proof.
  apply (generated_ids_are_distinct 1700000000000 1700000000001 "k3j9x0a1b" "k3j9x0a1b").
  left. discriminate.
Defined.

(** ** [chatStream]: the streamed answer *)

Lemma alike_refl (r : ProxyStream.Reader) : alike r r.
Proof. done. Qed.

Lemma alike_trans (r1 r2 r3 : ProxyStream.Reader) :
  alike r1 r2 → alike r2 r3 → alike r1 r3.
Proof.
  intros (Hy & Hf & He) (Hy' & Hf' & He'). split_and!; [congruence..|].
  intros Hrun. rewrite (He Hrun). apply He'. by rewrite <- Hf.
Qed.

Lemma proxy_feed_finished (r : ProxyStream.Reader) (value : list ascii) :
  ProxyStream.finished r = true → ProxyStream.feed r value = r.
Proof. intros Hf. unfold ProxyStream.feed. by rewrite Hf. Qed.

Lemma proxy_lines_finished (lines : list string) (r : ProxyStream.Reader) :
  ProxyStream.finished r = true → fold_left ProxyStream.process_line lines r = r.
Proof.
  intros Hf. induction lines as [|line lines IH]; [done|].
  cbn [fold_left]. unfold ProxyStream.process_line at 2. by rewrite Hf.
Qed.

Lemma proxy_read_loop_finished (chunks : list (list ascii)) (r : ProxyStream.Reader) :
  ProxyStream.finished r = true → ProxyStream.read_loop chunks r = r.
Proof.
  intros Hf. unfold ProxyStream.read_loop. induction chunks as [|v chunks IH]; [done|].
  cbn [fold_left]. by rewrite proxy_feed_finished.
Qed.

Lemma proxy_line_reader_at (d : Utf8.state) (b line : string) (r : ProxyStream.Reader) :
  ProxyStream.process_line (reader_at d b r) line
    = reader_at d b (ProxyStream.process_line r line).
Proof.
  unfold ProxyStream.process_line, reader_at.
  cbn [ProxyStream.finished ProxyStream.yielded ProxyStream.decoder ProxyStream.buffer].
  destruct (ProxyStream.finished r) eqn:Hf; [by rewrite Hf|].
  destruct (JS.startsWith "data: " line); [|by rewrite Hf].
  destruct (String.eqb (Text.trim (JS.slice 6 line)) "[DONE]"); [done|].
  destruct (JsonParse.parse (Text.trim (JS.slice 6 line))); [done|].
  cbn [ProxyStream.finished ProxyStream.yielded]. by rewrite Hf.
Qed.

Lemma proxy_lines_reader_at (d : Utf8.state) (b : string) (lines : list string)
    (r : ProxyStream.Reader) :
  fold_left ProxyStream.process_line lines (reader_at d b r)
    = reader_at d b (fold_left ProxyStream.process_line lines r).
Proof.
  revert r. induction lines as [|line lines IH]; intros r; [done|].
  cbn [fold_left]. by rewrite proxy_line_reader_at, IH.
Qed.

Lemma proxy_feed_unfold (r : ProxyStream.Reader) (value : list ascii) :
  ProxyStream.finished r = false →
  ProxyStream.feed r value =
    reader_at (Utf8.decode (ProxyStream.decoder r) value).1
      (List.last (Text.split (ProxyStream.buffer r +:+ string_of_list_ascii
                                (Utf8.decode (ProxyStream.decoder r) value).2)) "")
      (fold_left ProxyStream.process_line
         (removelast (Text.split (ProxyStream.buffer r +:+ string_of_list_ascii
                                    (Utf8.decode (ProxyStream.decoder r) value).2))) r).
Proof.
  intros Hf. unfold ProxyStream.feed. rewrite Hf.
  destruct (Utf8.decode (ProxyStream.decoder r) value) as [d text]. cbn [fst snd].
  rewrite <- proxy_lines_reader_at. unfold reader_at. by rewrite Hf.
Qed.

Lemma reader_at_alike (d d' : Utf8.state) (b b' : string) (r : ProxyStream.Reader) :
  ProxyStream.finished r = true → alike (reader_at d b r) (reader_at d' b' r).
Proof.
  intros Hf. unfold alike, reader_at. cbn. split_and!; [done..|]. by rewrite Hf.
Qed.

(** Two reads yield what one read of the joined bytes yields. *)
Lemma proxy_feed_app (a b : list ascii) (r : ProxyStream.Reader) :
  alike (ProxyStream.feed (ProxyStream.feed r a) b) (ProxyStream.feed r (a ++ b)).
Proof.
  destruct (ProxyStream.finished r) eqn:Hf.
  { rewrite !proxy_feed_finished by (by rewrite ?proxy_feed_finished). apply alike_refl. }
  rewrite (proxy_feed_unfold r (a ++ b) Hf), (proxy_feed_unfold r a Hf).
  rewrite decode_app.
  destruct (Utf8.decode (ProxyStream.decoder r) a) as [d1 t1]. cbn [fst snd].
  destruct (Utf8.decode d1 b) as [d2 t2] eqn:Hd2. cbn [fst snd].
  rewrite string_of_list_ascii_app, <- string_app_assoc.
  rewrite (split_app (ProxyStream.buffer r +:+ string_of_list_ascii t1)
             (string_of_list_ascii t2)).
  set (lines1 := Text.split (ProxyStream.buffer r +:+ string_of_list_ascii t1)).
  set (lines2 := Text.split (List.last lines1 "" +:+ string_of_list_ascii t2)).
  assert (lines2 ≠ []) as Hne by apply split_nonempty.
  rewrite last_app_nonempty by done.
  rewrite removelast_app by done. rewrite fold_left_app.
  set (r1 := fold_left ProxyStream.process_line (removelast lines1) r).
  destruct (ProxyStream.finished r1) eqn:Hf1.
  - rewrite proxy_feed_finished by done.
    rewrite proxy_lines_finished by done. by apply reader_at_alike.
  - rewrite proxy_feed_unfold by done.
    cbn [reader_at ProxyStream.decoder ProxyStream.buffer]. rewrite Hd2. cbn [fst snd].
    fold lines2. rewrite proxy_lines_reader_at.
    unfold reader_at. cbn. apply alike_refl.
Qed.

Lemma proxy_feed_alike (r r' : ProxyStream.Reader) (value : list ascii) :
  alike r r' → alike (ProxyStream.feed r value) (ProxyStream.feed r' value).
Proof.
  intros (Hy & Hf & He). destruct (ProxyStream.finished r) eqn:Hfr.
  - rewrite !proxy_feed_finished by congruence. split_and!; [done|congruence|].
    by rewrite Hfr.
  - rewrite (He eq_refl). apply alike_refl.
Qed.

Lemma proxy_read_loop_alike (chunks : list (list ascii)) (r r' : ProxyStream.Reader) :
  alike r r' → alike (ProxyStream.read_loop chunks r) (ProxyStream.read_loop chunks r').
Proof.
  unfold ProxyStream.read_loop. revert r r'.
  induction chunks as [|v chunks IH]; intros r r' H; [done|].
  cbn [fold_left]. by apply IH, proxy_feed_alike.
Qed.

Lemma proxy_feed_chunks (first : list ascii) (rest : list (list ascii))
    (r : ProxyStream.Reader) :
  alike (ProxyStream.read_loop rest (ProxyStream.feed r first))
        (ProxyStream.feed r (first ++ concat rest)).
Proof.
  revert first. induction rest as [|v rest IH]; intros first.
  - cbn [concat]. rewrite app_nil_r. apply alike_refl.
  - cbn [concat]. rewrite (assoc_L (++)).
    eapply alike_trans; [|apply IH].
    change (ProxyStream.read_loop (v :: rest) (ProxyStream.feed r first))
      with (ProxyStream.read_loop rest (ProxyStream.feed (ProxyStream.feed r first) v)).
    apply proxy_read_loop_alike, proxy_feed_app.
Qed.

Lemma proxy_read_loop_chunking (chunks : list (list ascii)) :
  alike (ProxyStream.read_loop chunks ProxyStream.init)
        (ProxyStream.feed ProxyStream.init (concat chunks)).
Proof.
  destruct chunks as [|v rest]; [by vm_compute|]. apply proxy_feed_chunks.
Qed.

(** X15.  What a consumer of [chatStream] receives depends on the bytes
    of the answer only, not on how the network cuts them into reads: two
    bodies with the same bytes yield the same chunks and end alike. *)
Theorem chat_stream_is_chunking_invariant (chunks chunks' : list (list ascii)) :
  concat chunks = concat chunks' →
  ProxyStream.chatStream_run (streaming chunks)
    = ProxyStream.chatStream_run (streaming chunks').
Proof.
  intros Hsame. unfold ProxyStream.chatStream_run, streaming. cbn. f_equal.
  destruct (proxy_read_loop_chunking chunks) as (-> & _).
  destruct (proxy_read_loop_chunking chunks') as (-> & _).
  by rewrite Hsame.
Qed.

Lemma chat_stream_is_chunking_invariant_witness :
  ProxyStream.chatStream_run (streaming sse_pieces)
    = ProxyStream.chatStream_run (streaming sse_whole).
Proof.
  apply (chat_stream_is_chunking_invariant sse_pieces sse_whole).
  vm_compute. reflexivity.
Defined.

(** X16.  The line [data: [DONE]] ends the stream: the chunks of the
    lines before it have been yielded, nothing of what follows it in the
    same read is, and no later read yields anything. *)
Theorem nothing_is_yielded_after_DONE
    (before after : list string) (line : string) (later : list (list ascii))
    (r : ProxyStream.Reader) :
  JS.startsWith "data: " line = true →
  Text.trim (JS.slice 6 line) = "[DONE]" →
  let at_done := fold_left ProxyStream.process_line (before ++ line :: after) r in
  ProxyStream.yielded at_done
    = ProxyStream.yielded (fold_left ProxyStream.process_line before r) ∧
  (ProxyStream.finished r = false → ProxyStream.finished at_done = true) ∧
  ProxyStream.read_loop later at_done = at_done.
Proof.
  intros Hdata Hdone at_done.
  assert (∀ r0, ProxyStream.finished (ProxyStream.process_line r0 line) = true ∧
                ProxyStream.yielded (ProxyStream.process_line r0 line)
                  = ProxyStream.yielded r0) as Hline.
  { intros r0. unfold ProxyStream.process_line. rewrite Hdata, Hdone.
    by destruct (ProxyStream.finished r0) eqn:Hf0. }
  unfold at_done. rewrite fold_left_app. cbn [fold_left].
  set (r1 := fold_left ProxyStream.process_line before r).
  destruct (Hline r1) as [Hf Hy].
  rewrite proxy_lines_finished by done.
  split_and!; [done|done|by apply proxy_read_loop_finished].
Qed.

Lemma nothing_is_yielded_after_DONE_witness :
  ProxyStream.yielded
    (fold_left ProxyStream.process_line
       (["data: 1"] ++ "data: [DONE]" :: ["data: 2"]) ProxyStream.init)
    = ProxyStream.yielded
        (fold_left ProxyStream.process_line ["data: 1"] ProxyStream.init).
Proof.
  apply (nothing_is_yielded_after_DONE ["data: 1"] ["data: 2"] "data: [DONE]" []
           ProxyStream.init); reflexivity.
Defined.

(** ** Auth provider: what a run of the native check leaves alone *)

Lemma same_session_refl (w : Auth.World) : same_session w w.
Proof. by unfold same_session. Qed.

Lemma checkSetupStatusFromAPI_session (env : Auth.Env) (w : Auth.World) :
  same_session w (Auth.checkSetupStatusFromAPI env w).2 ∧
  Auth.navigations (Auth.checkSetupStatusFromAPI env w).2 = Auth.navigations w.
Proof.
  unfold Auth.checkSetupStatusFromAPI, same_session.
  repeat case_match; simpl; split_and!; try done.
  intros k Hk _. by rewrite lookup_insert_ne.
Qed.

Lemma maybe_redirect_session (env : Auth.Env) (cf flag : bool)
    (am : option string) (w : Auth.World) :
  same_session w (Auth.maybe_redirect env cf flag am w).
Proof.
  unfold Auth.maybe_redirect.
  destruct (flag && negb (JS.startsWith "/setup" (Auth.pathname w)));
    [|apply same_session_refl].
  destruct (checkSetupStatusFromAPI_session env w) as [(Hu & Hl & Hc & Hp & Hls & Hss) _].
  destruct (Auth.checkSetupStatusFromAPI env w) as [needed w1]. cbn [snd] in *.
  unfold same_session.
  destruct needed; [|destruct cf]; simpl; split_and!; try done.
  - intros k H1 H2. rewrite lookup_insert_ne by done. by apply Hls.
  - intros k H1 H2. rewrite !lookup_insert_ne by done. by apply Hss.
  - intros k H1 H2. rewrite lookup_insert_ne by done. by apply Hls.
Qed.

Lemma checkNativeAuth_session_storage (env : Auth.Env) (w : Auth.World) (k : string) :
  k ≠ "ciris_redirect_in_progress" → k ≠ "ciris_last_redirect_time" →
  Auth.sessionStorage (Auth.checkNativeAuth env w).2 !! k = Auth.sessionStorage w !! k.
Proof.
  intros H1 H2. unfold Auth.checkNativeAuth.
  repeat case_match; simplify_eq; cbn [snd]; try done;
    match goal with
    | |- context [Auth.maybe_redirect ?e ?c ?f ?a ?w0] =>
        destruct (maybe_redirect_session e c f a w0) as (_ & _ & _ & _ & _ & Hss);
        by rewrite Hss
    end.
Qed.

(** X17.  The listener for [ciris_native_auth_ready] acts once: after
    one event has been handled, every further event leaves the state as
    it is, whatever the environment answers then. *)
Theorem native_auth_event_is_handled_once (env env' : Auth.Env) (w : Auth.World) :
  AuthMount.handleNativeAuthReady env' (AuthMount.handleNativeAuthReady env w)
    = AuthMount.handleNativeAuthReady env w.
Proof.
  assert (Auth.is_true (Auth.sessionStorage (AuthMount.handleNativeAuthReady env w)
                          !! "ciris_native_auth_event_handled") = true) as Hmark.
  { unfold AuthMount.handleNativeAuthReady.
    destruct (Auth.is_true (Auth.sessionStorage w !! "ciris_native_auth_event_handled"))
      eqn:Hm; [done|].
    rewrite checkNativeAuth_session_storage by done.
    simpl. by rewrite lookup_insert_eq. }
  unfold AuthMount.handleNativeAuthReady at 1. by rewrite Hmark.
Qed.

(** ** Auth provider: when a run redirects *)

Lemma checkSetupStatusFromAPI_needed (env : Auth.Env) (w : Auth.World) :
  (Auth.checkSetupStatusFromAPI env w).1 = true → ¬ api_says_complete env.
Proof.
  unfold Auth.checkSetupStatusFromAPI, api_says_complete.
  intros Hneeded (body & Hst & Hrd). rewrite Hst, Hrd in Hneeded. done.
Qed.

Lemma maybe_redirect_cause (env : Auth.Env) (cf flag : bool)
    (am : option string) (w : Auth.World) :
  Auth.navigations (Auth.maybe_redirect env cf flag am w) ≠ Auth.navigations w →
  flag = true ∧ JS.startsWith "/setup" (Auth.pathname w) = false ∧
  ¬ api_says_complete env.
Proof.
  unfold Auth.maybe_redirect. intros Hnav.
  destruct flag; [|done].
  destruct (JS.startsWith "/setup" (Auth.pathname w)); [done|]. cbn [andb negb] in Hnav.
  split_and!; [done..|].
  pose proof (checkSetupStatusFromAPI_needed env w) as Hneeded.
  destruct (checkSetupStatusFromAPI_session env w) as [_ Hn].
  destruct (Auth.checkSetupStatusFromAPI env w) as [needed w1]. cbn [fst snd] in *.
  destruct needed; [by apply Hneeded|].
  exfalso. apply Hnav. by destruct cf.
Qed.

(** X18.  A run of [checkNativeAuth] navigates only if the stored flag
    [ciris_show_setup] is [true], the page is not already under [/setup],
    and the status request did not answer that setup is complete. *)
Theorem redirect_needs_flag_and_unconfirmed_setup (env : Auth.Env) (w : Auth.World) :
  Auth.navigations (Auth.checkNativeAuth env w).2 ≠ Auth.navigations w →
  Auth.localStorage w !! "ciris_show_setup" = Some "true" ∧
  JS.startsWith "/setup" (Auth.pathname w) = false ∧
  ¬ api_says_complete env.
Proof.
  assert (∀ cf am w0,
            Auth.pathname w0 = Auth.pathname w →
            Auth.navigations w0 = Auth.navigations w →
            Auth.navigations
              (Auth.maybe_redirect env cf
                 (Auth.is_true (Auth.localStorage w !! "ciris_show_setup")) am w0)
              ≠ Auth.navigations w →
            Auth.localStorage w !! "ciris_show_setup" = Some "true" ∧
            JS.startsWith "/setup" (Auth.pathname w) = false ∧
            ¬ api_says_complete env) as Hcause.
  { intros cf am w0 Hp Hn Hnav. rewrite <- Hn in Hnav.
    apply maybe_redirect_cause in Hnav as (Hflag & Hpath & Hapi).
    rewrite Hp in Hpath. split_and!; [|done..].
    unfold Auth.is_true in Hflag. by apply bool_decide_eq_true in Hflag. }
  unfold Auth.checkNativeAuth.
  repeat case_match; simplify_eq; cbn [snd]; try done;
    intros Hnav; by eapply Hcause in Hnav.
Qed.

Lemma redirect_needs_flag_and_unconfirmed_setup_witness :
  Auth.localStorage world_first !! "ciris_show_setup" = Some "true" ∧
  JS.startsWith "/setup" (Auth.pathname world_first) = false ∧
  ¬ api_says_complete env_first.
Proof.
  apply (redirect_needs_flag_and_unconfirmed_setup env_first world_first).
  vm_compute. discriminate.
Defined.

(** X19.  When [checkNativeAuth] answers [false] it has signed nobody in
    and has not navigated: user, loading flag, navigations and session
    storage are as before, so that [checkAuth] starts from them. *)
Theorem declined_native_check_changes_no_session (env : Auth.Env) (w : Auth.World) :
  (Auth.checkNativeAuth env w).1 = false →
  Auth.user (Auth.checkNativeAuth env w).2 = Auth.user w ∧
  Auth.loading (Auth.checkNativeAuth env w).2 = Auth.loading w ∧
  Auth.navigations (Auth.checkNativeAuth env w).2 = Auth.navigations w ∧
  Auth.sessionStorage (Auth.checkNativeAuth env w).2 = Auth.sessionStorage w ∧
  Auth.pathname (Auth.checkNativeAuth env w).2 = Auth.pathname w.
Proof.
  unfold Auth.checkNativeAuth.
  repeat case_match; simplify_eq; cbn [fst snd]; try done.
Qed.

Lemma declined_native_check_changes_no_session_witness :
  Auth.user (Auth.checkNativeAuth env_second
               (Auth.remove_local "isNativeApp" world_fresh)).2 = None.
Proof.
  apply (declined_native_check_changes_no_session env_second
           (Auth.remove_local "isNativeApp" world_fresh)).
  vm_compute. reflexivity.
Defined.

(** ** Auth provider: who is signed in *)

Lemma indexOf_upper_bound (r : string) (l : list string) (i : Z) :
  (Auth.indexOf r l i < Z.max 0 i + Z.of_nat (length l))%Z.
Proof.
  revert i. induction l as [|x l IH]; intros i.
  - cbn [Auth.indexOf length]. lia.
  - cbn [Auth.indexOf]. rewrite length_cons, Nat2Z.inj_succ.
    destruct (String.eqb x r); [lia|]. specialize (IH (i + 1)%Z). lia.
Qed.

Lemma indexOf_present (r : string) (l : list string) (i : Z) :
  r ∈ l → (i <= Auth.indexOf r l i)%Z.
Proof.
  revert i. induction l as [|x l IH]; intros i Hin; [by apply elem_of_nil in Hin|].
  cbn [Auth.indexOf]. destruct (String.eqb_spec x r) as [->|Hne]; [lia|].
  apply elem_of_cons in Hin as [->|Hin]; [done|].
  specialize (IH (i + 1)%Z Hin). lia.
Qed.

Lemma system_admin_passes_everything (u : Auth.User) (r p : string) :
  Auth.role u = "SYSTEM_ADMIN" →
  Auth.hasRole (Some u) r = true ∧ AuthMount.hasPermission (Some u) p = true.
Proof.
  intros Hrole. unfold Auth.hasRole, AuthMount.hasPermission. rewrite Hrole. split.
  - apply Z.leb_le.
    pose proof (indexOf_upper_bound r Auth.roleHierarchy 0) as H.
    change (Auth.indexOf "SYSTEM_ADMIN" Auth.roleHierarchy 0) with 3%Z.
    change (Z.of_nat (length Auth.roleHierarchy)) with 4%Z in H. lia.
  - apply orb_true_r.
Qed.

Lemma auth_data_nonempty (raw : string) (v : json) :
  Auth.auth_data raw = Some v → JS.truthy raw = true.
Proof. by destruct raw. Qed.

(** X20.  With a token at hand (injected by native code, or saved by an
    earlier run that completed), a native session is restored from
    storage alone: whatever the server would answer, the check succeeds
    and signs in a user of role [SYSTEM_ADMIN], who passes every role
    check and every permission check, with the SDK configured for agent
    [datum] with that token. *)
Theorem restored_session_is_system_admin
    (env : Auth.Env) (w : Auth.World) (raw tok : string) (authData : json) :
  Auth.redirect_guard (Auth.clock env) w = false →
  Auth.localStorage w !! "isNativeApp" = Some "true" →
  Auth.localStorage w !! "ciris_native_auth" = Some raw →
  Auth.auth_data raw = Some authData →
  Auth.localStorage w !! "ciris_native_auth_complete" = Some "true"
    ∨ JS.truthy_opt (injected_token w) = true →
  JS.or_else (injected_token w) (Auth.localStorage w !! "ciris_native_auth_token")
    = Some tok →
  tok ≠ "" →
  (Auth.checkNativeAuth env w).1 = true ∧
  ∃ u, Auth.user (Auth.checkNativeAuth env w).2 = Some u ∧
       Auth.role u = "SYSTEM_ADMIN" ∧
       (∀ r, Auth.hasRole (Some u) r = true) ∧
       (∀ p, AuthMount.hasPermission (Some u) p = true) ∧
       Auth.loading (Auth.checkNativeAuth env w).2 = false ∧
       Auth.sdk_config (Auth.checkNativeAuth env w).2 = Some ("datum", Some tok).
Proof.
  intros Hguard Hnative Hraw Hdata Hhave Htok Hne.
  unfold injected_token in Hhave, Htok.
  unfold Auth.checkNativeAuth. rewrite Hguard, Hnative, Hraw, Htok.
  change (Auth.is_true (Some "true")) with true.
  cbn [negb orb JS.truthy_opt from_option id]. rewrite (auth_data_nonempty raw authData Hdata).
  cbn [negb]. rewrite Hdata.
  assert (JS.truthy tok = true) as -> by (by destruct tok).
  assert (Auth.is_true (Auth.localStorage w !! "ciris_native_auth_complete")
          || JS.truthy_opt
               (JS.or_else (Auth.localStorage w !! "ciris_access_token")
                  (Auth.localStorage w !! "access_token")) = true) as ->.
  { destruct Hhave as [-> | ->]; [done|apply orb_true_r]. }
  cbn [andb fst snd]. split; [done|].
  match goal with
  | |- context [Auth.maybe_redirect ?e ?c ?f ?a ?w0] =>
      destruct (maybe_redirect_session e c f a w0) as (Hu & Hl & Hc & _);
      set (w' := Auth.maybe_redirect e c f a w0) in *
  end.
  eexists. split; [rewrite Hu; reflexivity|]. split; [done|].
  split; [intros r; by apply (system_admin_passes_everything _ r "")|].
  split; [intros p; by apply (system_admin_passes_everything _ "" p)|].
  split; [by rewrite Hl|]. rewrite Hc.
  by destruct (JS.truthy_opt
                 (JS.or_else (Auth.localStorage w !! "ciris_access_token")
                    (Auth.localStorage w !! "access_token"))).
Qed.

Lemma restored_session_is_system_admin_witness :
  (Auth.checkNativeAuth env_second world_injected).1 = true ∧
  ∃ u, Auth.user (Auth.checkNativeAuth env_second world_injected).2 = Some u ∧
       Auth.role u = "SYSTEM_ADMIN".
Proof.
  destruct (restored_session_is_system_admin env_second world_injected
              ("{" +:+ quoted "googleUserId" +:+ ":" +:+ quoted "g-42" +:+ "}")
              "tok-injected" (JObj [("googleUserId", JStr "g-42")]))
    as (Hans & u & Hu & Hrole & _).
  - vm_compute. reflexivity.
  - reflexivity.
  - reflexivity.
  - vm_compute. reflexivity.
  - right. reflexivity.
  - reflexivity.
  - discriminate.
  - split; [exact Hans|]. exists u. split; [exact Hu | exact Hrole].
Defined.

(** X21.  At a first start without any token, a failed default login is
    not reported: the check still succeeds, signs in a local user of role
    [ADMIN] built from the stored native-auth data, and marks native auth
    as complete although no token has been stored. *)
Theorem failed_login_signs_in_local_admin
    (env : Auth.Env) (w : Auth.World) (raw : string) (authData : json) :
  Auth.redirect_guard (Auth.clock env) w = false →
  Auth.localStorage w !! "isNativeApp" = Some "true" →
  Auth.localStorage w !! "ciris_native_auth" = Some raw →
  Auth.auth_data raw = Some authData →
  Auth.localStorage w !! "ciris_access_token" = None →
  Auth.localStorage w !! "access_token" = None →
  Auth.localStorage w !! "ciris_native_auth_token" = None →
  Auth.is_authenticated env = false →
  Auth.login_result env = None →
  (Auth.checkNativeAuth env w).1 = true ∧
  ∃ u, Auth.user (Auth.checkNativeAuth env w).2 = Some u ∧
       Auth.role u = "ADMIN" ∧
       Auth.hasRole (Some u) "ADMIN" = true ∧
       Auth.hasRole (Some u) "SYSTEM_ADMIN" = false ∧
       Auth.localStorage (Auth.checkNativeAuth env w).2 !! "ciris_native_auth_complete"
         = Some "true" ∧
       Auth.localStorage (Auth.checkNativeAuth env w).2 !! "ciris_native_auth_token"
         = None ∧
       Auth.sdk_config (Auth.checkNativeAuth env w).2 = Some ("datum", None).
Proof.
  intros Hguard Hnative Hraw Hdata Hinj1 Hinj2 Hsaved Hsdk Hlogin.
  unfold Auth.checkNativeAuth. rewrite Hguard, Hnative, Hraw, Hinj1, Hinj2, Hsaved.
  change (Auth.is_true (Some "true")) with true.
  cbn [negb orb JS.truthy_opt JS.or_else from_option id].
  rewrite (auth_data_nonempty raw authData Hdata).
  rewrite andb_false_r. cbn [negb]. rewrite Hsdk, Hlogin.
  unfold Auth.auth_data in Hdata.
  destruct (JsonParse.parse raw) as [v|]; [|done].
  assert (v = authData ∧ authData ≠ JNull) as [-> Hnn] by (by destruct v; simplify_eq).
  assert (∀ (A : Type) (x y : A),
            match authData with JNull => x | _ => y end = y) as Hsel
    by (intros A x y; by destruct authData).
  rewrite Hsel. cbn [fst snd]. split; [done|].
  match goal with
  | |- context [Auth.maybe_redirect ?e ?c ?f ?a ?w0] =>
      destruct (maybe_redirect_session e c f a w0) as (Hu & _ & Hc & _ & Hls & _);
      set (w' := Auth.maybe_redirect e c f a w0) in *
  end.
  eexists. split; [rewrite Hu; reflexivity|].
  split_and!; try done.
  - rewrite Hls by done. simpl. by rewrite lookup_insert_eq.
  - rewrite Hls by done. simpl. by rewrite !lookup_insert_ne.
Qed.

Lemma failed_login_signs_in_local_admin_witness :
  (Auth.checkNativeAuth env_second world_fresh).1 = true ∧
  ∃ u, Auth.user (Auth.checkNativeAuth env_second world_fresh).2 = Some u ∧
       Auth.role u = "ADMIN".
Proof.
  destruct (failed_login_signs_in_local_admin env_second world_fresh
              ("{" +:+ quoted "googleUserId" +:+ ":" +:+ quoted "g-42" +:+ "}")
              (JObj [("googleUserId", JStr "g-42")]))
    as (Hans & u & Hu & Hrole & _).
  - vm_compute. reflexivity.
  - reflexivity.
  - reflexivity.
  - vm_compute. reflexivity.
  - reflexivity.
  - reflexivity.
  - reflexivity.
  - reflexivity.
  - reflexivity.
  - split; [exact Hans|]. exists u. split; [exact Hu | exact Hrole].
Defined.

(** ** Auth provider: the status request, the mount effect, roles *)

(** X22.  [checkSetupStatusFromAPI] never leaves a contradiction behind:
    when it answers that setup is needed it has changed nothing, and when
    it answers that setup is not needed the stored flag
    [ciris_show_setup] is not [true] afterwards, whether the answer came
    from the server or, after a failed request, from the flag itself. *)
Theorem setup_status_agrees_with_stored_flag (env : Auth.Env) (w : Auth.World) :
  if (Auth.checkSetupStatusFromAPI env w).1
  then (Auth.checkSetupStatusFromAPI env w).2 = w
  else Auth.is_true
         (Auth.localStorage (Auth.checkSetupStatusFromAPI env w).2 !! "ciris_show_setup")
       = false.
Proof.
  unfold Auth.checkSetupStatusFromAPI.
  destruct (Auth.setup_status env) as [|[|] [body|]]; cbn [fst snd];
    try (by destruct (Auth.is_true (Auth.localStorage w !! "ciris_show_setup")) eqn:E).
  destruct (Auth.read_status body) as [[|]|]; cbn [fst snd];
    try (by destruct (Auth.is_true (Auth.localStorage w !! "ciris_show_setup")) eqn:E).
  simpl. by rewrite lookup_insert_eq.
Qed.

Lemma checkNativeAuth_loading (env : Auth.Env) (w : Auth.World) :
  Auth.loading (Auth.checkNativeAuth env w).2 = true →
  (Auth.checkNativeAuth env w).1 = true →
  Auth.redirect_guard (Auth.clock env) w = true ∨ Auth.is_authenticated env = true.
Proof.
  unfold Auth.checkNativeAuth.
  repeat case_match; simplify_eq; cbn [fst snd]; intros Hl Ha;
    try done; try (by left); try (by right);
    match goal with
    | H : context [Auth.maybe_redirect ?e ?c ?f ?a ?w0] |- _ =>
        destruct (maybe_redirect_session e c f a w0) as (_ & Hlo & _);
        by rewrite Hlo in H
    end.
Qed.

(** X23.  After the mount effect the loading flag is cleared, except
    when the native check claimed the session without signing anybody in:
    that happens only while the redirect guard is closed, or when the SDK
    reports that it is authenticated already. *)
Theorem mount_clears_loading (env : AuthMount.Env) (w : Auth.World) :
  Auth.loading (AuthMount.mount env w).1 = true →
  Auth.redirect_guard (Auth.clock (AuthMount.native env)) w = true
  ∨ Auth.is_authenticated (AuthMount.native env) = true.
Proof.
  unfold AuthMount.mount. cbn [fst].
  destruct (String.eqb (Auth.pathname w) "/login"
            || JS.startsWith "/manager" (Auth.pathname w)); [done|].
  pose proof (checkNativeAuth_loading (AuthMount.native env) w) as Hnat.
  destruct (Auth.checkNativeAuth (AuthMount.native env) w) as [[|] w1];
    cbn [fst snd] in *; [by auto|done].
Qed.

Lemma mount_clears_loading_witness :
  Auth.redirect_guard
    (Auth.clock (AuthMount.native
                   {| AuthMount.native := env_second; AuthMount.authenticated := false;
                      AuthMount.me := None |})) world_locked = true
  ∨ Auth.is_authenticated
      (AuthMount.native
         {| AuthMount.native := env_second; AuthMount.authenticated := false;
            AuthMount.me := None |}) = true.
Proof.
  apply (mount_clears_loading
           {| AuthMount.native := env_second; AuthMount.authenticated := false;
              AuthMount.me := None |} world_locked).
  vm_compute. reflexivity.
Defined.

(** X24.  A user whose own role is not one of the hierarchy passes a
    role check exactly when the required role is not one of the hierarchy
    either: such a user is below [OBSERVER]. *)
Theorem role_outside_hierarchy_is_below_observer (u : Auth.User) (required : string) :
  Auth.role u ∉ Auth.roleHierarchy →
  Auth.hasRole (Some u) required = true ↔ required ∉ Auth.roleHierarchy.
Proof.
  intros Hu. unfold Auth.hasRole.
  rewrite (indexOf_absent (Auth.role u) Auth.roleHierarchy 0 Hu).
  rewrite Z.leb_le. split.
  - intros Hle Hin. pose proof (indexOf_present required Auth.roleHierarchy 0 Hin). lia.
  - intros Hout. rewrite (indexOf_absent required Auth.roleHierarchy 0 Hout). lia.
Qed.

Lemma role_outside_hierarchy_is_below_observer_witness :
  Auth.hasRole (Some service_account) "OBSERVER" = true ↔
  "OBSERVER" ∉ Auth.roleHierarchy.
Proof.
  apply (role_outside_hierarchy_is_below_observer service_account "OBSERVER").
  unfold Auth.roleHierarchy. intros Hin.
  repeat (apply elem_of_cons in Hin as [Hin|Hin]; [discriminate Hin|]).
  by apply elem_of_nil in Hin.
Defined.

(** ** Billing page: the credit card *)

(** X25.  The caption [Click to purchase more] is shown exactly on the
    cards on which a click does nothing and no Purchase button is drawn;
    and every card has at least one caption. *)
Theorem click_caption_is_shown_where_click_is_inert (c : Billing.CreditStatus) :
  ("Click to purchase more" ∈ Billing.captions (Billing.CreditBalance c) →
   Billing.click_purchases (Billing.CreditBalance c) = false ∧
   Billing.purchase_button (Billing.CreditBalance c) = false) ∧
  (Billing.click_purchases (Billing.CreditBalance c) = false →
   Billing.isFree c = false →
   Billing.captions (Billing.CreditBalance c) = ["Click to purchase more"]) ∧
  Billing.captions (Billing.CreditBalance c) ≠ [].
Proof.
  unfold Billing.CreditBalance.
  destruct (Billing.isFree c), (Billing.isEmpty c), (Billing.isLow c);
    cbn; split_and!; try done; intros Hin;
    repeat (apply elem_of_cons in Hin as [Hin|Hin]; [discriminate Hin|]);
    by apply elem_of_nil in Hin.
Qed.

Lemma click_caption_is_shown_where_click_is_inert_witness :
  Billing.captions (Billing.CreditBalance sample_credits) = ["Click to purchase more"] ∧
  Billing.purchase_button (Billing.CreditBalance sample_credits) = false.
Proof.
  destruct (click_caption_is_shown_where_click_is_inert sample_credits)
    as (Hinert & Hcaption & _).
  split.
  - apply Hcaption; reflexivity.
  - apply Hinert. rewrite Hcaption by reflexivity. apply list_elem_of_singleton. reflexivity.
Defined.
